(** * react-three-2048: the grid store, the merge resolver, the terminal-state
      tests and the phase machine of [src/gridUtils.ts] and [src/use2048.ts].

    JavaScript values are modelled as follows.
    - Numbers that the code uses as indices, counters, sizes, direction
      signs and block values are integers ([Z]).
    - An array is a list.  [arr[i]] is [js_get]: [None] stands for
      [undefined] (index out of range).
    - A block object is never mutated by the code (every change goes through
      a spread copy), so it is modelled as a value that carries its object
      identity [Block.ref]: [Array.prototype.includes] compares objects by
      identity, not by content.
    - A cell object is mutated in place by [setBlockAt] and is shared between
      a grid and its clones, so cells live in a store ([Heap.cells]) and the
      grid arrays hold their addresses.
    - The row arrays of a grid are only ever mutated on the grid that a
      function received or has just cloned, and the function returns that
      grid: they are modelled by value, the mutated grid being passed on. *)

From Stdlib Require Import ZArith List Lia Bool QArith Qround.
From stdpp Require Import base relations list list_numbers strings.

Local Open Scope Z_scope.

(** ** Outcomes: a JavaScript computation returns or throws *)

Inductive Fault :=
| TypeError        (* property access on undefined *)
| RangeError       (* new Array(n) with an invalid length *)
| DirectionError   (* Error('Either direction.x or direction.y must be 0') *)
| PhaseError       (* Error('Animation complete fired during unexpected phase ...') *)
| Unrepresentable. (* not an exception: the code goes on with an object that
                      the types below cannot hold; see [clearTransient]
                      and [js_set] *)

Inductive result (A : Type) :=
| Ok (a : A)
| Throw (f : Fault).
Arguments Ok {A} a.
Arguments Throw {A} f.

(** ** Data model ([types.ts]) *)

Abbreviation addr := nat (only parsing).

Module Block.
Record t := mk { ref : addr; id : string; value : Z; isNew : bool }.
End Block.

Module Cell.
(* [None] is [null] *)
Record t := mk { block : option Block.t; mergedBlock : option Block.t }.
End Cell.

Module Vector.
Record t := mk { x : Z; y : Z }.
End Vector.

(** An array of cells as the code handles it at run time: a slot is the
    address of a cell object, or [None] when the slot reads as [undefined]
    ([getColumnAt] on a short row, or a slot skipped by a write past the
    end of the array). *)
Abbreviation Cells := (list (option addr)) (only parsing).

Module Grid.
Record t := mk { size : Z; rows : list Cells }.
End Grid.

Module Heap.
  (* [cells]: the cell objects, by address; [nextRef]: the identity that the
     next block object created by the code receives *)
Record t := mk { cells : list Cell.t; nextRef : addr }.
End Heap.

(** ** JavaScript arrays *)

(** A list stands for an array that has its elements and no other
    property.  [arr[i]] for an integer [i]: an element when [i] is an index
    of the array, [undefined] past the end; a negative [i] names a property
    (["-1"]), which such an array does not have, so the read is
    [undefined].  Arrays that do have such a property are not values of
    this model: the write that would make one is [Unrepresentable], see
    [js_set]. *)
Definition js_get {A} (arr : list A) (i : Z) : option A :=
  if i <? 0 then None else arr !! Z.to_nat i.

(** [arr[i] = v] on an array of slots: inside the array the slot is replaced;
    past the end JavaScript extends the array, the skipped slots read as
    [undefined].  With a negative index JavaScript stores [v] as a property
    of the array object (["-1"]), which later reads with the same index
    find: a list cannot hold it, and the outcome is [Unrepresentable].
    (The skipped slots are holes, which [map] and [forEach] would pass
    over; the model reads them as [undefined] everywhere, which differs
    only for a line that is mapped after a write past its end.) *)
Definition js_set {A} (arr : list (option A)) (i : Z) (v : option A)
  : result (list (option A)) :=
  if i <? 0 then Throw Unrepresentable
  else if i <? Z.of_nat (length arr) then Ok (<[Z.to_nat i := v]> arr)
  else Ok (arr ++ replicate (Z.to_nat i - length arr)%nat None ++ [v]).

(** ** The pairing scan: [findBlockPairs] *)

(** [pairedBlocks.includes(b)]: identity of objects *)
Definition includes (arr : list Block.t) (b : Block.t) : bool :=
  existsb (fun p => Nat.eqb (Block.ref p) (Block.ref b)) arr.

Definition addToBlockPairs (direction : Z) (blockPair : list Block.t)
  (blockPairs : list (list Block.t)) : list (list Block.t) :=
  if direction =? 1 then blockPair :: blockPairs   (* unshift *)
  else blockPairs ++ [blockPair].                  (* push *)

(** The body of the loop once [block] and [lastBlock] have been read; the
    state is [(blockPairs, pairedBlocks)].  [None] is a slot that is
    [undefined] or [null]. *)
Definition findBlockPairs_visit (direction : Z)
  (block lastBlock : option Block.t)
  (st : list (list Block.t) * list Block.t) : list (list Block.t) * list Block.t :=
  let '(blockPairs, pairedBlocks) := st in
  match lastBlock with
  | None => st                                     (* !lastBlock: continue *)
  | Some lastBlock =>
      if includes pairedBlocks lastBlock then st   (* continue *)
      else
        match block with
        | Some block =>
            if Block.value block =? Block.value lastBlock then
              (* "even though blocks will be merged, maintain original
                 order for animation": as written the pair is [higher
                 index, lower index] for either direction *)
              let pair := if direction =? 1 then [lastBlock; block]
                          else [block; lastBlock] in
              (addToBlockPairs direction pair blockPairs,
               pairedBlocks ++ [block; lastBlock])
            else (addToBlockPairs direction [lastBlock] blockPairs, pairedBlocks)
        | None =>                                  (* undefined === number *)
            (addToBlockPairs direction [lastBlock] blockPairs, pairedBlocks)
        end
  end.

Definition findBlockPairs_iter (direction : Z) (blocks : list (option Block.t))
  (st : list (list Block.t) * list Block.t) (i : Z)
  : list (list Block.t) * list Block.t :=
  let index := if direction =? 1 then Z.of_nat (length blocks) - i - 1 else i in
  let lastIndex := index + direction in
  let block := mjoin (js_get blocks index) in
  let lastBlock := mjoin (js_get blocks lastIndex) in
  findBlockPairs_visit direction block lastBlock st.

Record BlockPairs := mkBlockPairs {
  hasBlockPairs : bool;
  blockPairs : list (list Block.t)
}.

(** [for (let i = 0; i <= blocks.length; ++i)] *)
Definition findBlockPairs (direction : Z) (blocks : list (option Block.t))
  : BlockPairs :=
  let '(blockPairs, pairedBlocks) :=
    foldl (findBlockPairs_iter direction blocks) ([], [])
          (seqZ 0 (Z.of_nat (length blocks) + 1)) in
  {| hasBlockPairs := negb (Nat.eqb (length pairedBlocks) 0);
     blockPairs := blockPairs |}.

(** ** The store monad: a computation reads and writes the heap, and
       returns or throws; what was written before a throw stays written *)

Definition M (A : Type) : Type := Heap.t -> result A * Heap.t.

Definition ret {A} (a : A) : M A := fun h => (Ok a, h).

Definition throw {A} (f : Fault) : M A := fun h => (Throw f, h).

Definition bind {A B} (m : M A) (k : A -> M B) : M B :=
  fun h =>
    match m h with
    | (Ok a, h') => k a h'
    | (Throw f, h') => (Throw f, h')
    end.

Notation "'let*' x ':=' m 'in' k" := (bind m (fun x => k))
  (at level 10, x name, m at level 100, k at level 200).
Notation "'let*' ' p ':=' m 'in' k" := (bind m (fun x => let 'p := x in k))
  (at level 10, p pattern, m at level 100, k at level 200).

Definition liftR {A} (r : result A) : M A := fun h => (r, h).

(** [cell.<field>] on a slot: [undefined] has no properties.  An address
    without an object does not arise from the code; it is read like
    [undefined]. *)
Definition readCell (cell : option addr) : M Cell.t :=
  fun h =>
    match cell with
    | None => (Throw TypeError, h)
    | Some a =>
        match Heap.cells h !! a with
        | Some c => (Ok c, h)
        | None => (Throw TypeError, h)
        end
    end.

(** a new cell object *)
Definition allocCell (c : Cell.t) : M addr :=
  fun h =>
    (Ok (length (Heap.cells h)),
     {| Heap.cells := Heap.cells h ++ [c]; Heap.nextRef := Heap.nextRef h |}).

(** the identity of a new block object *)
Definition freshRef : M addr :=
  fun h =>
    (Ok (Heap.nextRef h),
     {| Heap.cells := Heap.cells h; Heap.nextRef := S (Heap.nextRef h) |}).

Fixpoint mapM {A B} (f : A -> M B) (l : list A) : M (list B) :=
  match l with
  | [] => ret []
  | a :: l' => let* b := f a in let* bs := mapM f l' in ret (b :: bs)
  end.

(** ** Grid store ([gridUtils.ts]) *)

Definition makeEmptyCell : Cell.t := {| Cell.block := None; Cell.mergedBlock := None |}.

(** [makeNewBlock(value)]; [uuid] is what [uuidv4()] returns *)
Definition makeNewBlock (uuid : string) (value : Z) : M Block.t :=
  let* r := freshRef in
  ret {| Block.ref := r; Block.id := uuid; Block.value := value; Block.isNew := true |}.

(** [buildArray(size, builder)] with an effectful builder;
    [new Array(size)] throws for a length outside [0, 2^32 - 1] *)
Definition buildArray {A} (size : Z) (builder : Z -> M A) : M (list A) :=
  if (size <? 0) || (4294967295 <? size) then throw RangeError
  else mapM builder (seqZ 0 size).

Definition makeEmptyGrid (size : Z) : M Grid.t :=
  let* rows := buildArray size (fun _ =>
            buildArray size (fun _ => let* a := allocCell makeEmptyCell in ret (Some a))) in
  ret {| Grid.size := size; Grid.rows := rows |}.

(** [rows.map((row) => row.slice())]: new arrays, the same cell objects *)
Definition cloneGrid (grid : Grid.t) : Grid.t :=
  {| Grid.size := Grid.size grid;
     Grid.rows := map (fun row : Cells => row) (Grid.rows grid) |}.

(** [grid.rows[position.y][position.x]] *)
Definition getCellAt (position : Vector.t) (grid : Grid.t) : result (option addr) :=
  match js_get (Grid.rows grid) (Vector.y position) with
  | None => Throw TypeError
  | Some row => Ok (mjoin (js_get row (Vector.x position)))
  end.

(** [grid.rows[position.y][position.x] = cell; return grid] *)
Definition setCellAt (position : Vector.t) (cell : option addr) (grid : Grid.t)
  : result Grid.t :=
  match js_get (Grid.rows grid) (Vector.y position) with
  | None => Throw TypeError
  | Some row =>
      match js_set row (Vector.x position) cell with
      | Throw f => Throw f
      | Ok row' =>
          Ok {| Grid.size := Grid.size grid;
                Grid.rows := <[Z.to_nat (Vector.y position) := row']> (Grid.rows grid) |}
      end
  end.

(** [grid.rows[position.y][position.x].block = block; return grid]: the cell
    object itself is written.  [position] is [None] when the caller passes
    [undefined] (the SPAWN handler can, see [arrayRandomItem]). *)
Definition setBlockAt (position : option Vector.t) (block : option Block.t)
  (grid : Grid.t) : M Grid.t :=
  fun h =>
    match position with
    | None => (Throw TypeError, h)
    | Some position =>
        match getCellAt position grid with
        | Throw f => (Throw f, h)
        | Ok None => (Throw TypeError, h)
        | Ok (Some a) =>
            match Heap.cells h !! a with
            | None => (Throw TypeError, h)
            | Some c =>
                (Ok grid,
                 {| Heap.cells :=
                      <[a := {| Cell.block := block;
                                Cell.mergedBlock := Cell.mergedBlock c |}]>
                        (Heap.cells h);
                    Heap.nextRef := Heap.nextRef h |})
            end
        end
    end.

(** [cells.map((cell) => cell.block)] *)
Definition pluckBlocks (cells : Cells) : M (list (option Block.t)) :=
  mapM (fun cell => let* c := readCell cell in ret (Cell.block c)) cells.

(** [grid.rows.map((row) => row[x])] *)
Definition getColumnAt (x : Z) (grid : Grid.t) : Cells :=
  map (fun row : Cells => mjoin (js_get row x)) (Grid.rows grid).

(** [column.forEach((cell, y) => { grid.rows[y][x] = cell })] *)
Fixpoint setColumnAt_from (y : Z) (x : Z) (column : Cells) (grid : Grid.t)
  : result Grid.t :=
  match column with
  | [] => Ok grid
  | cell :: column' =>
      match setCellAt {| Vector.x := x; Vector.y := y |} cell grid with
      | Throw f => Throw f
      | Ok grid' => setColumnAt_from (y + 1) x column' grid'
      end
  end.

Definition setColumnAt (x : Z) (column : Cells) (grid : Grid.t) : result Grid.t :=
  setColumnAt_from 0 x column grid.

(** [grid.rows[y]]; [None] is [undefined] *)
Definition getRowAt (y : Z) (grid : Grid.t) : option Cells :=
  js_get (Grid.rows grid) y.

(** [grid.rows[y] = row].  At its only call ([resolveCellsInDirection]) row
    [y] has just been read, so [y] is an index of the outer array; a write
    past its end, which would leave holes between rows, is outside the
    grids of this model and leaves the rows as they are. *)
Definition setRowAt (y : Z) (row : Cells) (grid : Grid.t) : Grid.t :=
  {| Grid.size := Grid.size grid;
     Grid.rows := if y <? 0 then Grid.rows grid
                  else <[Z.to_nat y := row]> (Grid.rows grid) |}.

(** The positions in the order of the two loops of [iterateCells]:
    [for x] outside, [for y] inside. *)
Definition cellPositions (size : Z) : list Vector.t :=
  flat_map (fun x => map (fun y => {| Vector.x := x; Vector.y := y |}) (seqZ 0 size))
           (seqZ 0 size).

(** An iterator is a closure: [S] is the state of the variables it
    captures, and it may mutate the grid, which is passed on.  The boolean
    is [res !== false]. *)
Definition CellIterator (S : Type) : Type :=
  option addr -> Vector.t -> Grid.t -> S -> M (S * Grid.t * bool).

Fixpoint iterateCells_over {S} (positions : list Vector.t)
  (iterator : CellIterator S) (grid : Grid.t) (s : S) : M (S * Grid.t) :=
  match positions with
  | [] => ret (s, grid)
  | position :: positions' =>
      let* cell := liftR (getCellAt position grid) in
      let* ' (s', grid', res) := iterator cell position grid s in
      if res : bool then iterateCells_over positions' iterator grid' s'
      else ret (s', grid')                         (* return *)
  end.

Definition iterateCells {S} (grid : Grid.t) (iterator : CellIterator S) (s : S)
  : M (S * Grid.t) :=
  iterateCells_over (cellPositions (Grid.size grid)) iterator grid s.

(** [updateCell] is the [CellUpdater]: it receives the cell object and
    returns a cell object (the same one or a new one) *)
Definition updateCells (grid : Grid.t) (updateCell : option addr -> Vector.t -> M (option addr))
  : M Grid.t :=
  let* '(_, grid') := iterateCells grid
     (fun cell position grid (_ : unit) =>
        let* cell' := updateCell cell position in
        let* grid' := liftR (setCellAt position cell' grid) in
        ret (tt, grid', true))
     tt in
  ret grid'.

Definition findEmptyCellPositions (grid : Grid.t) : M (list Vector.t) :=
  let* '(result, _) := iterateCells grid
     (fun cell position grid (result : list Vector.t) =>
        let* c := readCell cell in
        match Cell.block c with
        | None => ret (result ++ [position], grid, true)
        | Some _ => ret (result, grid, true)
        end)
     [] in
  ret result.

Definition hasNewCell (grid : Grid.t) : M bool :=
  let* '(result, _) := iterateCells grid
     (fun cell _ grid (result : bool) =>
        let* c := readCell cell in
        match Cell.block c with
        | Some b => if Block.isNew b then ret (true, grid, true)
                    else ret (result, grid, true)
        | None => ret (result, grid, true)
        end)
     false in
  ret result.

(** [Math.max(maxBlockValue, cell.block?.value ?? 0)], then [=== 2048] *)
Definition hasWon (grid : Grid.t) : M bool :=
  let* '(maxBlockValue, _) := iterateCells grid
     (fun cell _ grid (maxBlockValue : Z) =>
        let* c := readCell cell in
        ret (Z.max maxBlockValue
                   (match Cell.block c with Some b => Block.value b | None => 0 end),
             grid, true))
     0 in
  ret (maxBlockValue =? 2048).

(** ** The merge resolver *)

(** The callback of [cells.map] in [resolveColumnOrRowInDirection]: the cell
    object that replaces the one at [index].  Both fields of the spread
    [{...cell, block, mergedBlock}] are overwritten, so the old cell is not
    read. *)
Definition resolveCell (direction : Z) (blockPairs : list (list Block.t))
  (cellCount cellsLength : Z) (index : Z) : M (option addr) :=
  let blockPairIndex :=
    if direction =? 1 then cellCount - cellsLength + index else index in
  match js_get blockPairs blockPairIndex with
  | None =>                                        (* ?? [null] *)
      let* a := allocCell {| Cell.block := None; Cell.mergedBlock := None |} in
      ret (Some a)
  | Some cellBlockPairs =>
      if Nat.eqb (length cellBlockPairs) 1 then
        let* a := allocCell {| Cell.block := head cellBlockPairs;
                               Cell.mergedBlock := None |} in
        ret (Some a)
      else
        let cellBlockPairs :=
          if direction =? 1 then reverse cellBlockPairs else cellBlockPairs in
        match cellBlockPairs with
        | baseBlock :: blockToMerge :: _ =>
            let* r := freshRef in
            let* a := allocCell
              {| Cell.block :=
                   Some {| Block.ref := r;
                           Block.id := Block.id baseBlock;
                           Block.value := Block.value baseBlock + Block.value blockToMerge;
                           Block.isNew := Block.isNew baseBlock |};
                 Cell.mergedBlock := Some blockToMerge |} in
            ret (Some a)
        | _ => throw TypeError                     (* undefined.value *)
        end
  end.

Definition resolveColumnOrRowInDirection (direction : Z) (cells : Cells) : M Cells :=
  let* blocks := pluckBlocks cells in
  let blocksWithValues : list Block.t := omap (fun b => b) blocks in
  if Nat.eqb (length blocksWithValues) 0 then ret cells
  else
    let blockPairs := blockPairs (findBlockPairs direction (map Some blocksWithValues)) in
    let cellCount := Z.of_nat (length blockPairs) in
    mapM (resolveCell direction blockPairs cellCount (Z.of_nat (length cells)))
         (seqZ 0 (Z.of_nat (length cells))).

Fixpoint foldM {A B} (f : B -> A -> M B) (l : list A) (b : B) : M B :=
  match l with
  | [] => ret b
  | a :: l' => let* b' := f b a in foldM f l' b'
  end.

Definition resolveCellsInDirection (direction : Vector.t) (grid : Grid.t) : M Grid.t :=
  let nextGrid := cloneGrid grid in
  if Vector.x direction =? 0 then
    foldM (fun nextGrid x =>
             let column := getColumnAt x nextGrid in
             let* nextColumn := resolveColumnOrRowInDirection (Vector.y direction) column in
             liftR (setColumnAt x nextColumn nextGrid))
          (seqZ 0 (Grid.size nextGrid)) nextGrid
  else if Vector.y direction =? 0 then
    foldM (fun nextGrid y =>
             match getRowAt y nextGrid with
             | None => throw TypeError             (* pluckBlocks(undefined) *)
             | Some row =>
                 let* nextRow := resolveColumnOrRowInDirection (Vector.x direction) row in
                 ret (setRowAt y nextRow nextGrid)
             end)
          (seqZ 0 (Grid.size nextGrid)) nextGrid
  else throw DirectionError.

(** ** Terminal states *)

(** a [for] loop that returns as soon as its body finds what it looks for *)
Fixpoint existsM {A} (f : A -> M bool) (l : list A) : M bool :=
  match l with
  | [] => ret false
  | a :: l' => let* b := f a in if b : bool then ret true else existsM f l'
  end.

Definition hasLost (grid : Grid.t) : M bool :=
  let* emptyCells := findEmptyCellPositions grid in
  if negb (Nat.eqb (length emptyCells) 0) then ret false
  else
    let* columnPair :=
      existsM (fun x =>
                 let column := getColumnAt x grid in
                 let* blocks := pluckBlocks column in
                 ret (hasBlockPairs (findBlockPairs 1 blocks)))
              (seqZ 0 (Grid.size grid)) in
    if columnPair : bool then ret false
    else
      let* rowPair :=
        existsM (fun y =>
                   match getRowAt y grid with
                   | None => throw TypeError       (* pluckBlocks(undefined) *)
                   | Some row =>
                       let* blocks := pluckBlocks row in
                       ret (hasBlockPairs (findBlockPairs 1 blocks))
                   end)
                (seqZ 0 (Grid.size grid)) in
      if rowPair : bool then ret false else ret true.

(** ** [utils.ts] *)

(** [Math.floor(Math.random() * (max - min + 1) + min)] for integer bounds;
    [r] is the number drawn by [Math.random()].  The product and the sum are
    exact here; the code computes them in double precision, where a result
    is rounded and can reach the next integer.  Every call in the code has
    [min = 0] and [max] below 2^32: there the rounded product of a draw
    below 1 stays below [max + 1], so the result lies in [0, max] as it
    does here, though at a draw on a rounding edge it can be the neighbour
    of the integer computed here.  The properties below only use that the
    result is an index in that range. *)
Definition randomIntInclusive (r : Q) (min max : Z) : Z :=
  Qfloor (r * inject_Z (max - min + 1) + inject_Z min)%Q.

Definition arrayRandomItem {A} (r : Q) (arr : list A) : option A :=
  js_get arr (randomIntInclusive r 0 (Z.of_nat (length arr) - 1)).

(** ** The phase machine ([use2048.ts]) *)

Inductive Phase :=
| INIT | INPUT | ACTIVE | TEST_WON | WON | SPAWN | TEST_GAME_OVER | GAME_OVER.

Module State.
Record t := mk { phase : Phase; grid : Grid.t }.
End State.

Inductive Action :=
| SET_PHASE (phase : Phase)
| SET_MOVED_DIRECTION (direction : Vector.t)
| ADD_NEW_BLOCK (position : option Vector.t) (block : Block.t)
| CLEAR_TRANSIENT_STATE (nextPhase : Phase)
| RESTART.

(** what the environment supplies to one spawn: two draws of
    [Math.random()] and one [uuidv4()] *)
Module Random.
Record t := mk { r1 : Q; r2 : Q; uuid : string }.
End Random.

Definition initReducer (rnd : Random.t) (size : Z) : M State.t :=
  let* grid := makeEmptyGrid size in
  let x := randomIntInclusive (Random.r1 rnd) 0 (size - 1) in
  let y := randomIntInclusive (Random.r2 rnd) 0 (size - 1) in
  let* block := makeNewBlock (Random.uuid rnd) 2 in
  let* grid' := setBlockAt (Some {| Vector.x := x; Vector.y := y |}) (Some block) grid in
  ret {| State.phase := INIT; State.grid := grid' |}.

(** the [CellUpdater] of CLEAR_TRANSIENT_STATE *)
Definition clearTransient (cell : option addr) (_ : Vector.t) : M (option addr) :=
  let* c := readCell cell in
  match Cell.mergedBlock c, Cell.block c with
  | None, None => ret cell
  | None, Some b =>
      if Block.isNew b then
        let* r := freshRef in
        let* a := allocCell
          {| Cell.block := Some {| Block.ref := r; Block.id := Block.id b;
                                   Block.value := Block.value b; Block.isNew := false |};
             Cell.mergedBlock := None |} in
        ret (Some a)
      else ret cell
  | Some _, Some b =>
      let* r := freshRef in
      let* a := allocCell
        {| Cell.block := Some {| Block.ref := r; Block.id := Block.id b;
                                 Block.value := Block.value b; Block.isNew := false |};
           Cell.mergedBlock := None |} in
      ret (Some a)
  | Some _, None =>
      (* [{...(null as Block), isNew: false}] is an object without id and
         value, for which [Block.t] has no value; the merge resolver never
         stores a merged block in a cell without a block *)
      throw Unrepresentable
  end.

Definition reducer (rnd : Random.t) (state : State.t) (action : Action) : M State.t :=
  let grid := State.grid state in
  match action with
  | SET_PHASE phase =>
      ret {| State.phase := phase; State.grid := grid |}
  | SET_MOVED_DIRECTION direction =>
      let* grid' := resolveCellsInDirection direction grid in
      ret {| State.phase := ACTIVE; State.grid := grid' |}
  | ADD_NEW_BLOCK position block =>
      let nextGrid := cloneGrid grid in
      let* grid' := setBlockAt position (Some block) nextGrid in
      ret {| State.phase := State.phase state; State.grid := grid' |}
  | CLEAR_TRANSIENT_STATE nextPhase =>
      let nextGrid := cloneGrid grid in
      let* grid' := updateCells nextGrid clearTransient in
      ret {| State.phase := nextPhase; State.grid := grid' |}
  | RESTART => initReducer rnd (Grid.size (State.grid state))
  end.

Definition KEY_DIRECTION_MAP (key : string) : option Vector.t :=
  if String.eqb key "ArrowLeft" then Some {| Vector.x := -1; Vector.y := 0 |}
  else if String.eqb key "ArrowRight" then Some {| Vector.x := 1; Vector.y := 0 |}
  else if String.eqb key "ArrowUp" then Some {| Vector.x := 0; Vector.y := -1 |}
  else if String.eqb key "ArrowDown" then Some {| Vector.x := 0; Vector.y := 1 |}
  else None.

(** [inputHandler]: the action dispatched on a key press during INPUT *)
Definition inputHandler (key : string) : option Action :=
  match KEY_DIRECTION_MAP key with
  | None => None
  | Some direction => Some (SET_MOVED_DIRECTION direction)
  end.

(** The handlers of [usePhaseSystem] that dispatch by themselves when the
    phase is entered: the action dispatched, if any. *)
Definition phaseHandler (rnd : Random.t) (phase : Phase) (grid : Grid.t)
  : M (option Action) :=
  match phase with
  | TEST_WON =>
      let* won := hasWon grid in
      ret (Some (SET_PHASE (if won : bool then WON else SPAWN)))
  | WON => ret (Some RESTART)
  | SPAWN =>
      let* spawned := hasNewCell grid in
      if spawned : bool then ret None
      else
        let* emptyCellPositions := findEmptyCellPositions grid in
        let position := arrayRandomItem (Random.r1 rnd) emptyCellPositions in
        let* block := makeNewBlock (Random.uuid rnd) 2 in
        ret (Some (ADD_NEW_BLOCK position block))
  | TEST_GAME_OVER =>
      let* lost := hasLost grid in
      ret (Some (if lost : bool then SET_PHASE GAME_OVER
                 else CLEAR_TRANSIENT_STATE INPUT))
  | GAME_OVER => ret (Some RESTART)
  | INIT | INPUT | ACTIVE => ret None
  end.

(** [useBoxViewData(grid).length]: one entry per block and one more per
    merged block *)
Definition boxCount (grid : Grid.t) : M Z :=
  let* '(result, _) := iterateCells grid
     (fun cell _ grid (result : Z) =>
        let* c := readCell cell in
        match Cell.block c with
        | None => ret (result, grid, true)
        | Some _ =>
            match Cell.mergedBlock c with
            | None => ret (result + 1, grid, true)
            | Some _ => ret (result + 2, grid, true)
            end
        end)
     0 in
  ret result.

Definition nextPhaseMap (phase : Phase) : option Phase :=
  match phase with
  | INIT => Some INPUT
  | ACTIVE => Some TEST_WON
  | SPAWN => Some TEST_GAME_OVER
  | _ => None
  end.

(** The callback of [useBoxAnimationsCompleteCallback], closed over
    [boxCount] and [phase]; [animationCompleteCount] is the value of the ref
    before the call.  It returns the value of the ref after the call and
    what the call did: nothing ([Ok None]), one dispatch, or a throw. *)
Definition handleBoxAnimationComplete (boxCount : Z) (phase : Phase)
  (animationCompleteCount : Z) : Z * result (option Action) :=
  let totalCompleteCount :=
    match phase with ACTIVE => boxCount | _ => 1 end in
  let animationCompleteCount := animationCompleteCount + 1 in
  if animationCompleteCount =? totalCompleteCount then
    let animationCompleteCount := 0 in
    match nextPhaseMap phase with
    | None => (animationCompleteCount, Throw PhaseError)
    | Some nextPhase =>
        (animationCompleteCount, Ok (Some (CLEAR_TRANSIENT_STATE nextPhase)))
    end
  else (animationCompleteCount, Ok None).

(** ** Notions used to state the properties *)

(** the cell object that [getCellAt] finds at a position, if any *)
Definition cellAt (h : Heap.t) (grid : Grid.t) (position : Vector.t) : option Cell.t :=
  match getCellAt position grid with
  | Ok (Some a) => Heap.cells h !! a
  | _ => None
  end.

Definition slot_ok (h : Heap.t) (slot : option addr) : Prop :=
  exists a c, slot = Some a /\ Heap.cells h !! a = Some c.

(** A well-formed grid: [size] rows of [size] slots, each slot holding a
    cell object. *)
Definition wf (h : Heap.t) (grid : Grid.t) : Prop :=
  Grid.size grid = Z.of_nat (length (Grid.rows grid)) /\
  Forall (fun row : Cells => length row = length (Grid.rows grid) /\ Forall (slot_ok h) row)
         (Grid.rows grid).

Definition inside (grid : Grid.t) (position : Vector.t) : Prop :=
  0 <= Vector.x position < Grid.size grid /\ 0 <= Vector.y position < Grid.size grid.

(** the value shown by a cell, 0 for an empty cell *)
Definition cellValue (c : Cell.t) : Z :=
  match Cell.block c with Some b => Block.value b | None => 0 end.

Definition isEmpty (c : Cell.t) : bool :=
  match Cell.block c with Some _ => false | None => true end.

(** [n] consecutive calls of the completion callback of one render (the
    same [boxCount] and [phase]), from the counter value [count]: the final
    counter and what each call did *)
Fixpoint signals (boxCount : Z) (phase : Phase) (n : nat) (count : Z)
  : Z * list (result (option Action)) :=
  match n with
  | O => (count, [])
  | S n' =>
      let '(count', out) := handleBoxAnimationComplete boxCount phase count in
      let '(count'', outs) := signals boxCount phase n' count' in
      (count'', out :: outs)
  end.

(** the number of completions a round waits for *)
Definition expectedCount (boxCount : Z) (phase : Phase) : Z :=
  match phase with ACTIVE => boxCount | _ => 1 end.

(** whether the cell at a position exists and has no block *)
Definition emptyAt (h : Heap.t) (grid : Grid.t) (position : Vector.t) : bool :=
  match cellAt h grid position with Some c => isEmpty c | None => false end.

(** one step of a read-only iteration: the captured state after the
    iterator has seen the cell at [p] *)
Definition visitCell {S} (f : Cell.t -> Vector.t -> S -> S) (h : Heap.t)
  (grid : Grid.t) (s : S) (p : Vector.t) : S :=
  match cellAt h grid p with Some c => f c p s | None => s end.

(** *** The pairing scan, block by block

    [scan] runs the loop body of [findBlockPairs] along the blocks in the
    order in which the loop meets them: [lastBlock] is the block met one
    step earlier, [rest] the blocks still to come. *)
Fixpoint scan (direction : Z) (lastBlock : option Block.t)
  (rest : list (option Block.t)) (st : list (list Block.t) * list Block.t)
  : list (list Block.t) * list Block.t :=
  match rest with
  | [] => findBlockPairs_visit direction None lastBlock st
  | block :: rest' =>
      scan direction block rest' (findBlockPairs_visit direction block lastBlock st)
  end.

(** the blocks in the order of the scan: from the destination edge *)
Definition scanOrder {A} (direction : Z) (blocks : list A) : list A :=
  if direction =? 1 then reverse blocks else blocks.

(** A group of the edge-first greedy pairing: [first] is met first by the
    scan, so it is the member nearer the destination edge. *)
Inductive Group :=
| Single (a : Block.t)
| Pair (first second : Block.t).

Fixpoint greedy (l : list Block.t) : list Group :=
  match l with
  | [] => []
  | a :: rest =>
      match rest with
      | [] => [Single a]
      | b :: rest' =>
          if Block.value b =? Block.value a then Pair a b :: greedy rest'
          else Single a :: greedy rest
      end
  end.

(** the array that [findBlockPairs] stores for a group *)
Definition render (direction : Z) (g : Group) : list Block.t :=
  match g with
  | Single a => [a]
  | Pair a b => if direction =? 1 then [a; b] else [b; a]
  end.

(** what a group adds to [pairedBlocks] *)
Definition pushed (g : Group) : list Block.t :=
  match g with
  | Single _ => []
  | Pair a b => [b; a]
  end.

Definition isPair (g : Group) : bool :=
  match g with Pair _ _ => true | Single _ => false end.

Definition addGroups (direction : Z) (groups : list Group)
  (st : list (list Block.t) * list Block.t) : list (list Block.t) * list Block.t :=
  (foldl (fun bp g => addToBlockPairs direction (render direction g) bp) (fst st) groups,
   snd st ++ flat_map pushed groups).

(** two neighbours of a line hold blocks of equal value *)
Fixpoint adjacentEqual (l : list (option Block.t)) : bool :=
  match l with
  | [] => false
  | a :: rest =>
      match a, rest with
      | Some a, Some b :: _ =>
          (Block.value b =? Block.value a) || adjacentEqual rest
      | _, _ => adjacentEqual rest
      end
  end.

(** how many of the groups returned by [findBlockPairs] hold [n] blocks *)
Definition groupsOfSize (n : nat) (groups : list (list Block.t)) : nat :=
  length (List.filter (fun g => Nat.eqb (length g) n) groups).

(** two neighbours of a compacted line have equal values *)
Definition hasEqualNeighbours (bs : list Block.t) : Prop :=
  exists j a b, bs !! j = Some a /\ bs !! S j = Some b /\ Block.value a = Block.value b.

(** the block of the cell at a position; [None] when the cell is empty *)
Definition blockAt (h : Heap.t) (grid : Grid.t) (position : Vector.t) : option Block.t :=
  match cellAt h grid position with Some c => Cell.block c | None => None end.

(** the blocks of column [x] from top to bottom, and of row [y] from left to
    right; an empty cell gives [None] *)
Definition columnBlocks (h : Heap.t) (grid : Grid.t) (x : Z) : list (option Block.t) :=
  (fun y => blockAt h grid {| Vector.x := x; Vector.y := y |}) <$> seqZ 0 (Grid.size grid).

Definition rowBlocks (h : Heap.t) (grid : Grid.t) (y : Z) : list (option Block.t) :=
  (fun x => blockAt h grid {| Vector.x := x; Vector.y := y |}) <$> seqZ 0 (Grid.size grid).

(** the block read through a slot *)
Definition blockOfSlot (h : Heap.t) (slot : option addr) : option Block.t :=
  match slot with
  | Some a => match Heap.cells h !! a with Some c => Cell.block c | None => None end
  | None => None
  end.

(** the cell object read through a slot *)
Definition cellOfSlot (h : Heap.t) (slot : option addr) : option Cell.t :=
  match slot with Some a => Heap.cells h !! a | None => None end.

(** [c] is a merged cell: its block is a copy of [kept] whose value is the
    sum of the two values, and its merged block is [absorbed] itself *)
Definition mergedInto (kept absorbed : Block.t) (c : Cell.t) : Prop :=
  exists b,
    Cell.block c = Some b /\
    Block.id b = Block.id kept /\
    Block.value b = Block.value kept + Block.value absorbed /\
    Block.isNew b = Block.isNew kept /\
    Cell.mergedBlock c = Some absorbed.

(** of two neighbours [lo] (lower index) and [hi] (higher index), the one
    nearer the destination edge of a move, and the other one *)
Definition nearer (direction : Z) (lo hi : Block.t) : Block.t :=
  if direction =? 1 then hi else lo.

Definition farther (direction : Z) (lo hi : Block.t) : Block.t :=
  if direction =? 1 then lo else hi.

(** the cell that the resolver builds for a group, or for no group *)
Definition cellOfGroup (g : option Group) (c : Cell.t) : Prop :=
  match g with
  | None => c = makeEmptyCell
  | Some (Single a) => c = {| Cell.block := Some a; Cell.mergedBlock := None |}
  | Some (Pair first second) => mergedInto second first c
  end.

(** [blockPairIndex] in [resolveColumnOrRowInDirection] *)
Definition blockPairIndex (direction cellCount cellsLength index : Z) : Z :=
  if direction =? 1 then cellCount - cellsLength + index else index.

(** whether a cell holds a block marked new *)
Definition hasNew (c : Cell.t) : bool :=
  match Cell.block c with Some b => Block.isNew b | None => false end.

(** *** The game as a transition system

    A configuration is the reducer state, the counter of the completion
    callback and the heap.  A step is a key press during INPUT, a
    completion signal, or the effect that the current phase runs by itself;
    what the environment draws at random is arbitrary. *)
Module Game.
Record t := mk { state : State.t; count : Z; heap : Heap.t }.
End Game.

Inductive step : Game.t -> Game.t -> Prop :=
| step_key g rnd key action st' h' :
    State.phase (Game.state g) = INPUT ->
    inputHandler key = Some action ->
    reducer rnd (Game.state g) action (Game.heap g) = (Ok st', h') ->
    step g {| Game.state := st'; Game.count := Game.count g; Game.heap := h' |}
| step_signal g k count' :
    boxCount (State.grid (Game.state g)) (Game.heap g) = (Ok k, Game.heap g) ->
    handleBoxAnimationComplete k (State.phase (Game.state g)) (Game.count g) =
      (count', Ok None) ->
    step g {| Game.state := Game.state g; Game.count := count'; Game.heap := Game.heap g |}
| step_advance g rnd k count' action st' h' :
    boxCount (State.grid (Game.state g)) (Game.heap g) = (Ok k, Game.heap g) ->
    handleBoxAnimationComplete k (State.phase (Game.state g)) (Game.count g) =
      (count', Ok (Some action)) ->
    reducer rnd (Game.state g) action (Game.heap g) = (Ok st', h') ->
    step g {| Game.state := st'; Game.count := count'; Game.heap := h' |}
| step_effect g rnd action h1 st' h' :
    phaseHandler rnd (State.phase (Game.state g)) (State.grid (Game.state g))
                 (Game.heap g) = (Ok (Some action), h1) ->
    reducer rnd (Game.state g) action h1 = (Ok st', h') ->
    step g {| Game.state := st'; Game.count := Game.count g; Game.heap := h' |}.

(** the effect of the current phase dispatches an action on which the
    reducer throws a TypeError *)
Definition effectFaults (g : Game.t) : Prop :=
  exists rnd action h1,
    phaseHandler rnd (State.phase (Game.state g)) (State.grid (Game.state g))
                 (Game.heap g) = (Ok (Some action), h1) /\
    reducer rnd (Game.state g) action h1 = (Throw TypeError, h1).

(** a full line of distinct block objects in which no two neighbours have
    equal values: a move along it moves and merges nothing *)
Definition quietLine (blocks : list (option Block.t)) : Prop :=
  exists bs, blocks = Some <$> bs /\ NoDup (Block.ref <$> bs) /\
             ~ hasEqualNeighbours bs.

(** the cell at a position exists and carries no merged block *)
Definition cellQuietAt (h : Heap.t) (grid : Grid.t) (p : Vector.t) : Prop :=
  exists c, cellAt h grid p = Some c /\ Cell.mergedBlock c = None.

(** the lines that a move in [direction] resolves: the columns for a
    vertical move, the rows otherwise *)
Definition linesAlong (h : Heap.t) (grid : Grid.t) (direction : Vector.t) (i : Z)
  : list (option Block.t) :=
  if Vector.x direction =? 0 then columnBlocks h grid i else rowBlocks h grid i.

(** a direction of [KEY_DIRECTION_MAP]: one axis zero, the other +1 or -1 *)
Definition validDirection (d : Vector.t) : Prop :=
  (Vector.x d = 0 /\ (Vector.y d = 1 \/ Vector.y d = -1)) \/
  (Vector.y d = 0 /\ (Vector.x d = 1 \/ Vector.x d = -1)).

(** what a cell adds to the entries of [useBoxViewData] *)
Definition boxesOf (c : Cell.t) : Z :=
  match Cell.block c with
  | None => 0
  | Some _ => match Cell.mergedBlock c with None => 1 | Some _ => 2 end
  end.

(** *** Concrete boards used below *)

Definition block_of (r : addr) (name : string) (v : Z) : Block.t :=
  {| Block.ref := r; Block.id := name; Block.value := v; Block.isNew := false |}.

Definition cell_of (b : Block.t) : Cell.t :=
  {| Cell.block := Some b; Cell.mergedBlock := None |}.

(** an empty 2x2 board *)
Definition heap_empty2 : Heap.t :=
  {| Heap.cells := [makeEmptyCell; makeEmptyCell; makeEmptyCell; makeEmptyCell];
     Heap.nextRef := 0%nat |}.

Definition grid_2x2 : Grid.t :=
  {| Grid.size := 2;
     Grid.rows := [[Some 0%nat; Some 1%nat]; [Some 2%nat; Some 3%nat]] |}.

(** a 1x1 board *)
Definition grid_1x1 : Grid.t :=
  {| Grid.size := 1; Grid.rows := [[Some 0%nat]] |}.

Definition heap_one (c : Cell.t) : Heap.t :=
  {| Heap.cells := [c]; Heap.nextRef := 1%nat |}.

(** 1x1 boards holding one block *)
Definition heap_2048 : Heap.t := heap_one (cell_of (block_of 0%nat "a" 2048)).
Definition heap_4096 : Heap.t := heap_one (cell_of (block_of 0%nat "a" 4096)).

(** lines of equal blocks: four distinct block objects of value 2 *)
Definition two_a : Block.t := block_of 0%nat "a" 2.
Definition two_b : Block.t := block_of 1%nat "b" 2.
Definition two_c : Block.t := block_of 2%nat "c" 2.
Definition two_d : Block.t := block_of 3%nat "d" 2.

(** a line that starts with a 4 and goes on with a run of three 2s *)
Definition line_4222 : list Block.t := [block_of 7%nat "x" 4; two_a; two_b; two_c].

(** the full 2x2 board [[2, 4], [2, 8]]: the two 2s are neighbours in
    column 0, no row holds two equal neighbours *)
Definition heap_full2 : Heap.t :=
  {| Heap.cells := [cell_of (block_of 0%nat "a" 2); cell_of (block_of 1%nat "b" 4);
                    cell_of (block_of 2%nat "c" 2); cell_of (block_of 3%nat "d" 8)];
     Heap.nextRef := 4%nat |}.

(** a line of two cells holding the blocks "a" and "b", both of value 2 *)
Definition heap_pair : Heap.t :=
  {| Heap.cells := [cell_of two_a; cell_of two_b]; Heap.nextRef := 4%nat |}.

Definition line_pair : Cells := [Some 0%nat; Some 1%nat].

(** the cell that the resolver builds from that line *)
Definition merged_ab : Cell.t :=
  {| Cell.block := Some {| Block.ref := 4%nat; Block.id := "b";
                           Block.value := 4; Block.isNew := false |};
     Cell.mergedBlock := Some two_a |}.

(** the game on the full board [[2, 4], [2, 8]], right after the spawn that
    filled it *)
Definition game_full2 : Game.t :=
  {| Game.state := {| State.phase := TEST_GAME_OVER; State.grid := grid_2x2 |};
     Game.count := 0;
     Game.heap := heap_full2 |}.

(** the same board after a move to the left, which moves and merges
    nothing: four new cell objects holding the same four blocks *)
Definition heap_moved : Heap.t :=
  {| Heap.cells := Heap.cells heap_full2 ++ Heap.cells heap_full2;
     Heap.nextRef := 4%nat |}.

Definition grid_moved : Grid.t :=
  {| Grid.size := 2;
     Grid.rows := [[Some 4%nat; Some 5%nat]; [Some 6%nat; Some 7%nat]] |}.

Definition game_in (phase : Phase) (grid : Grid.t) (count : Z) (heap : Heap.t) : Game.t :=
  {| Game.state := {| State.phase := phase; State.grid := grid |};
     Game.count := count;
     Game.heap := heap |}.

Definition random0 : Random.t :=
  {| Random.r1 := 0; Random.r2 := 0; Random.uuid := "n" |}.

Definition origin : Vector.t := {| Vector.x := 0; Vector.y := 0 |}.

(** the iterator of a caller that records what it is shown, in order *)
Definition recordVisit : CellIterator (list (option addr * Vector.t)) :=
  fun cell position grid seen => ret (seen ++ [(cell, position)], grid, true).

(** ** [utils.ts]: the UV builder

    The numbers of [mapNumber] and [buildUVinRange] are floating-point
    values; their type and arithmetic are left open ([F] with [ofZ] for a
    loop index or a segment count used as a number), the segment counts and
    the loop indices are integers. *)

Section Numbers.
Variable F : Type.
Variable ofZ : Z -> F.
Variables fadd fsub fmul fdiv : F -> F -> F.

(** [(dMax - dMin) * (x / (sMax - sMin)) + dMin] *)
Definition mapNumber (x sMin sMax dMin dMax : F) : F :=
  fadd (fmul (fsub dMax dMin) (fdiv x (fsub sMax sMin))) dMin.

(** the two loops of [buildPlane], pushing onto [uvs] *)
Definition buildPlane (uMin uMax vMin vMax : F) (gridX gridY : Z) (uvs : list F)
  : list F :=
  let gridX1 := gridX + 1 in
  let gridY1 := gridY + 1 in
  foldl (fun uvs iy =>
           foldl (fun uvs ix =>
                    uvs ++ [mapNumber (fdiv (ofZ ix) (ofZ gridX)) (ofZ 0) (ofZ 1) uMin uMax]
                        ++ [mapNumber (fsub (ofZ 1) (fdiv (ofZ iy) (ofZ gridY)))
                                      (ofZ 0) (ofZ 1) vMin vMax])
                 uvs (seqZ 0 gridX1))
        uvs (seqZ 0 gridY1).

Definition buildUVinRange (uMin uMax vMin vMax : F)
  (widthSegments depthSegments heightSegments : Z) : list F :=
  let uvs := [] in
  let uvs := buildPlane uMin uMax vMin vMax depthSegments heightSegments uvs in (* px *)
  let uvs := buildPlane uMin uMax vMin vMax depthSegments heightSegments uvs in (* nx *)
  let uvs := buildPlane uMin uMax vMin vMax widthSegments depthSegments uvs in  (* py *)
  let uvs := buildPlane uMin uMax vMin vMax widthSegments depthSegments uvs in  (* ny *)
  let uvs := buildPlane uMin uMax vMin vMax widthSegments heightSegments uvs in (* pz *)
  let uvs := buildPlane uMin uMax vMin vMax widthSegments heightSegments uvs in (* nz *)
  uvs.
End Numbers.

(** ** Notions used to state the further properties *)

(** *** The heap *)

(** the heap after the new cell objects [cs] *)
Definition heapWith (h : Heap.t) (cs : list Cell.t) : Heap.t :=
  {| Heap.cells := Heap.cells h ++ cs; Heap.nextRef := Heap.nextRef h |}.

(** [h'] holds every cell object of [h], unchanged, and possibly new ones *)
Definition extends (h h' : Heap.t) : Prop :=
  exists cs, Heap.cells h' = Heap.cells h ++ cs.

(** a computation that changes no cell object that exists *)
Definition grows {A} (m : M A) : Prop := forall h, extends h (snd (m h)).

(** *** Grids *)

(** the rows of a grid of [n] x [n] cell objects allocated one after the
    other from address [base], row by row *)
Definition freshRows (base n : nat) : list (list (option nat)) :=
  (fun i => Some <$> seq (base + i * n) n) <$> seq 0 n.

(** no cell object sits at two places of the grid *)
Definition distinctCells (grid : Grid.t) : Prop := NoDup (concat (Grid.rows grid)).

(** whether the cell at a position holds a block marked new *)
Definition newAt (h : Heap.t) (grid : Grid.t) (p : Vector.t) : bool :=
  match cellAt h grid p with Some c => hasNew c | None => false end.

(** the block made by [makeNewBlock] on heap [h] *)
Definition newBlock (h : Heap.t) (uuid : string) (value : Z) : Block.t :=
  {| Block.ref := Heap.nextRef h; Block.id := uuid; Block.value := value;
     Block.isNew := true |}.

(** the position drawn by [initReducer] *)
Definition firstPosition (rnd : Random.t) (size : Z) : Vector.t :=
  {| Vector.x := randomIntInclusive (Random.r1 rnd) 0 (size - 1);
     Vector.y := randomIntInclusive (Random.r2 rnd) 0 (size - 1) |}.

(** the names that every JavaScript object inherits: the lookup
    [KEY_DIRECTION_MAP[e.key]] finds an inherited property for them, not
    [undefined]; no key of a keyboard has such a name *)
Definition inheritedKeys : list string :=
  ["constructor"; "hasOwnProperty"; "isPrototypeOf"; "propertyIsEnumerable";
   "toLocaleString"; "toString"; "valueOf"; "__proto__";
   "__defineGetter__"; "__defineSetter__"; "__lookupGetter__"; "__lookupSetter__"].

(** *** Lines *)

(** two neighbours of a line both hold a block, of equal values *)
Definition equalNeighbours (l : list (option Block.t)) : Prop :=
  exists j a b, l !! j = Some (Some a) /\ l !! S j = Some (Some b) /\
                Block.value a = Block.value b.

(** the groups of the blocks of a line for a move of sign [direction], in
    the order of the line (index 0 first) *)
Definition resolvedGroups (direction : Z) (bs : list Block.t) : list Group :=
  scanOrder direction (greedy (scanOrder direction bs)).

(** the groups laid out on a line of [n] cells: packed against the
    destination edge, the other cells without a group *)
Definition layout (direction : Z) (n : nat) (gs : list Group) : list (option Group) :=
  if direction =? 1 then replicate (n - length gs) None ++ (Some <$> gs)
  else (Some <$> gs) ++ replicate (n - length gs) None.

(** the cell objects of a line of slots *)
Definition lineCells (h : Heap.t) (cells : Cells) : list Cell.t :=
  omap (cellOfSlot h) cells.

Definition sumZ (l : list Z) : Z := foldr Z.add 0 l.

(** what a group shows on the board: the value of its cell, the number of
    its boxes, and whether its cell holds a block *)
Definition groupValue (g : option Group) : Z :=
  match g with
  | None => 0
  | Some (Single a) => Block.value a
  | Some (Pair first second) => Block.value second + Block.value first
  end.

Definition groupBoxes (g : option Group) : Z :=
  match g with None => 0 | Some (Single _) => 1 | Some (Pair _ _) => 2 end.

(** 1 for a cell with a group, which holds a block *)
Definition groupCount (g : option Group) : Z :=
  match g with None => 0 | Some _ => 1 end.

(** the ids of the boxes of a cell, the box nearer index 0 first: of a
    merged cell, the absorbed block lies on the side of the destination
    edge *)
Definition boxIdsAlong (direction : Z) (c : Cell.t) : list string :=
  match Cell.block c with
  | None => []
  | Some b =>
      match Cell.mergedBlock c with
      | None => [Block.id b]
      | Some m => if direction =? 1 then [Block.id b; Block.id m]
                  else [Block.id m; Block.id b]
      end
  end.

(** *** The lines of a grid *)

(** the cells of column [x] from top to bottom, and of row [y] from left to
    right *)
Definition columnCells (h : Heap.t) (grid : Grid.t) (x : Z) : list (option Cell.t) :=
  (fun y => cellAt h grid {| Vector.x := x; Vector.y := y |}) <$> seqZ 0 (Grid.size grid).

Definition rowCells (h : Heap.t) (grid : Grid.t) (y : Z) : list (option Cell.t) :=
  (fun x => cellAt h grid {| Vector.x := x; Vector.y := y |}) <$> seqZ 0 (Grid.size grid).

(** the cells of the [i]-th line that a move in [direction] resolves *)
Definition lineCellsAlong (h : Heap.t) (grid : Grid.t) (direction : Vector.t) (i : Z)
  : list (option Cell.t) :=
  if Vector.x direction =? 0 then columnCells h grid i else rowCells h grid i.

(** the sign that [resolveCellsInDirection] passes to the line resolver *)
Definition moveSign (direction : Vector.t) : Z :=
  if Vector.x direction =? 0 then Vector.y direction else Vector.x direction.

(** the blocks of a line of cells, gaps closed *)
Definition blocksOf (cells : list (option Cell.t)) : list Block.t :=
  omap (fun oc : option Cell.t => oc ≫= Cell.block) cells.

(** [new] is the line [old] after a move of sign [sign]: a line without
    blocks is left as it is; otherwise the cells are new ones that hold the
    groups of the blocks of [old], packed against the destination edge *)
Definition lineResolved (sign : Z) (old new : list (option Cell.t)) : Prop :=
  if decide (blocksOf old = []) then new = old
  else Forall2 (fun g oc => exists c, oc = Some c /\ cellOfGroup g c)
         (layout sign (length old) (resolvedGroups sign (blocksOf old))) new.

(** *** Sums over the board *)

(** the sum over the board of a measure of its cells *)
Definition boardSum (m : option Cell.t -> Z) (h : Heap.t) (grid : Grid.t) : Z :=
  sumZ ((fun p => m (cellAt h grid p)) <$> cellPositions (Grid.size grid)).

(** the value of a cell, its number of boxes, and 1 when it holds a block *)
Definition valueOf (oc : option Cell.t) : Z :=
  match oc with Some c => cellValue c | None => 0 end.

Definition boxesAt (oc : option Cell.t) : Z :=
  match oc with Some c => boxesOf c | None => 0 end.

Definition blocksAt (oc : option Cell.t) : Z :=
  match oc ≫= Cell.block with Some _ => 1 | None => 0 end.

(** *** Transient state *)

(** [c'] is [c] after CLEAR_TRANSIENT_STATE: the same block, no longer
    new, and no merged block *)
Definition cleared (c c' : Cell.t) : Prop :=
  Cell.mergedBlock c' = None /\
  match Cell.block c with
  | None => Cell.block c' = None
  | Some b =>
      exists b', Cell.block c' = Some b' /\ Block.id b' = Block.id b /\
                 Block.value b' = Block.value b /\ Block.isNew b' = false
  end.

(** a cell with a merged block holds a block *)
Definition mergedHasBlock (c : Cell.t) : Prop :=
  Cell.mergedBlock c <> None -> Cell.block c <> None.

(** *** More concrete boards *)

Definition heap_none : Heap.t := {| Heap.cells := []; Heap.nextRef := 0%nat |}.

(** the full 2x2 board [[2, 4], [4, 2]]: no two neighbours are equal *)
Definition heap_lost2 : Heap.t :=
  {| Heap.cells := [cell_of (block_of 0%nat "a" 2); cell_of (block_of 1%nat "b" 4);
                    cell_of (block_of 2%nat "c" 4); cell_of (block_of 3%nat "d" 2)];
     Heap.nextRef := 4%nat |}.

Definition up : Vector.t := {| Vector.x := 0; Vector.y := -1 |}.

Definition state_full2 : State.t := {| State.phase := ACTIVE; State.grid := grid_2x2 |}.

(** * Properties *)

(** closes [wf] on a concrete heap and grid *)
Ltac wf_closed :=
  split; [reflexivity | repeat constructor];
  eexists _, _; split; reflexivity.

(** ** Arrays *)

Lemma js_get_lookup {A} (arr : list A) (i : nat) :
  js_get arr (Z.of_nat i) = arr !! i.
Proof.
  unfold js_get. destruct (Z.ltb_spec (Z.of_nat i) 0); [lia|].
  by rewrite Nat2Z.id.
Qed.

Lemma js_get_Some {A} (arr : list A) (i : Z) (a : A) :
  js_get arr i = Some a <-> 0 <= i /\ arr !! Z.to_nat i = Some a.
Proof.
  unfold js_get. destruct (Z.ltb_spec i 0); split.
  - done.
  - intros [? _]. lia.
  - intros H'. split; [lia|done].
  - by intros [_ H'].
Qed.

Lemma js_get_outside {A} (arr : list A) (i : Z) :
  i < 0 \/ Z.of_nat (length arr) <= i -> js_get arr i = None.
Proof.
  unfold js_get. intros H. destruct (Z.ltb_spec i 0); [done|].
  apply lookup_ge_None. lia.
Qed.

Lemma js_get_inside {A} (arr : list A) (i : Z) :
  0 <= i < Z.of_nat (length arr) -> exists a, js_get arr i = Some a.
Proof.
  intros H. unfold js_get. destruct (Z.ltb_spec i 0); [lia|].
  destruct (lookup_lt_is_Some_2 arr (Z.to_nat i)) as [a Ha]; [lia|]. eauto.
Qed.

Lemma elem_of_cellPositions (n : Z) (p : Vector.t) :
  p ∈ cellPositions n <->
  0 <= Vector.x p < n /\ 0 <= Vector.y p < n.
Proof.
  unfold cellPositions. rewrite list_elem_of_In, in_flat_map. split.
  - intros (x & Hx & Hp). apply in_map_iff in Hp as (y & <- & Hy).
    apply list_elem_of_In, elem_of_seqZ in Hx.
    apply list_elem_of_In, elem_of_seqZ in Hy. simpl. lia.
  - intros [Hx Hy]. exists (Vector.x p). split.
    + apply list_elem_of_In, elem_of_seqZ. lia.
    + apply in_map_iff. exists (Vector.y p). split; [by destruct p|].
      apply list_elem_of_In, elem_of_seqZ. lia.
Qed.

(** ** Well-formed grids *)

Lemma wf_getCellAt h g p :
  wf h g -> inside g p ->
  exists a c, getCellAt p g = Ok (Some a) /\ Heap.cells h !! a = Some c.
Proof.
  intros [Hsize Hrows] [Hx Hy]. unfold getCellAt.
  destruct (js_get_inside (Grid.rows g) (Vector.y p)) as [row Hrow]; [lia|].
  rewrite Hrow. apply js_get_Some in Hrow as [_ Hrow].
  rewrite Forall_forall in Hrows.
  destruct (Hrows row) as [Hlen Hslots].
  { eapply list_elem_of_lookup_2, Hrow. }
  destruct (js_get_inside row (Vector.x p)) as [slot Hslot]; [lia|].
  rewrite Hslot. apply js_get_Some in Hslot as [_ Hslot].
  rewrite Forall_forall in Hslots.
  destruct (Hslots slot) as (a & c & -> & Hc).
  { eapply list_elem_of_lookup_2, Hslot. }
  simpl. eauto.
Qed.

Lemma wf_cellAt h g p :
  wf h g -> inside g p -> exists c, cellAt h g p = Some c.
Proof.
  intros Hwf Hp. destruct (wf_getCellAt h g p Hwf Hp) as (a & c & Ha & Hc).
  exists c. unfold cellAt. by rewrite Ha.
Qed.

Lemma cellAt_Some h g p c :
  cellAt h g p = Some c ->
  exists a, getCellAt p g = Ok (Some a) /\ Heap.cells h !! a = Some c.
Proof.
  unfold cellAt. destruct (getCellAt p g) as [[a|]|]; try done. eauto.
Qed.

Lemma wf_positions h g p :
  wf h g -> p ∈ cellPositions (Grid.size g) -> exists c, cellAt h g p = Some c.
Proof.
  intros Hwf Hp. apply wf_cellAt; [done|]. by apply elem_of_cellPositions.
Qed.

(** ** Iteration over the cells *)

Section Iterate.
Context {S : Type}.
Variable f : Cell.t -> Vector.t -> S -> S.
Variable iterator : CellIterator S.
Variables (g : Grid.t) (h : Heap.t).

(** the iterator reads the cell, updates its captured state by [f], leaves
    grid and heap alone and never returns false *)
Hypothesis iterator_reads :
  forall cell p s c,
    readCell cell h = (Ok c, h) ->
    iterator cell p g s h = (Ok (f c p s, g, true), h).

Lemma iterateCells_over_fold ps s0 :
  (forall p, p ∈ ps -> exists c, cellAt h g p = Some c) ->
  iterateCells_over ps iterator g s0 h =
    (Ok (foldl (visitCell f h g) s0 ps, g), h).
Proof.
  revert s0. induction ps as [|p ps IH]; intros s0 Hps; [done|].
  destruct (Hps p) as [c Hc]; [left|].
  pose proof Hc as Hc'. apply cellAt_Some in Hc' as (a & Ha & Hca).
  cbn [iterateCells_over foldl]. unfold bind at 1. unfold liftR. rewrite Ha.
  unfold bind at 1. rewrite (iterator_reads (Some a) p s0 c).
  - rewrite IH.
    + replace (visitCell f h g s0 p) with (f c p s0); [done|].
      unfold visitCell. by rewrite Hc.
    + intros q Hq. apply Hps. by right.
  - unfold readCell. by rewrite Hca.
Qed.

Lemma iterateCells_fold s0 :
  wf h g ->
  iterateCells g iterator s0 h =
    (Ok (foldl (visitCell f h g) s0 (cellPositions (Grid.size g)), g), h).
Proof.
  intros Hwf. apply iterateCells_over_fold. intros p Hp.
  by apply (wf_positions h g p).
Qed.
End Iterate.

Lemma foldl_agree {A B} (f1 f2 : B -> A -> B) (l : list A) (b : B) :
  (forall s a, f1 s a = f2 s a) -> foldl f1 b l = foldl f2 b l.
Proof.
  intros Hf. revert b. induction l as [|a l IH]; intros b; [done|].
  simpl. by rewrite Hf, IH.
Qed.

Lemma foldl_push_filter {A} (P : A -> bool) (l acc : list A) :
  foldl (fun s p => if P p then s ++ [p] else s) acc l = acc ++ List.filter P l.
Proof.
  revert acc. induction l as [|a l IH]; intros acc; simpl.
  - by rewrite app_nil_r.
  - rewrite IH. destruct (P a); [|done]. by rewrite <- app_assoc.
Qed.

(** [findEmptyCellPositions] lists the empty cells in the order of
    [cellPositions] *)
Lemma findEmptyCellPositions_spec h g :
  wf h g ->
  findEmptyCellPositions g h =
    (Ok (List.filter (emptyAt h g) (cellPositions (Grid.size g))), h).
Proof.
  intros Hwf. unfold findEmptyCellPositions. unfold bind at 1.
  rewrite (iterateCells_fold
             (fun c p (s : list Vector.t) => if isEmpty c then s ++ [p] else s));
    [|  |done].
  - unfold ret. f_equal. f_equal.
    rewrite <- (app_nil_l (List.filter _ _)), <- foldl_push_filter.
    apply foldl_agree. intros s p. unfold visitCell, emptyAt.
    by destruct (cellAt h g p).
  - intros cell p s c Hc. unfold bind. rewrite Hc. unfold isEmpty.
    by destruct (Cell.block c).
Qed.

Lemma flat_map_lookup_uniform {A B} (f : A -> list B) (m : nat) (l : list A) :
  (forall a, length (f a) = m) ->
  forall i j a, l !! i = Some a -> (j < m)%nat ->
                flat_map f l !! (i * m + j)%nat = f a !! j.
Proof.
  intros Hlen. induction l as [|a0 l IH]; intros i j a Hi Hj; [done|].
  cbn [flat_map]. destruct i as [|i].
  - injection Hi as ->. rewrite lookup_app_l; [done|]. rewrite Hlen. lia.
  - rewrite lookup_app_r by (rewrite Hlen; lia). rewrite Hlen.
    replace (S i * m + j - m)%nat with (i * m + j)%nat by lia.
    by apply IH.
Qed.

(** in the enumeration of an n x n board, the position (x, y) has rank
    x * n + y: the positions are ordered by x first, then by y *)
Lemma cellPositions_rank (n x y : Z) :
  0 <= x < n -> 0 <= y < n ->
  cellPositions n !! Z.to_nat (x * n + y) = Some {| Vector.x := x; Vector.y := y |}.
Proof.
  intros Hx Hy. unfold cellPositions.
  replace (Z.to_nat (x * n + y)) with (Z.to_nat x * Z.to_nat n + Z.to_nat y)%nat by nia.
  rewrite (flat_map_lookup_uniform _ (Z.to_nat n) (seqZ 0 n)
             (fun a => eq_trans (length_map _ _) (length_seqZ 0 n))
             (Z.to_nat x) (Z.to_nat y) x).
  - change (map ?f ?l) with (f <$> l).
    rewrite list_lookup_fmap, lookup_seqZ_lt by lia. cbn. do 2 f_equal. lia.
  - rewrite lookup_seqZ_lt by lia. f_equal. lia.
  - lia.
Qed.

(** C9 (the order the code really follows).  On a 2x2 board [iterateCells]
    shows its iterator the cells of column 0 from top to bottom and then
    those of column 1: position (x=0, y=1) comes before (x=1, y=0), so the
    enumeration is ordered by column index first, not by row index, and
    [findEmptyCellPositions] lists the empty cells in that same order. *)
Theorem iterateCells_visits_column_by_column :
  iterateCells grid_2x2 recordVisit [] heap_empty2 =
    (Ok ([(Some 0%nat, {| Vector.x := 0; Vector.y := 0 |});
          (Some 2%nat, {| Vector.x := 0; Vector.y := 1 |});
          (Some 1%nat, {| Vector.x := 1; Vector.y := 0 |});
          (Some 3%nat, {| Vector.x := 1; Vector.y := 1 |})], grid_2x2),
     heap_empty2) /\
  findEmptyCellPositions grid_2x2 heap_empty2 =
    (Ok [{| Vector.x := 0; Vector.y := 0 |};
         {| Vector.x := 0; Vector.y := 1 |};
         {| Vector.x := 1; Vector.y := 0 |};
         {| Vector.x := 1; Vector.y := 1 |}],
     heap_empty2).
Proof. split; reflexivity. Qed.

(** ** [hasWon] *)

Lemma foldl_max_cells h g (l : list Vector.t) (m0 : Z) :
  let m := foldl (visitCell (fun c _ m => Z.max m (cellValue c)) h g) m0 l in
  m0 <= m /\
  (forall p c, p ∈ l -> cellAt h g p = Some c -> cellValue c <= m) /\
  (m = m0 \/ exists p c, p ∈ l /\ cellAt h g p = Some c /\ m = cellValue c).
Proof.
  revert m0. induction l as [|q l IH]; intros m0; simpl.
  - split; [lia|]. split; [|by left]. intros p c Hp. by apply elem_of_nil in Hp.
  - remember (visitCell (fun c _ m => Z.max m (cellValue c)) h g m0 q) as m1 eqn:Hm1.
    specialize (IH m1). simpl in IH. destruct IH as (Hle & Hall & Hex).
    set (m := foldl _ _ l) in *. unfold visitCell in Hm1.
    destruct (cellAt h g q) as [cq|] eqn:Hq; subst m1.
    + split; [lia|]. split.
      * intros p c Hp Hc. apply elem_of_cons in Hp as [->|Hp].
        -- rewrite Hq in Hc. injection Hc as <-. lia.
        -- by apply (Hall p).
      * destruct Hex as [Hm|(p & c & Hp & Hc & Hm)].
        -- destruct (Z.max_spec m0 (cellValue cq)) as [[_ Hmax]|[_ Hmax]].
           ++ right. exists q, cq. split; [left|]. split; [done|]. lia.
           ++ left. lia.
        -- right. exists p, c. split; [by right|done].
    + split; [lia|]. split.
      * intros p c Hp Hc. apply elem_of_cons in Hp as [->|Hp].
        -- by rewrite Hq in Hc.
        -- by apply (Hall p).
      * destruct Hex as [Hm|(p & c & Hp & Hc & Hm)]; [by left|].
        right. exists p, c. split; [by right|done].
Qed.

Lemma hasWon_spec h g :
  wf h g ->
  hasWon g h =
    (Ok (foldl (visitCell (fun c _ m => Z.max m (cellValue c)) h g) 0
               (cellPositions (Grid.size g)) =? 2048), h).
Proof.
  intros Hwf. unfold hasWon. unfold bind at 1.
  rewrite (iterateCells_fold (fun c _ m => Z.max m (cellValue c))); [done| |done].
  intros cell p s c Hc. unfold bind. by rewrite Hc.
Qed.

(** C7 (as the code has it).  On a well-formed grid [hasWon] returns, and it
    returns true exactly when the largest block value on the board is 2048:
    some cell's block has value 2048 and no cell's block has a larger value. *)
Theorem hasWon_iff_max_is_2048 h g :
  wf h g ->
  exists b,
    hasWon g h = (Ok b, h) /\
    (b = true <->
     (exists p c bl, inside g p /\ cellAt h g p = Some c /\
                     Cell.block c = Some bl /\ Block.value bl = 2048) /\
     (forall p c bl, inside g p -> cellAt h g p = Some c ->
                     Cell.block c = Some bl -> Block.value bl <= 2048)).
Proof.
  intros Hwf. eexists. split; [by apply hasWon_spec|].
  destruct (foldl_max_cells h g (cellPositions (Grid.size g)) 0) as (H0 & Hall & Hex).
  set (m := foldl _ _ _) in *. split.
  - intros Hm. apply Z.eqb_eq in Hm. split.
    + destruct Hex as [Hex|(p & c & Hp & Hc & Hv)]; [lia|].
      unfold cellValue in Hv. destruct (Cell.block c) as [bl|] eqn:Hb; [|lia].
      exists p, c, bl. split; [by apply elem_of_cellPositions|].
      split; [done|]. split; [done|lia].
    + intros p c bl Hp Hc Hb.
      assert (cellValue c <= m) as Hle.
      { apply (Hall p); [by apply elem_of_cellPositions|done]. }
      unfold cellValue in Hle. rewrite Hb in Hle. lia.
  - intros [(p & c & bl & Hp & Hc & Hb & Hv) Hmax]. apply Z.eqb_eq.
    assert (2048 <= m) as Hge.
    { rewrite <- Hv. replace (Block.value bl) with (cellValue c).
      - apply (Hall p); [by apply elem_of_cellPositions|done].
      - unfold cellValue. by rewrite Hb. }
    destruct Hex as [Hex|(q & cq & Hq & Hcq & Hvq)]; [lia|].
    unfold cellValue in Hvq. destruct (Cell.block cq) as [bq|] eqn:Hbq; [|lia].
    assert (Block.value bq <= 2048); [|lia].
    apply (Hmax q cq bq); [by apply elem_of_cellPositions|done|done].
Qed.

Lemma hasWon_iff_max_is_2048_witness :
  exists b,
    hasWon grid_1x1 heap_2048 =
      (Ok b, heap_2048) /\
    (b = true <->
     (exists p c bl, inside grid_1x1 p /\
        cellAt heap_2048 grid_1x1 p = Some c /\
        Cell.block c = Some bl /\ Block.value bl = 2048) /\
     (forall p c bl, inside grid_1x1 p ->
        cellAt heap_2048 grid_1x1 p = Some c ->
        Cell.block c = Some bl -> Block.value bl <= 2048)).
Proof. apply hasWon_iff_max_is_2048. wf_closed. Defined.

(** C7 as stated fails: a board whose only block is worth 4096 has a block
    of value at least 2048, and [hasWon] returns false. *)
Lemma hasWon_not_at_least_2048 :
  hasWon grid_1x1 heap_4096 =
    (Ok false, heap_4096) /\
  cellAt heap_4096 grid_1x1 origin =
    Some (cell_of (block_of 0%nat "a" 4096)) /\
  Block.value (block_of 0%nat "a" 4096) >= 2048.
Proof. split; [reflexivity|]. split; [reflexivity|]. simpl. lia. Qed.

(** ** The accessors of the grid store *)

Lemma js_get_set_beyond {A} (arr : list (option A)) (i : Z) (v : option A) :
  Z.of_nat (length arr) <= i ->
  exists arr', js_set arr i v = Ok arr' /\ js_get arr' i = Some v.
Proof.
  intros Hi. unfold js_set, js_get.
  destruct (Z.ltb_spec i 0); [lia|].
  destruct (Z.ltb_spec i (Z.of_nat (length arr))); [lia|].
  eexists. split; [done|].
  rewrite lookup_app_r by lia. rewrite lookup_app_r; rewrite length_replicate; [|lia].
  replace (Z.to_nat i - length arr - (Z.to_nat i - length arr))%nat with 0%nat by lia.
  done.
Qed.

Lemma wf_row h g (y : Z) :
  wf h g -> 0 <= y < Grid.size g ->
  exists row, js_get (Grid.rows g) y = Some row /\
              Z.of_nat (length row) = Grid.size g /\ Forall (slot_ok h) row.
Proof.
  intros [Hsize Hrows] Hy.
  destruct (js_get_inside (Grid.rows g) y) as [row Hrow]; [lia|].
  exists row. split; [done|]. apply js_get_Some in Hrow as [_ Hrow].
  rewrite Forall_forall in Hrows. destruct (Hrows row) as [Hlen Hslots].
  { eapply list_elem_of_lookup_2, Hrow. }
  split; [lia|done].
Qed.

(** C6 (as the code has it).  The accessors never compare the position with
    [size].  On a well-formed grid (size rows of size cells, arrays without
    other properties) and for a position outside the board: if y is outside,
    the row read is [undefined] and all three accessors throw a TypeError;
    if y is inside (so x is outside), [getCellAt] returns [undefined]
    without a fault and [setBlockAt] throws a TypeError, and for x past the
    end of the row [setCellAt] stores the cell without a fault: the row is
    extended and the cell is read back at that position.  (For x < 0
    [setCellAt] does not fault either, but stores the cell as a property of
    the row array, outside its elements; nothing is stated of that write.) *)
Theorem accessors_not_bounds_checked h g p cell block :
  wf h g -> ~ inside g p ->
  ((Vector.y p < 0 \/ Grid.size g <= Vector.y p) ->
     getCellAt p g = Throw TypeError /\
     setCellAt p cell g = Throw TypeError /\
     setBlockAt (Some p) block g h = (Throw TypeError, h)) /\
  (0 <= Vector.y p < Grid.size g ->
     getCellAt p g = Ok None /\
     setBlockAt (Some p) block g h = (Throw TypeError, h) /\
     (Grid.size g <= Vector.x p ->
        exists g', setCellAt p cell g = Ok g' /\
                   Grid.size g' = Grid.size g /\
                   getCellAt p g' = Ok cell)).
Proof.
  intros Hwf Hout. split.
  - intros Hy. destruct Hwf as [Hsize _].
    assert (js_get (Grid.rows g) (Vector.y p) = None) as Hrow.
    { apply js_get_outside. lia. }
    unfold setBlockAt, setCellAt, getCellAt. by rewrite Hrow.
  - intros Hy. destruct (wf_row h g (Vector.y p) Hwf Hy) as (row & Hrow & Hlen & _).
    assert (js_get row (Vector.x p) = None) as Hx.
    { apply js_get_outside. unfold inside in Hout. lia. }
    assert (getCellAt p g = Ok None) as Hget.
    { unfold getCellAt. by rewrite Hrow, Hx. }
    split; [done|]. split.
    + unfold setBlockAt. by rewrite Hget.
    + intros Hxs.
      destruct (js_get_set_beyond row (Vector.x p) cell) as (row' & Hset & Hrow'); [lia|].
      unfold setCellAt. rewrite Hrow, Hset. eexists. split; [done|]. split; [done|].
      unfold getCellAt. cbn [Grid.rows].
      apply js_get_Some in Hrow as [Hy0 Hrow].
      unfold js_get at 1. destruct (Z.ltb_spec (Vector.y p) 0); [lia|].
      rewrite list_lookup_insert_eq by (by eapply lookup_lt_Some).
      by rewrite Hrow'.
Qed.

Lemma accessors_not_bounds_checked_witness :
  ((Vector.y {| Vector.x := 1; Vector.y := 0 |} < 0 \/
    Grid.size grid_1x1 <= Vector.y {| Vector.x := 1; Vector.y := 0 |}) ->
     getCellAt {| Vector.x := 1; Vector.y := 0 |} grid_1x1 = Throw TypeError /\
     setCellAt {| Vector.x := 1; Vector.y := 0 |} (Some 0%nat) grid_1x1 = Throw TypeError /\
     setBlockAt (Some {| Vector.x := 1; Vector.y := 0 |}) None grid_1x1 heap_2048 =
       (Throw TypeError, heap_2048)) /\
  (0 <= Vector.y {| Vector.x := 1; Vector.y := 0 |} < Grid.size grid_1x1 ->
     getCellAt {| Vector.x := 1; Vector.y := 0 |} grid_1x1 = Ok None /\
     setBlockAt (Some {| Vector.x := 1; Vector.y := 0 |}) None grid_1x1 heap_2048 =
       (Throw TypeError, heap_2048) /\
     (Grid.size grid_1x1 <= Vector.x {| Vector.x := 1; Vector.y := 0 |} ->
        exists g', setCellAt {| Vector.x := 1; Vector.y := 0 |} (Some 0%nat) grid_1x1 = Ok g' /\
                   Grid.size g' = Grid.size grid_1x1 /\
                   getCellAt {| Vector.x := 1; Vector.y := 0 |} g' = Ok (Some 0%nat))).
Proof.
  apply accessors_not_bounds_checked; [wf_closed|].
  unfold inside; simpl; lia.
Defined.

(** C6 as stated fails: on the 1x1 board the position (x=1, y=0) is outside
    [0, size), yet [getCellAt] returns [undefined] and [setCellAt] returns a
    grid whose row has grown to two slots; neither signals a fault. *)
Lemma accessors_silent_out_of_range :
  ~ inside grid_1x1 {| Vector.x := 1; Vector.y := 0 |} /\
  getCellAt {| Vector.x := 1; Vector.y := 0 |} grid_1x1 = Ok None /\
  setCellAt {| Vector.x := 1; Vector.y := 0 |} (Some 0%nat) grid_1x1 =
    Ok {| Grid.size := 1; Grid.rows := [[Some 0%nat; Some 0%nat]] |}.
Proof.
  split; [|split; reflexivity]. unfold inside. simpl. lia.
Qed.

(** ** Snapshots share their cells *)

Lemma cloneGrid_same grid : cloneGrid grid = grid.
Proof. destruct grid as [n rows]. unfold cloneGrid. simpl. by rewrite map_id. Qed.

(** C8 (what the transition does to the grid it started from).  After
    ADD_NEW_BLOCK at a position of a well-formed grid, the new grid holds
    the same cell objects as the original one, and the cell that the
    original grid holds at that position carries the new block: the clone
    shares its cell objects with the original and [setBlockAt] writes the
    block into the shared object. *)
Theorem ADD_NEW_BLOCK_writes_shared_cell rnd h st p b c :
  wf h (State.grid st) -> inside (State.grid st) p ->
  cellAt h (State.grid st) p = Some c ->
  exists st' h',
    reducer rnd st (ADD_NEW_BLOCK (Some p) b) h = (Ok st', h') /\
    Grid.rows (State.grid st') = Grid.rows (State.grid st) /\
    cellAt h' (State.grid st) p =
      Some {| Cell.block := Some b; Cell.mergedBlock := Cell.mergedBlock c |}.
Proof.
  intros Hwf Hp Hc. apply cellAt_Some in Hc as (a & Ha & Hca).
  unfold reducer. rewrite cloneGrid_same. unfold bind, setBlockAt.
  rewrite Ha, Hca. unfold ret. eexists _, _. split; [done|]. split; [done|].
  unfold cellAt. rewrite Ha. cbn [Heap.cells].
  apply list_lookup_insert_eq. by eapply lookup_lt_Some.
Qed.

Lemma ADD_NEW_BLOCK_writes_shared_cell_witness :
  exists st' h',
    reducer {| Random.r1 := 0; Random.r2 := 0; Random.uuid := "n" |}
            {| State.phase := SPAWN; State.grid := grid_1x1 |}
            (ADD_NEW_BLOCK (Some origin) (block_of 7%nat "n" 2))
            (heap_one makeEmptyCell) = (Ok st', h') /\
    Grid.rows (State.grid st') =
      Grid.rows (State.grid {| State.phase := SPAWN; State.grid := grid_1x1 |}) /\
    cellAt h' (State.grid {| State.phase := SPAWN; State.grid := grid_1x1 |}) origin =
      Some {| Cell.block := Some (block_of 7%nat "n" 2);
              Cell.mergedBlock := Cell.mergedBlock makeEmptyCell |}.
Proof.
  apply ADD_NEW_BLOCK_writes_shared_cell.
  - wf_closed.
  - unfold inside. simpl. lia.
  - reflexivity.
Defined.

(** ** The completion counter *)

Lemma signals_below boxCount phase (n : nat) (c : Z) :
  c + Z.of_nat n < expectedCount boxCount phase ->
  signals boxCount phase n c = (c + Z.of_nat n, replicate n (Ok None)).
Proof.
  revert c. induction n as [|n IH]; intros c Hc.
  - simpl. f_equal. lia.
  - cbn [signals]. unfold handleBoxAnimationComplete.
    fold (expectedCount boxCount phase).
    destruct (Z.eqb_spec (c + 1) (expectedCount boxCount phase)); [lia|].
    rewrite IH by lia. simpl. f_equal. lia.
Qed.

(** C4 (as the code has it).  In a round that expects k >= 1 completions,
    with the counter at 0: the first k-1 signals dispatch nothing and leave
    the counter at k-1; the k-th dispatches CLEAR_TRANSIENT_STATE once and
    puts the counter back to 0; a further signal handled by the same
    callback dispatches nothing when k >= 2, but when k = 1 it reaches the
    expected count again and dispatches a second time. *)
Theorem completion_counter_round boxCount phase next :
  nextPhaseMap phase = Some next ->
  1 <= expectedCount boxCount phase ->
  signals boxCount phase (Z.to_nat (expectedCount boxCount phase) - 1) 0 =
    (expectedCount boxCount phase - 1,
     replicate (Z.to_nat (expectedCount boxCount phase) - 1) (Ok None)) /\
  handleBoxAnimationComplete boxCount phase (expectedCount boxCount phase - 1) =
    (0, Ok (Some (CLEAR_TRANSIENT_STATE next))) /\
  handleBoxAnimationComplete boxCount phase 0 =
    if expectedCount boxCount phase =? 1
    then (0, Ok (Some (CLEAR_TRANSIENT_STATE next)))
    else (1, Ok None).
Proof.
  intros Hnext Hk. split; [|split].
  - rewrite signals_below by lia. f_equal. lia.
  - unfold handleBoxAnimationComplete. fold (expectedCount boxCount phase).
    rewrite Z.sub_add, Z.eqb_refl, Hnext. done.
  - unfold handleBoxAnimationComplete. fold (expectedCount boxCount phase).
    rewrite Z.eqb_sym. change (0 + 1) with 1. rewrite Hnext.
    by destruct (expectedCount boxCount phase =? 1).
Qed.

Lemma completion_counter_round_witness :
  signals 3 ACTIVE (Z.to_nat (expectedCount 3 ACTIVE) - 1) 0 =
    (expectedCount 3 ACTIVE - 1,
     replicate (Z.to_nat (expectedCount 3 ACTIVE) - 1) (Ok None)) /\
  handleBoxAnimationComplete 3 ACTIVE (expectedCount 3 ACTIVE - 1) =
    (0, Ok (Some (CLEAR_TRANSIENT_STATE TEST_WON))) /\
  handleBoxAnimationComplete 3 ACTIVE 0 =
    if expectedCount 3 ACTIVE =? 1
    then (0, Ok (Some (CLEAR_TRANSIENT_STATE TEST_WON)))
    else (1, Ok None).
Proof.
  apply completion_counter_round; [reflexivity|]. simpl. lia.
Defined.

(** A signal that arrives in a phase that expects none resets the counter
    and throws; one that arrives in SPAWN, where a single completion is
    expected, dispatches at once. *)
Lemma completion_signal_outside_a_round boxCount phase :
  nextPhaseMap phase = None ->
  handleBoxAnimationComplete boxCount phase 0 = (0, Throw PhaseError).
Proof. by destruct phase. Qed.

Lemma completion_signal_in_SPAWN boxCount :
  handleBoxAnimationComplete boxCount SPAWN 0 =
    (0, Ok (Some (CLEAR_TRANSIENT_STATE TEST_GAME_OVER))).
Proof. done. Qed.

(** C4 as stated fails for k = 1 (every INIT and SPAWN round): the first
    signal dispatches and resets the counter, and the second signal, which
    is the (k+1)-th, dispatches again. *)
Lemma completion_counter_second_signal_fires :
  expectedCount 6 INIT = 1 /\
  signals 6 INIT 2 0 =
    (0, [Ok (Some (CLEAR_TRANSIENT_STATE INPUT));
         Ok (Some (CLEAR_TRANSIENT_STATE INPUT))]).
Proof. split; reflexivity. Qed.

(** ** The pairing scan *)

Lemma foldl_agree_in {A B} (f1 f2 : B -> A -> B) (l : list A) (b : B) :
  (forall s a, a ∈ l -> f1 s a = f2 s a) -> foldl f1 b l = foldl f2 b l.
Proof.
  revert b. induction l as [|a l IH]; intros b Hf; [done|].
  simpl. rewrite Hf by left. apply IH. intros s a' Ha'. apply Hf. by right.
Qed.

Lemma js_get_end {A} (arr : list A) : js_get arr (Z.of_nat (length arr)) = None.
Proof. apply js_get_outside. lia. Qed.

Lemma js_get_before {A} (arr : list A) : js_get arr (-1) = None.
Proof. done. Qed.

Lemma js_get_reverse {A} (arr : list A) (i : Z) :
  -1 <= i <= Z.of_nat (length arr) ->
  js_get (reverse arr) i = js_get arr (Z.of_nat (length arr) - 1 - i).
Proof.
  intros Hi. unfold js_get.
  destruct (Z.ltb_spec i 0) as [Hneg|Hpos].
  - assert (i = -1) as -> by lia.
    destruct (Z.ltb_spec (Z.of_nat (length arr) - 1 - -1) 0); [done|].
    symmetry. apply lookup_ge_None. lia.
  - destruct (Z.ltb_spec (Z.of_nat (length arr) - 1 - i) 0) as [Hend|Hin].
    + apply lookup_ge_None. rewrite length_reverse. lia.
    + rewrite reverse_lookup by lia. f_equal. lia.
Qed.

(** the loop of [findBlockPairs] over the indices is the scan over the
    blocks *)
Lemma scan_indices direction (l : list (option Block.t)) rest :
  forall pre st,
    l = pre ++ rest ->
    foldl (fun st i =>
             findBlockPairs_visit direction (mjoin (js_get l i))
                                  (mjoin (js_get l (i - 1))) st)
          st (seqZ (Z.of_nat (length pre)) (Z.of_nat (length rest) + 1)) =
    scan direction (mjoin (js_get l (Z.of_nat (length pre) - 1))) rest st.
Proof.
  induction rest as [|b rest IH]; intros pre st Hl.
  - rewrite app_nil_r in Hl. subst pre.
    rewrite seqZ_cons by (cbn [length]; lia). rewrite seqZ_nil by (cbn [length]; lia).
    cbn [foldl scan]. by rewrite js_get_end.
  - rewrite seqZ_cons by lia. cbn [foldl scan].
    assert (js_get l (Z.of_nat (length pre)) = Some b) as Hb.
    { rewrite js_get_lookup, Hl. by rewrite list_lookup_middle. }
    rewrite Hb. cbn [mjoin option_join].
    specialize (IH (pre ++ [b]) (findBlockPairs_visit direction b
                     (mjoin (js_get l (Z.of_nat (length pre) - 1))) st)).
    rewrite length_app in IH. cbn [length] in IH.
    replace (Z.succ (Z.of_nat (length pre))) with (Z.of_nat (length pre + 1)) by lia.
    replace (Z.pred (Z.of_nat (length (b :: rest)) + 1))
      with (Z.of_nat (length rest) + 1) by (cbn [length]; lia).
    rewrite IH by (by rewrite <- app_assoc).
    replace (Z.of_nat (length pre + 1) - 1) with (Z.of_nat (length pre)) by lia.
    by rewrite Hb.
Qed.

Lemma findBlockPairs_loop direction blocks :
  direction = 1 \/ direction = -1 ->
  foldl (findBlockPairs_iter direction blocks) ([], [])
        (seqZ 0 (Z.of_nat (length blocks) + 1)) =
  scan direction None (scanOrder direction blocks) ([], []).
Proof.
  intros Hd.
  pose proof (scan_indices direction (scanOrder direction blocks)
                (scanOrder direction blocks) [] ([], []) eq_refl) as Hscan.
  cbn [length] in Hscan. change (Z.of_nat 0 - 1) with (-1) in Hscan.
  rewrite js_get_before in Hscan. cbn [mjoin option_join] in Hscan.
  assert (length (scanOrder direction blocks) = length blocks) as Hlen.
  { unfold scanOrder. destruct (direction =? 1); [apply length_reverse|done]. }
  rewrite Hlen in Hscan. change (Z.of_nat 0) with 0 in Hscan.
  rewrite <- Hscan. apply foldl_agree_in. intros st i Hi.
  apply elem_of_seqZ in Hi. unfold findBlockPairs_iter, scanOrder.
  destruct Hd as [-> | ->]; simpl (_ =? 1); cbv iota.
  - rewrite !js_get_reverse by lia. do 2 f_equal; f_equal; lia.
  - done.
Qed.

Lemma includes_app l1 l2 b : includes (l1 ++ l2) b = includes l1 b || includes l2 b.
Proof. unfold includes. apply existsb_app. Qed.

Lemma includes_false l b :
  includes l b = false <-> Block.ref b ∉ Block.ref <$> l.
Proof.
  unfold includes. induction l as [|a l IH]; simpl.
  - split; [|done]. intros _ H. by apply elem_of_nil in H.
  - rewrite orb_false_iff, IH, not_elem_of_cons, Nat.eqb_neq.
    split; intros [H1 H2]; (split; [|done]); intros H3; by apply H1.
Qed.

Lemma includes_self l b : includes (l ++ [b]) b = true.
Proof. rewrite includes_app. unfold includes at 2. simpl. rewrite Nat.eqb_refl. by rewrite orb_true_r. Qed.

Lemma addGroups_cons direction g gs bp paired :
  addGroups direction (g :: gs) (bp, paired) =
  addGroups direction gs
    (addToBlockPairs direction (render direction g) bp, paired ++ pushed g).
Proof. unfold addGroups. simpl. by rewrite <- app_assoc. Qed.

Lemma addGroups_nil direction st : addGroups direction [] st = st.
Proof. destruct st. unfold addGroups. simpl. by rewrite app_nil_r. Qed.

(** On distinct block objects the scan is the greedy pairing: a block that
    is in [pairedBlocks] is exactly one that the previous step has paired. *)
Lemma scan_greedy direction rest :
  forall last bp paired,
    NoDup (Block.ref <$> (last :: rest)) ->
    (forall x, x ∈ rest -> includes paired x = false) ->
    scan direction (Some last) (Some <$> rest) (bp, paired) =
    addGroups direction
      (if includes paired last then greedy rest else greedy (last :: rest))
      (bp, paired).
Proof.
  induction rest as [|b rest IH]; intros last bp paired Hnd Hfresh.
  - cbn [fmap list_fmap scan findBlockPairs_visit greedy].
    destruct (includes paired last).
    + by rewrite addGroups_nil.
    + by rewrite addGroups_cons, addGroups_nil, app_nil_r.
  - cbn [fmap list_fmap scan findBlockPairs_visit].
    rewrite fmap_cons in Hnd. apply NoDup_cons in Hnd as [Hlast Hnd].
    pose proof Hnd as Hnd'. rewrite fmap_cons in Hnd'.
    apply NoDup_cons in Hnd' as [Hb Hrest].
    rewrite fmap_cons in Hlast. apply not_elem_of_cons in Hlast as [Hlb Hlast].
    assert (includes paired b = false) as Hpb by (apply Hfresh; left).
    destruct (includes paired last) eqn:Hpl.
    + change (list_fmap _ _ Some rest) with (Some <$> rest).
      rewrite IH; [by rewrite Hpb|done|]. intros x Hx. apply Hfresh. by right.
    + destruct (Z.eqb_spec (Block.value b) (Block.value last)) as [Hv|Hv].
      * change (list_fmap _ _ Some rest) with (Some <$> rest).
        rewrite IH; [|done|].
        -- replace (includes (paired ++ [b; last]) b) with true.
           2:{ symmetry. rewrite (includes_app paired [b; last]).
               unfold includes at 2. simpl. rewrite Nat.eqb_refl.
               by rewrite orb_true_r. }
           cbn [greedy]. destruct (Z.eqb_spec (Block.value b) (Block.value last)); [|done].
           by rewrite addGroups_cons.
        -- intros x Hx. apply includes_false. rewrite fmap_app.
           rewrite not_elem_of_app. split.
           ++ apply includes_false, Hfresh. by right.
           ++ simpl. rewrite !not_elem_of_cons. split; [|split].
              ** intros Heq. apply Hb. rewrite <- Heq. by apply list_elem_of_fmap_2.
              ** intros Heq. apply Hlast. rewrite <- Heq. by apply list_elem_of_fmap_2.
              ** intros H'. by apply elem_of_nil in H'.
      * change (list_fmap _ _ Some rest) with (Some <$> rest).
        rewrite IH; [|done|].
        -- rewrite Hpb. cbn [greedy].
           destruct (Z.eqb_spec (Block.value b) (Block.value last)); [done|].
           by rewrite addGroups_cons, app_nil_r.
        -- intros x Hx. apply Hfresh. by right.
Qed.

Lemma scan_start direction (l : list Block.t) :
  NoDup (Block.ref <$> l) ->
  scan direction None (Some <$> l) ([], []) = addGroups direction (greedy l) ([], []).
Proof.
  intros Hnd. destruct l as [|a rest]; [done|].
  cbn [fmap list_fmap scan findBlockPairs_visit].
  change (list_fmap _ _ Some rest) with (Some <$> rest).
  by rewrite scan_greedy.
Qed.

Lemma foldl_addToBlockPairs direction (gs : list Group) bp :
  foldl (fun bp g => addToBlockPairs direction (render direction g) bp) bp gs =
  if direction =? 1 then reverse (render direction <$> gs) ++ bp
  else bp ++ (render direction <$> gs).
Proof.
  revert bp. induction gs as [|g gs IH]; intros bp.
  - simpl. destruct (direction =? 1); [done|by rewrite app_nil_r].
  - cbn [foldl]. rewrite IH. unfold addToBlockPairs.
    destruct (direction =? 1).
    + rewrite fmap_cons, reverse_cons, <- app_assoc. done.
    + rewrite fmap_cons, <- app_assoc. done.
Qed.

Lemma pushed_empty (gs : list Group) :
  negb (Nat.eqb (length (flat_map pushed gs)) 0) = existsb isPair gs.
Proof.
  induction gs as [|[a|a b] gs IH]; [done| |done]. simpl. apply IH.
Qed.

(** [findBlockPairs] on a line of distinct block objects *)
Lemma findBlockPairs_greedy direction (bs : list Block.t) :
  direction = 1 \/ direction = -1 ->
  NoDup (Block.ref <$> bs) ->
  findBlockPairs direction (Some <$> bs) =
    {| hasBlockPairs := existsb isPair (greedy (scanOrder direction bs));
       blockPairs :=
         scanOrder direction (render direction <$> greedy (scanOrder direction bs)) |}.
Proof.
  intros Hd Hnd. unfold findBlockPairs. rewrite findBlockPairs_loop by done.
  assert (scanOrder direction (Some <$> bs) = Some <$> scanOrder direction bs) as ->.
  { unfold scanOrder. destruct (direction =? 1); [by rewrite fmap_reverse|done]. }
  rewrite scan_start.
  - unfold addGroups. cbn [fst snd app]. rewrite foldl_addToBlockPairs, pushed_empty.
    f_equal. unfold scanOrder at 3. destruct (direction =? 1); [by rewrite app_nil_r|done].
  - unfold scanOrder. destruct (direction =? 1); [|done].
    rewrite fmap_reverse. by rewrite reverse_Permutation.
Qed.

(** ** The greedy pairing *)

Lemma greedy_cases (P : list Block.t -> Prop) :
  P [] ->
  (forall a, P [a]) ->
  (forall a b rest, Block.value b = Block.value a -> P rest -> P (a :: b :: rest)) ->
  (forall a b rest, Block.value b <> Block.value a -> P (b :: rest) -> P (a :: b :: rest)) ->
  forall l, P l.
Proof.
  intros Hnil Hone Hpair Hsingle l.
  assert (P l /\ forall a, P (a :: l)) as [Hl _]; [|done].
  induction l as [|b l [IH1 IH2]]; [by split|].
  split; [apply IH2|]. intros a.
  destruct (Z.eq_dec (Block.value b) (Block.value a)); [by apply Hpair|].
  by apply Hsingle.
Qed.

Lemma greedy_pair a b rest :
  Block.value b = Block.value a ->
  greedy (a :: b :: rest) = Pair a b :: greedy rest.
Proof. intros Hv. cbn [greedy]. rewrite Hv. by rewrite Z.eqb_refl. Qed.

Lemma greedy_single a b rest :
  Block.value b <> Block.value a ->
  greedy (a :: b :: rest) = Single a :: greedy (b :: rest).
Proof.
  intros Hv. cbn [greedy]. by destruct (Z.eqb_spec (Block.value b) (Block.value a)).
Qed.

(** a pair is made of two neighbours of equal value *)
Lemma greedy_pair_adjacent l a b :
  Pair a b ∈ greedy l ->
  exists j, l !! j = Some a /\ l !! S j = Some b /\ Block.value b = Block.value a.
Proof.
  revert l. apply (greedy_cases (fun l => Pair a b ∈ greedy l -> _)).
  - intros H. by apply elem_of_nil in H.
  - intros x H. simpl in H. apply list_elem_of_singleton in H. done.
  - intros x y rest Hv IH H. rewrite greedy_pair in H by done.
    apply elem_of_cons in H as [H|H].
    + injection H as -> ->. by exists 0%nat.
    + destruct (IH H) as (j & Ha & Hb & Hab). by exists (S (S j)).
  - intros x y rest Hv IH H. rewrite greedy_single in H by done.
    apply elem_of_cons in H as [H|H]; [done|].
    destruct (IH H) as (j & Ha & Hb & Hab). by exists (S j).
Qed.

Lemma greedy_perm direction l : concat (render direction <$> greedy l) ≡ₚ l.
Proof.
  revert l. apply greedy_cases.
  - done.
  - done.
  - intros a b rest Hv IH. rewrite greedy_pair by done.
    rewrite fmap_cons. cbn [concat render].
    destruct (direction =? 1); simpl; [by rewrite IH|].
    rewrite IH. apply Permutation_swap.
  - intros a b rest Hv IH. rewrite greedy_single by done.
    rewrite fmap_cons. cbn [concat render]. simpl. by rewrite IH.
Qed.

Lemma render_length direction g :
  length (render direction g) = if isPair g then 2%nat else 1%nat.
Proof. destruct g; [done|]. simpl. by destruct (direction =? 1). Qed.

Lemma groupsOfSize_cons n g groups :
  groupsOfSize n (g :: groups) =
  ((if Nat.eqb (length g) n then 1 else 0) + groupsOfSize n groups)%nat.
Proof. unfold groupsOfSize. simpl. by destruct (Nat.eqb (length g) n). Qed.

Lemma groupsOfSize_app n l1 l2 :
  groupsOfSize n (l1 ++ l2) = (groupsOfSize n l1 + groupsOfSize n l2)%nat.
Proof.
  induction l1 as [|g l1 IH]; [done|].
  rewrite <- app_comm_cons, !groupsOfSize_cons, IH. lia.
Qed.

Lemma groupsOfSize_reverse n l : groupsOfSize n (reverse l) = groupsOfSize n l.
Proof.
  induction l as [|g l IH]; [reflexivity|].
  rewrite reverse_cons, groupsOfSize_app, !groupsOfSize_cons, IH.
  change (groupsOfSize n []) with 0%nat. lia.
Qed.

Lemma groupsOfSize_scanOrder n direction l :
  groupsOfSize n (scanOrder direction l) = groupsOfSize n l.
Proof.
  unfold scanOrder. destruct (direction =? 1); [apply groupsOfSize_reverse|done].
Qed.

(** the groups account for every block: twice the pairs plus the singles *)
Lemma greedy_counts direction l :
  (2 * groupsOfSize 2 (render direction <$> greedy l) +
   groupsOfSize 1 (render direction <$> greedy l) = length l)%nat.
Proof.
  revert l. apply greedy_cases.
  - done.
  - done.
  - intros a b rest Hv IH. rewrite greedy_pair by done.
    rewrite fmap_cons, !groupsOfSize_cons, render_length. simpl. lia.
  - intros a b rest Hv IH. rewrite greedy_single by done.
    rewrite fmap_cons, !groupsOfSize_cons, render_length. simpl in *. lia.
Qed.

(** in a run of equal values only the last block can stay single *)
Lemma greedy_run_singles direction v l :
  Forall (fun b => Block.value b = v) l ->
  (groupsOfSize 1 (render direction <$> greedy l) <= 1)%nat.
Proof.
  revert l. apply (greedy_cases (fun l => Forall _ l -> _)).
  - intros _. cbn. lia.
  - intros a _. cbn. lia.
  - intros a b rest Hv IH Hall. rewrite greedy_pair by done.
    rewrite fmap_cons, !groupsOfSize_cons, render_length. simpl.
    apply IH. by do 2 apply Forall_cons in Hall as [_ Hall].
  - intros a b rest Hv IH Hall. exfalso. apply Hv.
    apply Forall_cons in Hall as [Ha Hall]. apply Forall_cons in Hall as [Hb _].
    congruence.
Qed.

Lemma scanOrder_perm {A} direction (l : list A) : scanOrder direction l ≡ₚ l.
Proof. unfold scanOrder. destruct (direction =? 1); [apply reverse_Permutation|done]. Qed.

Lemma scanOrder_length {A} direction (l : list A) :
  length (scanOrder direction l) = length l.
Proof. by rewrite scanOrder_perm. Qed.

(** the greedy pairing of a line cut between two blocks of different
    values is the pairing of the two parts *)
Lemma greedy_app (l1 l2 : list Block.t) :
  (forall a b, last l1 = Some a -> head l2 = Some b -> Block.value b <> Block.value a) ->
  greedy (l1 ++ l2) = greedy l1 ++ greedy l2.
Proof.
  revert l1. apply (greedy_cases (fun l1 => _ -> greedy (l1 ++ l2) = greedy l1 ++ greedy l2)).
  - done.
  - intros a Hcut. destruct l2 as [|b l2]; [done|].
    change ([a] ++ b :: l2) with (a :: b :: l2).
    rewrite greedy_single; [done|]. by apply Hcut.
  - intros a b rest Hv IH Hcut.
    change ((a :: b :: rest) ++ l2) with (a :: b :: (rest ++ l2)).
    rewrite !greedy_pair by done. rewrite IH; [done|].
    intros x y Hx Hy. apply Hcut; [|done]. by destruct rest.
  - intros a b rest Hv IH Hcut.
    change ((a :: b :: rest) ++ l2) with (a :: b :: (rest ++ l2)).
    rewrite !greedy_single by done.
    change (b :: (rest ++ l2)) with ((b :: rest) ++ l2). rewrite IH; [done|].
    intros x y Hx Hy. by apply Hcut.
Qed.

Lemma last_reverse_head {A} (l : list A) : last (reverse l) = head l.
Proof. destruct l as [|a l]; [done|]. by rewrite reverse_cons, last_snoc. Qed.

Lemma head_reverse_last {A} (l : list A) : head (reverse l) = last l.
Proof. by rewrite <- (last_reverse_head (reverse l)), reverse_involutive. Qed.

(** [findBlockPairs] on a line cut between two blocks of different values *)
Lemma findBlockPairs_cut direction (l1 l2 : list Block.t) :
  direction = 1 \/ direction = -1 ->
  NoDup (Block.ref <$> (l1 ++ l2)) ->
  (forall a b, last l1 = Some a -> head l2 = Some b -> Block.value b <> Block.value a) ->
  blockPairs (findBlockPairs direction (Some <$> (l1 ++ l2))) =
  blockPairs (findBlockPairs direction (Some <$> l1)) ++
  blockPairs (findBlockPairs direction (Some <$> l2)).
Proof.
  intros Hd Hnd Hcut.
  pose proof Hnd as Hnd'. rewrite fmap_app in Hnd'.
  apply NoDup_app in Hnd' as (Hnd1 & _ & Hnd2).
  rewrite !findBlockPairs_greedy by done. cbn [blockPairs]. unfold scanOrder.
  destruct (direction =? 1).
  - rewrite reverse_app, greedy_app.
    + by rewrite fmap_app, reverse_app.
    + intros a b Ha Hb. rewrite last_reverse_head in Ha. rewrite head_reverse_last in Hb.
      intros Hv. by apply (Hcut b a).
  - by rewrite greedy_app, fmap_app.
Qed.

(** a line of one value: as many pairs as fit, and one single when the
    number of blocks is odd *)
Lemma findBlockPairs_run direction v (run : list Block.t) :
  direction = 1 \/ direction = -1 ->
  NoDup (Block.ref <$> run) ->
  Forall (fun b => Block.value b = v) run ->
  groupsOfSize 2 (blockPairs (findBlockPairs direction (Some <$> run))) =
    (length run / 2)%nat /\
  groupsOfSize 1 (blockPairs (findBlockPairs direction (Some <$> run))) =
    (length run mod 2)%nat.
Proof.
  intros Hd Hnd Hall. rewrite findBlockPairs_greedy by done. cbn [blockPairs].
  rewrite !groupsOfSize_scanOrder.
  pose proof (greedy_counts direction (scanOrder direction run)) as Hcount.
  pose proof (greedy_run_singles direction v (scanOrder direction run)) as Hsingle.
  rewrite scanOrder_length in Hcount.
  assert (groupsOfSize 1 (render direction <$> greedy (scanOrder direction run)) <= 1)%nat
    as Hle by (apply Hsingle; by rewrite scanOrder_perm).
  pose proof (Nat.div_mod_eq (length run) 2) as Hdiv.
  pose proof (Nat.mod_upper_bound (length run) 2) as Hmod.
  lia.
Qed.

(** C3 (as the code has it).  On a line of distinct block objects and for a
    direction sign +1 or -1, every group returned by [findBlockPairs] holds
    one or two blocks (never three), no block occurs in two groups, no
    block is lost, and twice the number of pairs plus the number of singles
    is the length of the line.  A run of n blocks of one value that ends at
    an end of the line or at a block of another value, on either side, is
    grouped on its own: the groups of the line are those of the blocks
    before the run, those of the run and those of the blocks after it, and
    the run yields n/2 pairs and one single when n is odd (one pair and one
    single for three blocks, two pairs for four). *)
Theorem findBlockPairs_pairs_each_block_once direction (bs : list Block.t) :
  direction = 1 \/ direction = -1 ->
  NoDup (Block.ref <$> bs) ->
  Forall (fun g => length g = 1%nat \/ length g = 2%nat)
         (blockPairs (findBlockPairs direction (Some <$> bs))) /\
  NoDup (Block.ref <$> concat (blockPairs (findBlockPairs direction (Some <$> bs)))) /\
  concat (blockPairs (findBlockPairs direction (Some <$> bs))) ≡ₚ bs /\
  (2 * groupsOfSize 2 (blockPairs (findBlockPairs direction (Some <$> bs))) +
   groupsOfSize 1 (blockPairs (findBlockPairs direction (Some <$> bs))) =
   length bs)%nat /\
  (forall v pre run post,
     bs = pre ++ run ++ post -> run <> [] ->
     Forall (fun b => Block.value b = v) run ->
     (forall a, last pre = Some a -> Block.value a <> v) ->
     (forall b, head post = Some b -> Block.value b <> v) ->
     blockPairs (findBlockPairs direction (Some <$> bs)) =
       blockPairs (findBlockPairs direction (Some <$> pre)) ++
       blockPairs (findBlockPairs direction (Some <$> run)) ++
       blockPairs (findBlockPairs direction (Some <$> post)) /\
     concat (blockPairs (findBlockPairs direction (Some <$> run))) ≡ₚ run /\
     groupsOfSize 2 (blockPairs (findBlockPairs direction (Some <$> run))) =
       (length run / 2)%nat /\
     groupsOfSize 1 (blockPairs (findBlockPairs direction (Some <$> run))) =
       (length run mod 2)%nat).
Proof.
  intros Hd Hnd.
  assert (forall l, NoDup (Block.ref <$> l) ->
            concat (blockPairs (findBlockPairs direction (Some <$> l))) ≡ₚ l) as Hperm.
  { intros l Hl. rewrite findBlockPairs_greedy by done. cbn [blockPairs].
    rewrite scanOrder_perm, greedy_perm. apply scanOrder_perm. }
  split; [|split; [|split; [by apply Hperm|split]]].
  - rewrite findBlockPairs_greedy by done. cbn [blockPairs].
    rewrite scanOrder_perm. apply Forall_fmap, Forall_forall. intros g _.
    simpl. rewrite render_length. destruct (isPair g); [by right|by left].
  - by rewrite Hperm.
  - rewrite findBlockPairs_greedy by done. cbn [blockPairs].
    rewrite !groupsOfSize_scanOrder, greedy_counts. apply scanOrder_length.
  - intros v pre run post -> Hne Hall Hpre Hpost.
    pose proof Hnd as Hnd'. rewrite fmap_app in Hnd'.
    apply NoDup_app in Hnd' as (_ & _ & Hnd2).
    pose proof Hnd2 as Hnd3. rewrite fmap_app in Hnd3.
    apply NoDup_app in Hnd3 as (Hrun & _ & _).
    split; [|split; [by apply Hperm|by apply (findBlockPairs_run direction v)]].
    rewrite (findBlockPairs_cut direction pre (run ++ post)); [|done|done|].
    + f_equal. apply findBlockPairs_cut; [done|done|].
      intros a b Ha Hb. apply last_Some_elem_of in Ha.
      rewrite Forall_forall in Hall. specialize (Hall a Ha).
      intros Hv. apply (Hpost b Hb). congruence.
    + intros a b Ha Hb. destruct run as [|r run]; [done|].
      injection Hb as <-. apply Forall_cons in Hall as [Hr _].
      intros Hv. apply (Hpre a Ha). congruence.
Qed.

Lemma findBlockPairs_pairs_each_block_once_witness :
  Forall (fun g => length g = 1%nat \/ length g = 2%nat)
         (blockPairs (findBlockPairs 1 (Some <$> line_4222))) /\
  NoDup (Block.ref <$> concat (blockPairs (findBlockPairs 1 (Some <$> line_4222)))) /\
  concat (blockPairs (findBlockPairs 1 (Some <$> line_4222))) ≡ₚ line_4222 /\
  (2 * groupsOfSize 2 (blockPairs (findBlockPairs 1 (Some <$> line_4222))) +
   groupsOfSize 1 (blockPairs (findBlockPairs 1 (Some <$> line_4222))) =
   length line_4222)%nat /\
  blockPairs (findBlockPairs 1 (Some <$> line_4222)) =
    blockPairs (findBlockPairs 1 (Some <$> [block_of 7%nat "x" 4])) ++
    blockPairs (findBlockPairs 1 (Some <$> [two_a; two_b; two_c])) ++
    blockPairs (findBlockPairs 1 (Some <$> [])) /\
  concat (blockPairs (findBlockPairs 1 (Some <$> [two_a; two_b; two_c]))) ≡ₚ
    [two_a; two_b; two_c] /\
  groupsOfSize 2 (blockPairs (findBlockPairs 1 (Some <$> [two_a; two_b; two_c]))) =
    (length [two_a; two_b; two_c] / 2)%nat /\
  groupsOfSize 1 (blockPairs (findBlockPairs 1 (Some <$> [two_a; two_b; two_c]))) =
    (length [two_a; two_b; two_c] mod 2)%nat.
Proof.
  destruct (findBlockPairs_pairs_each_block_once 1 line_4222) as (H1 & H2 & H3 & H4 & H5).
  - by left.
  - simpl.
    repeat (apply NoDup_cons_2; [rewrite ?not_elem_of_cons, ?elem_of_nil; intuition lia|]).
    apply NoDup_nil_2.
  - split; [exact H1|]. split; [exact H2|]. split; [exact H3|]. split; [exact H4|].
    apply (H5 2 [block_of 7%nat "x" 4] [two_a; two_b; two_c] []).
    + reflexivity.
    + discriminate.
    + repeat constructor.
    + intros a [= <-]. discriminate.
    + intros b. discriminate.
Defined.

(** The blocks must be distinct objects: when the same object stands at two
    places of the line, it can enter two pairs. *)
Lemma findBlockPairs_same_object_twice :
  blockPairs (findBlockPairs (-1)
                (Some <$> [two_a; two_b; block_of 7%nat "x" 4; two_c; two_a])) =
    [[two_b; two_a]; [block_of 7%nat "x" 4]; [two_a; two_c]].
Proof. reflexivity. Qed.

(** C3 as stated fails in its last part: a run of four equal values yields
    two merged pairs, not at most one (and a run of three yields one pair
    and one single). *)
Lemma findBlockPairs_run_of_four_two_pairs :
  blockPairs (findBlockPairs (-1) (Some <$> [two_a; two_b; two_c; two_d])) =
    [[two_b; two_a]; [two_d; two_c]] /\
  groupsOfSize 2 (blockPairs (findBlockPairs (-1) (Some <$> [two_a; two_b; two_c; two_d]))) =
    2%nat /\
  blockPairs (findBlockPairs 1 (Some <$> [two_a; two_b; two_c; two_d])) =
    [[two_b; two_a]; [two_d; two_c]] /\
  blockPairs (findBlockPairs (-1) (Some <$> [two_a; two_b; two_c])) =
    [[two_b; two_a]; [two_c]].
Proof. repeat split; reflexivity. Qed.

(** ** Whether the scan pairs anything *)

Lemma visit_paired direction block lastBlock bp paired :
  snd (findBlockPairs_visit direction block lastBlock (bp, paired)) = [] <->
  paired = [] /\
  match lastBlock, block with
  | Some lb, Some b => (Block.value b =? Block.value lb) = false
  | _, _ => True
  end.
Proof.
  unfold findBlockPairs_visit. destruct lastBlock as [lb|]; [|simpl; tauto].
  destruct (includes paired lb) eqn:Hinc.
  - simpl. split; [|tauto]. intros ->. done.
  - destruct block as [b|]; [|simpl; tauto].
    destruct (Block.value b =? Block.value lb); simpl.
    + split; [|by intros [_ ?]]. intros H. by apply app_eq_nil in H as [_ ?].
    + tauto.
Qed.

Lemma scan_paired direction rest :
  forall lastBlock st,
    snd (scan direction lastBlock rest st) = [] <->
    snd st = [] /\ adjacentEqual (lastBlock :: rest) = false.
Proof.
  induction rest as [|b rest IH]; intros lastBlock [bp paired].
  - cbn [scan]. rewrite visit_paired. cbn [snd].
    destruct lastBlock; simpl; tauto.
  - cbn [scan]. rewrite IH.
    destruct (findBlockPairs_visit direction b lastBlock (bp, paired))
      as [bp1 paired1] eqn:Hvisit.
    assert (paired1 = snd (findBlockPairs_visit direction b lastBlock (bp, paired)))
      as Hp1 by (by rewrite Hvisit).
    cbn [snd]. split.
    + intros [Hnil Hadj]. rewrite Hnil in Hp1. symmetry in Hp1.
      apply visit_paired in Hp1 as [-> Hv]. split; [done|].
      cbn [adjacentEqual]. destruct lastBlock as [lb|]; [|done].
      destruct b as [bb|]; [|done]. by rewrite Hv.
    + intros [-> Hadj].
      assert (match lastBlock, b with
              | Some lb, Some b0 => (Block.value b0 =? Block.value lb) = false
              | _, _ => True
              end /\ adjacentEqual (b :: rest) = false) as [Hv Hrest].
      { cbn [adjacentEqual] in Hadj. destruct lastBlock as [lb|]; [|done].
        destruct b as [bb|]; [|done]. by apply orb_false_iff in Hadj. }
      split; [|done]. rewrite Hp1. by apply visit_paired.
Qed.

Lemma hasBlockPairs_adjacentEqual direction blocks :
  direction = 1 \/ direction = -1 ->
  hasBlockPairs (findBlockPairs direction blocks) =
  adjacentEqual (scanOrder direction blocks).
Proof.
  intros Hd. unfold findBlockPairs. rewrite findBlockPairs_loop by done.
  pose proof (scan_paired direction (scanOrder direction blocks) None ([], [])) as H.
  destruct (scan direction None (scanOrder direction blocks) ([], []))
    as [bp paired]. cbn [snd hasBlockPairs] in *.
  change (adjacentEqual (None :: scanOrder direction blocks))
    with (adjacentEqual (scanOrder direction blocks)) in H.
  destruct (adjacentEqual (scanOrder direction blocks)).
  - destruct paired; [|done]. destruct H as [H _]. by destruct H.
  - destruct H as [_ H]. by rewrite H.
Qed.

Lemma adjacentEqual_neighbours (bs : list Block.t) :
  adjacentEqual (Some <$> bs) = true <-> hasEqualNeighbours bs.
Proof.
  unfold hasEqualNeighbours. induction bs as [|a bs IH].
  - split; [done|]. by intros (j & x & y & H & _).
  - rewrite fmap_cons. cbn [adjacentEqual]. destruct bs as [|b bs].
    + split; [done|]. intros (j & x & y & _ & H & _). by destruct j.
    + rewrite fmap_cons. rewrite fmap_cons in IH. rewrite orb_true_iff, IH.
      rewrite Z.eqb_eq. split.
      * intros [Hv|(j & x & y & Hx & Hy & Hv)].
        -- by exists 0%nat, a, b.
        -- by exists (S j), x, y.
      * intros (j & x & y & Hx & Hy & Hv). destruct j as [|j].
        -- left. simpl in *. congruence.
        -- right. by exists j, x, y.
Qed.

Lemma hasEqualNeighbours_reverse (bs : list Block.t) :
  hasEqualNeighbours (reverse bs) <-> hasEqualNeighbours bs.
Proof.
  assert (forall l, hasEqualNeighbours l -> hasEqualNeighbours (reverse l)) as Hone.
  { intros l (j & a & b & Ha & Hb & Hv).
    pose proof (lookup_lt_Some _ _ _ Hb) as Hlen.
    exists (length l - S (S j))%nat, b, a. split; [|split; [|done]].
    - rewrite reverse_lookup by lia. rewrite <- Hb. f_equal. lia.
    - rewrite reverse_lookup by lia. rewrite <- Ha. f_equal. lia. }
  split; [|apply Hone]. intros H. rewrite <- (reverse_involutive bs). by apply Hone.
Qed.

(** the pairing scan finds a pair in a full line exactly when two of its
    neighbours have equal values *)
Lemma hasBlockPairs_neighbours direction (bs : list Block.t) :
  direction = 1 \/ direction = -1 ->
  hasBlockPairs (findBlockPairs direction (Some <$> bs)) = true <->
  hasEqualNeighbours bs.
Proof.
  intros Hd. rewrite hasBlockPairs_adjacentEqual by done. unfold scanOrder.
  destruct (direction =? 1).
  - rewrite <- fmap_reverse, adjacentEqual_neighbours. apply hasEqualNeighbours_reverse.
  - apply adjacentEqual_neighbours.
Qed.

(** ** [hasLost] *)

Lemma bind_ok {A B} (m : M A) (k : A -> M B) h a h' :
  m h = (Ok a, h') -> bind m k h = k a h'.
Proof. intros Hm. unfold bind. by rewrite Hm. Qed.

Lemma bind_throw {A B} (m : M A) (k : A -> M B) h f h' :
  m h = (Throw f, h') -> bind m k h = (Throw f, h').
Proof. intros Hm. unfold bind. by rewrite Hm. Qed.

Lemma mapM_pure {A B} (f : A -> M B) (g : A -> B) (l : list A) h :
  (forall a, a ∈ l -> f a h = (Ok (g a), h)) ->
  mapM f l h = (Ok (g <$> l), h).
Proof.
  induction l as [|a l IH]; intros Hf; [done|].
  cbn [mapM]. rewrite (bind_ok _ _ h (g a) h) by (apply Hf; left).
  rewrite (bind_ok _ _ h (g <$> l) h); [done|].
  apply IH. intros a' Ha'. apply Hf. by right.
Qed.

Lemma readCell_ok h a c :
  Heap.cells h !! a = Some c -> readCell (Some a) h = (Ok c, h).
Proof. intros Hc. unfold readCell. by rewrite Hc. Qed.

Lemma pluckBlocks_slots h (slots : Cells) :
  Forall (slot_ok h) slots ->
  pluckBlocks slots h = (Ok (blockOfSlot h <$> slots), h).
Proof.
  intros Hok. apply mapM_pure. intros slot Hslot.
  rewrite Forall_forall in Hok. destruct (Hok slot Hslot) as (a & c & -> & Hc).
  rewrite (bind_ok _ _ h c h) by (by apply readCell_ok).
  unfold ret. simpl. by rewrite Hc.
Qed.

Lemma wf_column_ok h g (x : Z) :
  wf h g -> 0 <= x < Grid.size g -> Forall (slot_ok h) (getColumnAt x g).
Proof.
  intros [Hsize Hrows] Hx. unfold getColumnAt. apply Forall_forall.
  intros slot Hslot. apply list_elem_of_fmap in Hslot as (row & -> & Hrow).
  rewrite Forall_forall in Hrows. destruct (Hrows row Hrow) as [Hlen Hslots].
  destruct (js_get_inside row x) as [s Hs]; [lia|]. rewrite Hs.
  apply js_get_Some in Hs as [_ Hs]. rewrite Forall_forall in Hslots.
  simpl. apply Hslots. eapply list_elem_of_lookup_2, Hs.
Qed.

Lemma blockAt_slot h g p row :
  js_get (Grid.rows g) (Vector.y p) = Some row ->
  blockAt h g p = blockOfSlot h (mjoin (js_get row (Vector.x p))).
Proof.
  intros Hrow. unfold blockAt, cellAt, getCellAt. rewrite Hrow.
  by destruct (mjoin (js_get row (Vector.x p))).
Qed.

Lemma columnBlocks_slots h g (x : Z) :
  wf h g -> columnBlocks h g x = blockOfSlot h <$> getColumnAt x g.
Proof.
  intros [Hsize Hrows]. unfold columnBlocks, getColumnAt.
  apply list_eq. intros i. rewrite !list_lookup_fmap.
  destruct (Grid.rows g !! i) as [row|] eqn:Hrow.
  - rewrite lookup_seqZ_lt.
    2:{ apply lookup_lt_Some in Hrow. lia. }
    rewrite Z.add_0_l. simpl. f_equal. rewrite (blockAt_slot h g _ row); [done|].
    simpl. by rewrite js_get_lookup.
  - rewrite lookup_seqZ_ge; [done|]. apply lookup_ge_None in Hrow. lia.
Qed.

Lemma rowBlocks_slots h g (y : Z) row :
  wf h g -> js_get (Grid.rows g) y = Some row ->
  rowBlocks h g y = blockOfSlot h <$> row.
Proof.
  intros [Hsize Hrows] Hrow. unfold rowBlocks.
  assert (length row = length (Grid.rows g)) as Hlen.
  { rewrite Forall_forall in Hrows. apply Hrows.
    apply js_get_Some in Hrow as [_ Hrow]. eapply list_elem_of_lookup_2, Hrow. }
  apply list_eq. intros i. rewrite !list_lookup_fmap.
  destruct (row !! i) as [slot|] eqn:Hslot.
  - rewrite lookup_seqZ_lt.
    2:{ apply lookup_lt_Some in Hslot. lia. }
    rewrite Z.add_0_l. cbn [fmap option_fmap option_map]. f_equal.
    rewrite (blockAt_slot h g _ row); [|done].
    cbn [Vector.x]. by rewrite js_get_lookup, Hslot.
  - rewrite lookup_seqZ_ge; [done|]. apply lookup_ge_None in Hslot. lia.
Qed.

Lemma existsM_pure {A} (f : A -> M bool) (P : A -> bool) (l : list A) h :
  (forall a, a ∈ l -> f a h = (Ok (P a), h)) ->
  existsM f l h = (Ok (existsb P l), h).
Proof.
  induction l as [|a l IH]; intros Hf; [done|].
  cbn [existsM existsb]. unfold bind. rewrite Hf by left.
  destruct (P a); [done|]. apply IH. intros a' Ha'. apply Hf. by right.
Qed.

Lemma hasLost_eq h g :
  wf h g ->
  hasLost g h =
    (Ok (Nat.eqb (length (List.filter (emptyAt h g) (cellPositions (Grid.size g)))) 0
         && negb (existsb (fun x => hasBlockPairs (findBlockPairs 1 (columnBlocks h g x)))
                          (seqZ 0 (Grid.size g)))
         && negb (existsb (fun y => hasBlockPairs (findBlockPairs 1 (rowBlocks h g y)))
                          (seqZ 0 (Grid.size g)))), h).
Proof.
  intros Hwf. unfold hasLost. unfold bind at 1.
  rewrite findEmptyCellPositions_spec by done.
  destruct (Nat.eqb (length _) 0); [|done]. cbn [negb andb].
  unfold bind at 1.
  rewrite (existsM_pure _
             (fun x => hasBlockPairs (findBlockPairs 1 (columnBlocks h g x)))).
  2:{ intros x Hx. apply elem_of_seqZ in Hx. unfold bind.
      rewrite pluckBlocks_slots by (apply wf_column_ok; [done|lia]).
      by rewrite columnBlocks_slots. }
  destruct (existsb _ _); [done|]. cbn [negb andb].
  unfold bind at 1.
  rewrite (existsM_pure _
             (fun y => hasBlockPairs (findBlockPairs 1 (rowBlocks h g y)))).
  2:{ intros y Hy. apply elem_of_seqZ in Hy.
      destruct (wf_row h g y Hwf) as (row & Hrow & Hlen & Hok); [lia|].
      unfold getRowAt. rewrite Hrow. unfold bind.
      rewrite pluckBlocks_slots by done. by rewrite (rowBlocks_slots h g y row). }
  by destruct (existsb _ _).
Qed.

Lemma existsb_false {A} (P : A -> bool) (l : list A) :
  existsb P l = false <-> forall a, a ∈ l -> P a = false.
Proof.
  induction l as [|a l IH]; simpl.
  - split; [|done]. intros _ a Ha. by apply elem_of_nil in Ha.
  - rewrite orb_false_iff, IH. split.
    + intros [Ha Hl] a' Ha'. apply elem_of_cons in Ha' as [->|Ha']; [done|by apply Hl].
    + intros H. split; [apply H; left|]. intros a' Ha'. apply H. by right.
Qed.

Lemma filter_nil_iff {A} (P : A -> bool) (l : list A) :
  Nat.eqb (length (List.filter P l)) 0 = true <-> forall a, a ∈ l -> P a = false.
Proof.
  rewrite Nat.eqb_eq. induction l as [|a l IH]; simpl.
  - split; [|done]. intros _ a Ha. by apply elem_of_nil in Ha.
  - destruct (P a) eqn:Ha; simpl.
    + split; [done|]. intros H. specialize (H a). rewrite Ha in H.
      discriminate H. left.
    + rewrite IH. split.
      * intros Hl a' Ha'. apply elem_of_cons in Ha' as [->|Ha']; [done|by apply Hl].
      * intros H a' Ha'. apply H. by right.
Qed.

Lemma full_line (l : list (option Block.t)) :
  (forall o, o ∈ l -> o <> None) -> l = Some <$> omap (fun b => b) l.
Proof.
  induction l as [|o l IH]; intros Hfull; [done|].
  destruct o as [b|]; [|by destruct (Hfull None); [left|]].
  simpl. f_equal. apply IH. intros o Ho. apply Hfull. by right.
Qed.

Lemma full_board_blockAt h g p :
  wf h g ->
  (forall p c, inside g p -> cellAt h g p = Some c -> Cell.block c <> None) ->
  inside g p -> blockAt h g p <> None.
Proof.
  intros Hwf Hfull Hp. destruct (wf_cellAt h g p Hwf Hp) as [c Hc].
  unfold blockAt. rewrite Hc. by apply (Hfull p).
Qed.

Lemma full_board_column h g x :
  wf h g ->
  (forall p c, inside g p -> cellAt h g p = Some c -> Cell.block c <> None) ->
  0 <= x < Grid.size g ->
  columnBlocks h g x = Some <$> omap (fun b => b) (columnBlocks h g x).
Proof.
  intros Hwf Hfull Hx. apply full_line. intros o Ho.
  apply list_elem_of_fmap in Ho as (y & -> & Hy). apply elem_of_seqZ in Hy.
  apply full_board_blockAt; [done|done|]. unfold inside. simpl. lia.
Qed.

Lemma full_board_row h g y :
  wf h g ->
  (forall p c, inside g p -> cellAt h g p = Some c -> Cell.block c <> None) ->
  0 <= y < Grid.size g ->
  rowBlocks h g y = Some <$> omap (fun b => b) (rowBlocks h g y).
Proof.
  intros Hwf Hfull Hy. apply full_line. intros o Ho.
  apply list_elem_of_fmap in Ho as (x & -> & Hx). apply elem_of_seqZ in Hx.
  apply full_board_blockAt; [done|done|]. unfold inside. simpl. lia.
Qed.

Lemma hasLost_true_iff h g :
  wf h g ->
  hasLost g h = (Ok true, h) <->
  (forall p c, inside g p -> cellAt h g p = Some c -> Cell.block c <> None) /\
  (forall x, 0 <= x < Grid.size g ->
             hasBlockPairs (findBlockPairs 1 (columnBlocks h g x)) = false) /\
  (forall y, 0 <= y < Grid.size g ->
             hasBlockPairs (findBlockPairs 1 (rowBlocks h g y)) = false).
Proof.
  intros Hwf. rewrite hasLost_eq by done.
  assert (forall b : bool, (Ok b, h) = (Ok true, h) <-> b = true) as ->.
  { intros b. split; [by intros [= ->]|by intros ->]. }
  rewrite !andb_true_iff, !negb_true_iff, filter_nil_iff, !existsb_false.
  assert ((forall p, p ∈ cellPositions (Grid.size g) -> emptyAt h g p = false) <->
          (forall p c, inside g p -> cellAt h g p = Some c -> Cell.block c <> None))
    as ->.
  { split.
    - intros H p c Hp Hc Hb. specialize (H p). unfold emptyAt, isEmpty in H.
      rewrite Hc, Hb in H. discriminate H. by apply elem_of_cellPositions.
    - intros H p Hp. apply elem_of_cellPositions in Hp. unfold emptyAt, isEmpty.
      destruct (cellAt h g p) as [c|] eqn:Hc; [|done].
      specialize (H p c Hp Hc). by destruct (Cell.block c). }
  assert (forall P : Z -> bool,
            (forall a, a ∈ seqZ 0 (Grid.size g) -> P a = false) <->
            (forall a, 0 <= a < Grid.size g -> P a = false)) as Hrange.
  { intros P. split; intros H a Ha; apply H.
    - apply elem_of_seqZ. lia.
    - apply elem_of_seqZ in Ha. lia. }
  rewrite !Hrange. tauto.
Qed.

(** C2.  On a well-formed grid [hasLost] returns.  It returns false when
    some cell is empty, and when the blocks of some column or of some row,
    gaps closed, contain two neighbours of equal value.  It returns true
    exactly when every cell is full and no column and no row holds two
    neighbours of equal value; and that is exactly when every cell is full
    and the pairing scan of the code finds no pair in any column nor in any
    row. *)
Theorem hasLost_iff_full_and_no_pair h g :
  wf h g ->
  exists b,
    hasLost g h = (Ok b, h) /\
    ((exists p c, inside g p /\ cellAt h g p = Some c /\ Cell.block c = None) ->
     b = false) /\
    ((exists x, 0 <= x < Grid.size g /\
                hasEqualNeighbours (omap (fun b => b) (columnBlocks h g x))) ->
     b = false) /\
    ((exists y, 0 <= y < Grid.size g /\
                hasEqualNeighbours (omap (fun b => b) (rowBlocks h g y))) ->
     b = false) /\
    (b = true <->
     (forall p c, inside g p -> cellAt h g p = Some c -> Cell.block c <> None) /\
     (forall x, 0 <= x < Grid.size g ->
                ~ hasEqualNeighbours (omap (fun b => b) (columnBlocks h g x))) /\
     (forall y, 0 <= y < Grid.size g ->
                ~ hasEqualNeighbours (omap (fun b => b) (rowBlocks h g y)))) /\
    (b = true <->
     (forall p c, inside g p -> cellAt h g p = Some c -> Cell.block c <> None) /\
     (forall x, 0 <= x < Grid.size g ->
                hasBlockPairs (findBlockPairs 1 (columnBlocks h g x)) = false) /\
     (forall y, 0 <= y < Grid.size g ->
                hasBlockPairs (findBlockPairs 1 (rowBlocks h g y)) = false)).
Proof.
  intros Hwf. pose proof (hasLost_true_iff h g Hwf) as Htrue.
  pose proof (hasLost_eq h g Hwf) as Heq. revert Htrue Heq.
  generalize (Nat.eqb (length (List.filter (emptyAt h g) (cellPositions (Grid.size g)))) 0
         && negb (existsb (fun x => hasBlockPairs (findBlockPairs 1 (columnBlocks h g x)))
                          (seqZ 0 (Grid.size g)))
         && negb (existsb (fun y => hasBlockPairs (findBlockPairs 1 (rowBlocks h g y)))
                          (seqZ 0 (Grid.size g)))).
  intros b Htrue Heq. exists b. split; [done|]. rewrite Heq in Htrue.
  assert (b = true <->
          (forall p c, inside g p -> cellAt h g p = Some c -> Cell.block c <> None) /\
          (forall x, 0 <= x < Grid.size g ->
                     hasBlockPairs (findBlockPairs 1 (columnBlocks h g x)) = false) /\
          (forall y, 0 <= y < Grid.size g ->
                     hasBlockPairs (findBlockPairs 1 (rowBlocks h g y)) = false))
    as Hiff.
  { rewrite <- Htrue. split; [by intros ->|by intros [= ->]]. }
  assert (forall bs : list Block.t,
            hasBlockPairs (findBlockPairs 1 (Some <$> bs)) = false <->
            ~ hasEqualNeighbours bs) as Hscan.
  { intros bs. rewrite <- (hasBlockPairs_neighbours 1) by (by left).
    by destruct (hasBlockPairs _). }
  split; [|split; [|split; [|split; [|done]]]].
  - intros (p & c & Hp & Hc & Hb). destruct b; [|done].
    destruct Hiff as [Hiff _]. destruct (Hiff eq_refl) as (Hfull & _).
    by destruct (Hfull p c Hp Hc).
  - intros (x & Hx & Hn). destruct b; [|done].
    destruct Hiff as [Hiff _]. destruct (Hiff eq_refl) as (Hfull & Hcol & _).
    specialize (Hcol x Hx). rewrite (full_board_column h g x) in Hcol by done.
    apply (hasBlockPairs_neighbours 1) in Hn; [|by left]. congruence.
  - intros (y & Hy & Hn). destruct b; [|done].
    destruct Hiff as [Hiff _]. destruct (Hiff eq_refl) as (Hfull & _ & Hrow).
    specialize (Hrow y Hy). rewrite (full_board_row h g y) in Hrow by done.
    apply (hasBlockPairs_neighbours 1) in Hn; [|by left]. congruence.
  - rewrite Hiff. split.
    + intros (Hfull & Hcol & Hrow). split; [done|]. split.
      * intros x Hx. apply Hscan. rewrite <- full_board_column by done. by apply Hcol.
      * intros y Hy. apply Hscan. rewrite <- full_board_row by done. by apply Hrow.
    + intros (Hfull & Hcol & Hrow). split; [done|]. split.
      * intros x Hx. rewrite (full_board_column h g x) by done. apply Hscan. by apply Hcol.
      * intros y Hy. rewrite (full_board_row h g y) by done. apply Hscan. by apply Hrow.
Qed.

Lemma hasLost_iff_full_and_no_pair_witness :
  hasLost grid_2x2 heap_lost2 = (Ok true, heap_lost2) /\
  hasLost grid_2x2 heap_full2 = (Ok false, heap_full2).
Proof.
  split.
  - destruct (hasLost_iff_full_and_no_pair heap_lost2 grid_2x2)
      as (b & Heq & _ & _ & _ & Hiff & _); [wf_closed|].
    rewrite Heq. assert (b = true) as ->; [|reflexivity].
    apply Hiff. split; [|split].
    + intros [x y] c [Hx Hy] Hc. simpl in Hx, Hy.
      assert (x = 0 \/ x = 1) as [-> | ->] by lia;
        (assert (y = 0 \/ y = 1) as [-> | ->] by lia);
        injection Hc as <-; discriminate.
    + intros x Hx (j & a & c & Ha & Hc & Hv). simpl in Hx.
      assert (x = 0 \/ x = 1) as [-> | ->] by lia;
        (destruct j as [|[|j]]; try discriminate Hc);
        injection Ha as <-; injection Hc as <-; discriminate Hv.
    + intros y Hy (j & a & c & Ha & Hc & Hv). simpl in Hy.
      assert (y = 0 \/ y = 1) as [-> | ->] by lia;
        (destruct j as [|[|j]]; try discriminate Hc);
        injection Ha as <-; injection Hc as <-; discriminate Hv.
  - destruct (hasLost_iff_full_and_no_pair heap_full2 grid_2x2)
      as (b & Heq & _ & Hcol & _); [wf_closed|].
    rewrite Heq. rewrite Hcol; [reflexivity|].
    exists 0. split; [simpl; lia|].
    eexists 0%nat, _, _. split; [reflexivity|]. split; reflexivity.
Defined.

(** ** The merge resolver *)

Lemma render_scanOrder direction (gs : list Group) :
  scanOrder direction (render direction <$> gs) =
  render direction <$> scanOrder direction gs.
Proof. unfold scanOrder. destruct (direction =? 1); [by rewrite fmap_reverse|done]. Qed.

Lemma js_get_fmap {A B} (f : A -> B) (l : list A) (i : Z) :
  js_get (f <$> l) i = f <$> js_get l i.
Proof. unfold js_get. destruct (i <? 0); [done|]. apply list_lookup_fmap. Qed.

Lemma resolveCell_group direction (gs : list Group) cellCount cellsLength index h :
  direction = 1 \/ direction = -1 ->
  exists c r,
    resolveCell direction (render direction <$> gs) cellCount cellsLength index h =
      (Ok (Some (length (Heap.cells h))),
       {| Heap.cells := Heap.cells h ++ [c]; Heap.nextRef := r |}) /\
    cellOfGroup (js_get gs (blockPairIndex direction cellCount cellsLength index)) c.
Proof.
  intros Hd. unfold resolveCell. fold (blockPairIndex direction cellCount cellsLength index).
  rewrite js_get_fmap.
  destruct (js_get gs (blockPairIndex direction cellCount cellsLength index))
    as [[a|a b]|]; cbn [fmap option_fmap option_map render].
  - eexists _, _. split; reflexivity.
  - assert ((if direction =? 1
             then reverse (if direction =? 1 then [a; b] else [b; a])
             else if direction =? 1 then [a; b] else [b; a]) = [b; a]) as Hpair.
    { by destruct Hd as [-> | ->]. }
    assert (Nat.eqb (length (if direction =? 1 then [a; b] else [b; a])) 1 = false) as ->.
    { by destruct (direction =? 1). }
    rewrite Hpair. eexists _, _. split; [reflexivity|].
    cbn [cellOfGroup]. eexists. cbn [Cell.block Cell.mergedBlock].
    split; [reflexivity|]. by cbn.
  - eexists _, _. split; reflexivity.
Qed.

Lemma mapM_resolveCell direction (gs : list Group) cellCount cellsLength indexes :
  direction = 1 \/ direction = -1 ->
  forall h,
  exists cs r,
    mapM (resolveCell direction (render direction <$> gs) cellCount cellsLength)
         indexes h =
      (Ok (Some <$> seq (length (Heap.cells h)) (length indexes)),
       {| Heap.cells := Heap.cells h ++ cs; Heap.nextRef := r |}) /\
    Forall2 (fun index c =>
               cellOfGroup
                 (js_get gs (blockPairIndex direction cellCount cellsLength index)) c)
            indexes cs.
Proof.
  intros Hd. induction indexes as [|index indexes IH]; intros h.
  - exists [], (Heap.nextRef h). split; [|constructor].
    cbn. rewrite app_nil_r. by destruct h.
  - destruct (resolveCell_group direction gs cellCount cellsLength index h Hd)
      as (c & r & Hcell & Hc).
    destruct (IH {| Heap.cells := Heap.cells h ++ [c]; Heap.nextRef := r |})
      as (cs & r' & Hrest & Hcs).
    exists (c :: cs), r'. split; [|by constructor].
    cbn [mapM]. rewrite (bind_ok _ _ _ _ _ Hcell). rewrite (bind_ok _ _ _ _ _ Hrest).
    unfold ret. cbn [Heap.cells length seq fmap list_fmap].
    rewrite length_app, <- app_assoc. cbn [length app].
    by replace (length (Heap.cells h) + 1)%nat with (S (length (Heap.cells h))) by lia.
Qed.

(** the resolver on a line of cells that holds at least one block, all
    blocks being distinct objects *)
Lemma resolveColumnOrRowInDirection_groups direction (cells : Cells) h :
  direction = 1 \/ direction = -1 ->
  Forall (slot_ok h) cells ->
  NoDup (Block.ref <$> omap (fun b => b) (blockOfSlot h <$> cells)) ->
  omap (fun b => b) (blockOfSlot h <$> cells) <> [] ->
  exists cs r,
    resolveColumnOrRowInDirection direction cells h =
      (Ok (Some <$> seq (length (Heap.cells h)) (length cells)),
       {| Heap.cells := Heap.cells h ++ cs; Heap.nextRef := r |}) /\
    Forall2 (fun index c =>
               cellOfGroup
                 (js_get (scanOrder direction
                            (greedy (scanOrder direction
                               (omap (fun b => b) (blockOfSlot h <$> cells)))))
                    (blockPairIndex direction
                       (Z.of_nat (length (greedy (scanOrder direction
                               (omap (fun b => b) (blockOfSlot h <$> cells))))))
                       (Z.of_nat (length cells)) index)) c)
            (seqZ 0 (Z.of_nat (length cells))) cs.
Proof.
  intros Hd Hok Hnd Hne. unfold resolveColumnOrRowInDirection.
  rewrite (bind_ok _ _ _ _ _ (pluckBlocks_slots h cells Hok)).
  remember (omap (fun b => b) (blockOfSlot h <$> cells)) as bs eqn:Hbs.
  destruct (Nat.eqb_spec (length bs) 0) as [Hlen|_].
  { by destruct bs. }
  rewrite findBlockPairs_greedy by done. cbn [blockPairs].
  rewrite render_scanOrder, length_fmap, scanOrder_length.
  destruct (mapM_resolveCell direction (scanOrder direction (greedy (scanOrder direction bs)))
              (Z.of_nat (length (greedy (scanOrder direction bs))))
              (Z.of_nat (length cells))
              (seqZ 0 (Z.of_nat (length cells))) Hd h) as (cs & r & Hmap & Hcs).
  exists cs, r. rewrite Hmap. rewrite length_seqZ, Nat2Z.id. by split.
Qed.

Lemma neighbours_in_scanOrder direction (bs : list Block.t) j first second :
  direction = 1 \/ direction = -1 ->
  scanOrder direction bs !! j = Some first ->
  scanOrder direction bs !! S j = Some second ->
  exists k lo hi,
    bs !! k = Some lo /\ bs !! S k = Some hi /\
    nearer direction lo hi = first /\ farther direction lo hi = second.
Proof.
  intros Hd H1 H2. unfold scanOrder, nearer, farther in *.
  destruct Hd as [-> | ->]; cbn [Z.eqb Pos.eqb] in *; cbv iota in *.
  - apply reverse_lookup_Some in H1 as [H1 Hj1]. apply reverse_lookup_Some in H2 as [H2 Hj2].
    exists (length bs - S (S j))%nat, second, first. split; [done|]. split; [|done].
    rewrite <- H1. f_equal. lia.
  - by exists j, first, second.
Qed.

(** C1 (what the code does).  On a line of cells that holds at least one
    block, all blocks being distinct objects, and for a direction sign +1 or
    -1, the resolver returns a line of the same length, and every cell of it
    that carries a merged block comes from two neighbours [lo], [hi] of the
    compacted line with equal values: the value of its block is the sum of
    the two values, as the claim says, but the id of its block is the id of
    the member FARTHER from the destination edge and its merged block is
    the member NEARER the destination edge, the claim's two members
    exchanged.  [findBlockPairs] stores every pair as [higher index, lower
    index], for either direction, where its comment asks for the original
    order; with the original order the resolver, which reverses a pair for
    direction 1, would take the nearer member as the base block. *)
Theorem merged_cell_keeps_farther_block direction (cells : Cells) h :
  direction = 1 \/ direction = -1 ->
  Forall (slot_ok h) cells ->
  NoDup (Block.ref <$> omap (fun b => b) (blockOfSlot h <$> cells)) ->
  omap (fun b => b) (blockOfSlot h <$> cells) <> [] ->
  exists cells' h',
    resolveColumnOrRowInDirection direction cells h = (Ok cells', h') /\
    length cells' = length cells /\
    forall slot c,
      slot ∈ cells' -> cellOfSlot h' slot = Some c -> Cell.mergedBlock c <> None ->
      exists j lo hi,
        omap (fun b => b) (blockOfSlot h <$> cells) !! j = Some lo /\
        omap (fun b => b) (blockOfSlot h <$> cells) !! S j = Some hi /\
        Block.value lo = Block.value hi /\
        mergedInto (farther direction lo hi) (nearer direction lo hi) c.
Proof.
  intros Hd Hok Hnd Hne.
  destruct (resolveColumnOrRowInDirection_groups direction cells h Hd Hok Hnd Hne)
    as (cs & r & Hres & Hcs).
  set (bs := omap (fun b => b) (blockOfSlot h <$> cells)) in *.
  eexists _, _. split; [exact Hres|]. split; [by rewrite length_fmap, length_seq|].
  intros slot c Hslot Hc Hm.
  apply list_elem_of_fmap in Hslot as (a & -> & Ha). apply elem_of_seq in Ha.
  cbn [cellOfSlot Heap.cells] in Hc. rewrite lookup_app_r in Hc by lia.
  destruct (Forall2_lookup_r _ _ _ _ _ Hcs Hc) as (index & _ & Hgroup).
  destruct (js_get _ _) as [[x|first second]|] eqn:Hg in Hgroup;
    cbn [cellOfGroup] in Hgroup; try (subst c; by destruct Hm).
  apply js_get_Some in Hg as [_ Hg]. apply list_elem_of_lookup_2 in Hg.
  rewrite scanOrder_perm in Hg. apply greedy_pair_adjacent in Hg as (j & H1 & H2 & Hv).
  destruct (neighbours_in_scanOrder direction bs j first second Hd H1 H2)
    as (k & lo & hi & Hlo & Hhi & Hnear & Hfar).
  exists k, lo, hi. split; [done|]. split; [done|]. split.
  - unfold nearer, farther in *. destruct (direction =? 1); congruence.
  - by rewrite Hnear, Hfar.
Qed.

Lemma merged_cell_keeps_farther_block_witness :
  exists cells' h',
    resolveColumnOrRowInDirection (-1) line_pair heap_pair = (Ok cells', h') /\
    length cells' = length line_pair /\
    forall slot c,
      slot ∈ cells' -> cellOfSlot h' slot = Some c -> Cell.mergedBlock c <> None ->
      exists j lo hi,
        omap (fun b => b) (blockOfSlot heap_pair <$> line_pair) !! j = Some lo /\
        omap (fun b => b) (blockOfSlot heap_pair <$> line_pair) !! S j = Some hi /\
        Block.value lo = Block.value hi /\
        mergedInto (farther (-1) lo hi) (nearer (-1) lo hi) c.
Proof.
  apply merged_cell_keeps_farther_block.
  - by right.
  - repeat constructor; eexists _, _; split; reflexivity.
  - simpl. repeat (apply NoDup_cons_2; [rewrite ?not_elem_of_cons, ?elem_of_nil; intuition lia|]).
    apply NoDup_nil_2.
  - discriminate.
Defined.

(** C1 at a concrete line.  Moving the line ["a":2, "b":2] toward the low
    edge, block "a" is the member nearer the destination edge; the merged
    cell holds a block of value 4 whose id is "b", and its merged block is
    "a" itself. *)
Lemma merged_cell_not_named_after_nearer_block :
  resolveColumnOrRowInDirection (-1) line_pair heap_pair =
    (Ok [Some 2%nat; Some 3%nat],
     {| Heap.cells := [cell_of two_a; cell_of two_b; merged_ab; makeEmptyCell];
        Heap.nextRef := 5%nat |}) /\
  nearer (-1) two_a two_b = two_a /\
  ~ mergedInto (nearer (-1) two_a two_b) (farther (-1) two_a two_b) merged_ab.
Proof.
  split; [reflexivity|]. split; [reflexivity|].
  intros (b & Hb & Hid & _). cbn in Hb. injection Hb as <-. discriminate Hid.
Qed.

(** ** The resolver never fails on a well-formed grid *)

Lemma addToBlockPairs_sizes direction pair bp :
  Forall (fun g : list Block.t => length g = 1%nat \/ length g = 2%nat) bp ->
  length pair = 1%nat \/ length pair = 2%nat ->
  Forall (fun g : list Block.t => length g = 1%nat \/ length g = 2%nat)
         (addToBlockPairs direction pair bp).
Proof.
  intros Hbp Hpair. unfold addToBlockPairs. destruct (direction =? 1).
  - by apply Forall_cons.
  - apply Forall_app. split; [done|]. by apply Forall_singleton.
Qed.

Lemma findBlockPairs_visit_sizes direction block lastBlock st :
  Forall (fun g : list Block.t => length g = 1%nat \/ length g = 2%nat) (fst st) ->
  Forall (fun g : list Block.t => length g = 1%nat \/ length g = 2%nat)
         (fst (findBlockPairs_visit direction block lastBlock st)).
Proof.
  destruct st as [bp paired]. intros Hbp. unfold findBlockPairs_visit.
  destruct lastBlock as [lb|]; [|done].
  destruct (includes paired lb); [done|].
  destruct block as [b|].
  - destruct (Block.value b =? Block.value lb); cbn [fst];
      apply addToBlockPairs_sizes; try done; [|by left].
    right. by destruct (direction =? 1).
  - cbn [fst]. apply addToBlockPairs_sizes; [done|by left].
Qed.

(** whatever the direction and the line, a group holds one or two blocks *)
Lemma findBlockPairs_sizes direction blocks :
  Forall (fun g : list Block.t => length g = 1%nat \/ length g = 2%nat)
         (blockPairs (findBlockPairs direction blocks)).
Proof.
  unfold findBlockPairs.
  assert (forall l st,
            Forall (fun g : list Block.t => length g = 1%nat \/ length g = 2%nat) (fst st) ->
            Forall (fun g : list Block.t => length g = 1%nat \/ length g = 2%nat)
                   (fst (foldl (findBlockPairs_iter direction blocks) st l))) as Hfold.
  { induction l as [|i l IH]; intros st Hst; [done|].
    cbn [foldl]. apply IH. unfold findBlockPairs_iter.
    by apply findBlockPairs_visit_sizes. }
  specialize (Hfold (seqZ 0 (Z.of_nat (length blocks) + 1)) ([], [])).
  destruct (foldl _ _ _) as [bp paired]. cbn [blockPairs]. apply Hfold. constructor.
Qed.

Lemma resolveCell_total direction blockPairs cellCount cellsLength index h :
  Forall (fun g : list Block.t => length g = 1%nat \/ length g = 2%nat) blockPairs ->
  exists c r,
    resolveCell direction blockPairs cellCount cellsLength index h =
      (Ok (Some (length (Heap.cells h))),
       {| Heap.cells := Heap.cells h ++ [c]; Heap.nextRef := r |}).
Proof.
  intros Hsizes. unfold resolveCell.
  destruct (js_get blockPairs _) as [group|] eqn:Hgroup.
  - apply js_get_Some in Hgroup as [_ Hgroup]. apply list_elem_of_lookup_2 in Hgroup.
    rewrite Forall_forall in Hsizes. destruct (Hsizes group Hgroup) as [Hlen|Hlen].
    + rewrite Hlen. cbn [Nat.eqb]. by eexists _, _.
    + rewrite Hlen. cbn [Nat.eqb]. destruct group as [|a [|b [|? ?]]]; try done.
      destruct (direction =? 1); by eexists _, _.
  - by eexists _, _.
Qed.

Lemma mapM_resolveCell_total direction blockPairs cellCount cellsLength indexes :
  Forall (fun g : list Block.t => length g = 1%nat \/ length g = 2%nat) blockPairs ->
  forall h,
  exists cs r,
    mapM (resolveCell direction blockPairs cellCount cellsLength) indexes h =
      (Ok (Some <$> seq (length (Heap.cells h)) (length indexes)),
       {| Heap.cells := Heap.cells h ++ cs; Heap.nextRef := r |}) /\
    length cs = length indexes.
Proof.
  intros Hsizes. induction indexes as [|index indexes IH]; intros h.
  - exists [], (Heap.nextRef h). split; [|done].
    cbn. rewrite app_nil_r. by destruct h.
  - destruct (resolveCell_total direction blockPairs cellCount cellsLength index h Hsizes)
      as (c & r & Hcell).
    destruct (IH {| Heap.cells := Heap.cells h ++ [c]; Heap.nextRef := r |})
      as (cs & r' & Hrest & Hlen).
    exists (c :: cs), r'. split; [|by cbn [length]; rewrite Hlen].
    cbn [mapM]. rewrite (bind_ok _ _ _ _ _ Hcell). rewrite (bind_ok _ _ _ _ _ Hrest).
    unfold ret. cbn [Heap.cells length seq fmap list_fmap].
    rewrite length_app, <- app_assoc. cbn [length app].
    by replace (length (Heap.cells h) + 1)%nat with (S (length (Heap.cells h))) by lia.
Qed.

Lemma slot_ok_extend h cs r slot :
  slot_ok h slot ->
  slot_ok {| Heap.cells := Heap.cells h ++ cs; Heap.nextRef := r |} slot.
Proof.
  intros (a & c & -> & Hc). exists a, c. split; [done|].
  cbn [Heap.cells]. by apply lookup_app_l_Some.
Qed.

Lemma wf_extend h cs r g :
  wf h g -> wf {| Heap.cells := Heap.cells h ++ cs; Heap.nextRef := r |} g.
Proof.
  intros [Hsize Hrows]. split; [done|].
  eapply Forall_impl; [exact Hrows|]. intros row [Hlen Hslots]. split; [done|].
  eapply Forall_impl; [exact Hslots|]. intros slot. apply slot_ok_extend.
Qed.

(** on cells that exist the resolver returns a line of as many cells, new
    ones or the same ones, and only adds objects to the heap *)
Lemma resolveColumnOrRowInDirection_total direction (cells : Cells) h :
  Forall (slot_ok h) cells ->
  exists cells' cs r,
    resolveColumnOrRowInDirection direction cells h =
      (Ok cells', {| Heap.cells := Heap.cells h ++ cs; Heap.nextRef := r |}) /\
    length cells' = length cells /\
    Forall (slot_ok {| Heap.cells := Heap.cells h ++ cs; Heap.nextRef := r |}) cells'.
Proof.
  intros Hok. unfold resolveColumnOrRowInDirection.
  rewrite (bind_ok _ _ _ _ _ (pluckBlocks_slots h cells Hok)).
  destruct (Nat.eqb _ 0).
  - exists cells, [], (Heap.nextRef h). unfold ret. rewrite app_nil_r.
    split; [by destruct h|]. split; [done|].
    eapply Forall_impl; [exact Hok|]. intros slot (a & c & -> & Hc). by exists a, c.
  - destruct (mapM_resolveCell_total direction
                (blockPairs (findBlockPairs direction
                   (map Some (omap (fun b => b) (blockOfSlot h <$> cells)))))
                (Z.of_nat (length (blockPairs (findBlockPairs direction
                   (map Some (omap (fun b => b) (blockOfSlot h <$> cells)))))))
                (Z.of_nat (length cells)) (seqZ 0 (Z.of_nat (length cells)))
                (findBlockPairs_sizes _ _) h) as (cs & r & Hmap & Hlen).
    eexists _, cs, r. split; [exact Hmap|].
    rewrite length_seqZ, Nat2Z.id in *. split; [by rewrite length_fmap, length_seq|].
    apply Forall_fmap, Forall_forall. intros a Ha. apply elem_of_seq in Ha.
    destruct (lookup_lt_is_Some_2 (Heap.cells h ++ cs) a) as [c Hc].
    { rewrite length_app. lia. }
    by exists a, c.
Qed.

Lemma js_set_inside {A} (arr : list (option A)) (i : Z) (v : option A) :
  0 <= i < Z.of_nat (length arr) -> js_set arr i v = Ok (<[Z.to_nat i := v]> arr).
Proof.
  intros Hi. unfold js_set. destruct (Z.ltb_spec i 0); [lia|].
  by destruct (Z.ltb_spec i (Z.of_nat (length arr))); [|lia].
Qed.

Lemma wf_intro h (n : Z) (rows : list Cells) :
  n = Z.of_nat (length rows) ->
  Forall (fun row : Cells => Z.of_nat (length row) = n /\ Forall (slot_ok h) row) rows ->
  wf h {| Grid.size := n; Grid.rows := rows |}.
Proof.
  intros Hn Hrows. split; [done|]. cbn [Grid.rows].
  eapply Forall_impl; [exact Hrows|]. intros row [Hlen Hok]. split; [lia|done].
Qed.

Lemma wf_elim h g :
  wf h g ->
  Forall (fun row : Cells => Z.of_nat (length row) = Grid.size g /\ Forall (slot_ok h) row)
         (Grid.rows g).
Proof.
  intros [Hsize Hrows]. eapply Forall_impl; [exact Hrows|].
  intros row [Hlen Hok]. split; [lia|done].
Qed.

Lemma setCellAt_wf h g p cell :
  wf h g -> inside g p -> slot_ok h cell ->
  exists g', setCellAt p cell g = Ok g' /\ wf h g' /\ Grid.size g' = Grid.size g.
Proof.
  intros Hwf [Hx Hy] Hcell.
  destruct (wf_row h g (Vector.y p) Hwf Hy) as (row & Hrow & Hlen & Hok).
  unfold setCellAt. rewrite Hrow, js_set_inside by lia.
  eexists. split; [done|]. split; [|done].
  pose proof (wf_elim h g Hwf) as Hrows. destruct Hwf as [Hsize _].
  apply wf_intro; [by rewrite length_insert|].
  apply Forall_insert; [done|].
  split; [by rewrite length_insert|]. by apply Forall_insert.
Qed.

Lemma setColumnAt_from_wf h x column :
  forall y g,
    wf h g -> 0 <= x < Grid.size g -> 0 <= y ->
    y + Z.of_nat (length column) <= Grid.size g ->
    Forall (slot_ok h) column ->
    exists g', setColumnAt_from y x column g = Ok g' /\ wf h g' /\
               Grid.size g' = Grid.size g.
Proof.
  induction column as [|cell column IH]; intros y g Hwf Hx Hy Hlen Hok.
  - by exists g.
  - apply Forall_cons in Hok as [Hcell Hok]. cbn [length] in Hlen.
    destruct (setCellAt_wf h g {| Vector.x := x; Vector.y := y |} cell Hwf)
      as (g1 & Hset & Hwf1 & Hsize1); [unfold inside; simpl; lia|done|].
    cbn [setColumnAt_from]. rewrite Hset.
    destruct (IH (y + 1) g1) as (g' & Hrest & Hwf' & Hsize'); try done; try lia.
    exists g'. split; [done|]. split; [done|lia].
Qed.

Lemma setRowAt_wf h g y (row : Cells) :
  wf h g -> 0 <= y < Grid.size g ->
  Z.of_nat (length row) = Grid.size g -> Forall (slot_ok h) row ->
  wf h (setRowAt y row g) /\ Grid.size (setRowAt y row g) = Grid.size g.
Proof.
  intros Hwf Hy Hlen Hok. split; [|done].
  pose proof (wf_elim h g Hwf) as Hrows. destruct Hwf as [Hsize _].
  unfold setRowAt. destruct (Z.ltb_spec y 0); [lia|].
  apply wf_intro; [by rewrite length_insert|]. by apply Forall_insert.
Qed.

Lemma getColumnAt_length x g : length (getColumnAt x g) = length (Grid.rows g).
Proof. unfold getColumnAt. apply length_map. Qed.

(** one column, then the next: the loop of the vertical branch *)
Lemma resolve_columns_total dy xs :
  forall g h,
    wf h g -> Forall (fun x => 0 <= x < Grid.size g) xs ->
    exists g' h',
      foldM (fun nextGrid x =>
               let column := getColumnAt x nextGrid in
               let* nextColumn := resolveColumnOrRowInDirection dy column in
               liftR (setColumnAt x nextColumn nextGrid)) xs g h = (Ok g', h') /\
      wf h' g' /\ Grid.size g' = Grid.size g.
Proof.
  induction xs as [|x xs IH]; intros g h Hwf Hxs.
  - by exists g, h.
  - apply Forall_cons in Hxs as [Hx Hxs].
    destruct (resolveColumnOrRowInDirection_total dy (getColumnAt x g) h)
      as (column' & cs & r & Hres & Hlen & Hok); [by apply wf_column_ok|].
    rewrite getColumnAt_length in Hlen.
    set (h1 := {| Heap.cells := Heap.cells h ++ cs; Heap.nextRef := r |}) in *.
    assert (wf h1 g) as Hwf1 by (by apply wf_extend).
    destruct (setColumnAt_from_wf h1 x column' 0 g) as (g1 & Hset & Hwf' & Hsize');
      try done.
    { destruct Hwf as [Hsize _]. lia. }
    destruct (IH g1 h1) as (g' & h' & Hfold & Hwf'' & Hsize''); [done| |].
    { eapply Forall_impl; [exact Hxs|]. intros x'. simpl. lia. }
    exists g', h'. split; [|split; [done|lia]].
    cbn [foldM]. erewrite bind_ok; [exact Hfold|].
    rewrite (bind_ok _ _ _ _ _ Hres). unfold liftR, setColumnAt. by rewrite Hset.
Qed.

Lemma resolve_rows_total dx ys :
  forall g h,
    wf h g -> Forall (fun y => 0 <= y < Grid.size g) ys ->
    exists g' h',
      foldM (fun nextGrid y =>
               match getRowAt y nextGrid with
               | None => throw TypeError
               | Some row =>
                   let* nextRow := resolveColumnOrRowInDirection dx row in
                   ret (setRowAt y nextRow nextGrid)
               end) ys g h = (Ok g', h') /\
      wf h' g' /\ Grid.size g' = Grid.size g.
Proof.
  induction ys as [|y ys IH]; intros g h Hwf Hys.
  - by exists g, h.
  - apply Forall_cons in Hys as [Hy Hys].
    destruct (wf_row h g y Hwf Hy) as (row & Hrow & Hrowlen & Hrowok).
    destruct (resolveColumnOrRowInDirection_total dx row h Hrowok)
      as (row' & cs & r & Hres & Hlen & Hok).
    set (h1 := {| Heap.cells := Heap.cells h ++ cs; Heap.nextRef := r |}) in *.
    assert (wf h1 g) as Hwf1 by (by apply wf_extend).
    destruct (setRowAt_wf h1 g y row' Hwf1 Hy) as [Hwf' Hsize']; [lia|done|].
    destruct (IH (setRowAt y row' g) h1) as (g' & h' & Hfold & Hwf'' & Hsize'');
      [done| |].
    { eapply Forall_impl; [exact Hys|]. intros y'. simpl. lia. }
    exists g', h'. split; [|split; [done|lia]].
    cbn [foldM]. erewrite bind_ok; [exact Hfold|].
    unfold getRowAt. rewrite Hrow. by rewrite (bind_ok _ _ _ _ _ Hres).
Qed.

Lemma seqZ_range (n : Z) : Forall (fun i => 0 <= i < n) (seqZ 0 n).
Proof. apply Forall_forall. intros i Hi. apply elem_of_seqZ in Hi. lia. Qed.

(** C5 (as the code has it).  A direction with both components nonzero makes
    [resolveCellsInDirection] throw its direction error, on every grid.  A
    direction whose x component is zero, the zero vector included, is taken
    as a vertical move: on a well-formed grid the call returns a
    well-formed grid and throws nothing. *)
Theorem resolveCellsInDirection_rejects_only_diagonals :
  (forall direction g h,
     Vector.x direction <> 0 -> Vector.y direction <> 0 ->
     resolveCellsInDirection direction g h = (Throw DirectionError, h)) /\
  (forall dy g h,
     wf h g ->
     exists g' h',
       resolveCellsInDirection {| Vector.x := 0; Vector.y := dy |} g h = (Ok g', h') /\
       wf h' g').
Proof.
  split.
  - intros direction g h Hx Hy. unfold resolveCellsInDirection.
    destruct (Z.eqb_spec (Vector.x direction) 0); [done|].
    by destruct (Z.eqb_spec (Vector.y direction) 0).
  - intros dy g h Hwf. unfold resolveCellsInDirection. cbn [Vector.x Vector.y Z.eqb].
    rewrite cloneGrid_same.
    destruct (resolve_columns_total dy (seqZ 0 (Grid.size g)) g h Hwf (seqZ_range _))
      as (g' & h' & Hfold & Hwf' & _).
    by exists g', h'.
Qed.

(** C5 as stated fails for the zero vector: on the 1x1 board holding one
    block of value 2048 the call throws nothing and returns a grid; the scan
    with direction sign 0 pairs the block with itself, so the new cell
    holds a block of value 4096. *)
Lemma resolveCellsInDirection_accepts_zero_vector :
  resolveCellsInDirection {| Vector.x := 0; Vector.y := 0 |} grid_1x1 heap_2048 =
    (Ok {| Grid.size := 1; Grid.rows := [[Some 1%nat]] |},
     {| Heap.cells :=
          [cell_of (block_of 0%nat "a" 2048);
           {| Cell.block := Some (block_of 1%nat "a" 4096);
              Cell.mergedBlock := Some (block_of 0%nat "a" 2048) |}];
        Heap.nextRef := 2%nat |}).
Proof. reflexivity. Qed.

Lemma resolveCellsInDirection_rejects_only_diagonals_witness :
  resolveCellsInDirection {| Vector.x := 1; Vector.y := 1 |} grid_1x1 heap_2048 =
    (Throw DirectionError, heap_2048) /\
  exists g' h',
    resolveCellsInDirection {| Vector.x := 0; Vector.y := -1 |} grid_1x1 heap_2048 =
      (Ok g', h') /\
    wf h' g'.
Proof.
  destruct resolveCellsInDirection_rejects_only_diagonals as [Hdiag Hvert].
  split; [apply Hdiag; simpl; lia|]. apply Hvert. wf_closed.
Defined.

(** ** SPAWN on a full board *)

Lemma foldl_hasNew h g (ps : list Vector.t) :
  (forall p c, p ∈ ps -> cellAt h g p = Some c -> hasNew c = false) ->
  foldl (visitCell (fun c _ (r : bool) => if hasNew c then true else r) h g) false ps =
  false.
Proof.
  induction ps as [|p ps IH]; intros Hps; [done|].
  cbn [foldl]. unfold visitCell at 2.
  destruct (cellAt h g p) as [c|] eqn:Hc.
  - rewrite (Hps p c); [|left|done]. apply IH. intros q c' Hq. apply Hps. by right.
  - apply IH. intros q c' Hq. apply Hps. by right.
Qed.

Lemma hasNewCell_spec h g :
  wf h g ->
  hasNewCell g h =
    (Ok (foldl (visitCell (fun c _ (r : bool) => if hasNew c then true else r) h g)
               false (cellPositions (Grid.size g))), h).
Proof.
  intros Hwf. unfold hasNewCell. unfold bind at 1.
  rewrite (iterateCells_fold (fun c _ (r : bool) => if hasNew c then true else r));
    [done| |done].
  intros cell p s c Hc. unfold bind. rewrite Hc. unfold hasNew.
  destruct (Cell.block c) as [b|]; [|done]. by destruct (Block.isNew b).
Qed.

Lemma randomIntInclusive_empty (r : Q) : randomIntInclusive r 0 (0 - 1) = 0.
Proof.
  unfold randomIntInclusive. change (0 - 1 - 0 + 1) with 0.
  assert (r * inject_Z 0 + inject_Z 0 == 0)%Q as -> by ring.
  done.
Qed.

(** the full board [[2, 4], [2, 8]] is not lost, so the game asks for input;
    ArrowLeft moves and merges nothing; the four completion signals lead to
    TEST_WON and from there to SPAWN, on a board that is still full *)
Lemma full_board_reaches_SPAWN :
  rtc step game_full2 (game_in SPAWN grid_moved 0 heap_moved).
Proof.
  eapply (rtc_l _ _ (game_in INPUT grid_2x2 0 heap_full2)).
  { apply (step_effect game_full2 random0 (CLEAR_TRANSIENT_STATE INPUT) heap_full2
             {| State.phase := INPUT; State.grid := grid_2x2 |} heap_full2);
      reflexivity. }
  eapply (rtc_l _ _ (game_in ACTIVE grid_moved 0 heap_moved)).
  { apply (step_key (game_in INPUT grid_2x2 0 heap_full2) random0 "ArrowLeft"
             (SET_MOVED_DIRECTION {| Vector.x := -1; Vector.y := 0 |})
             {| State.phase := ACTIVE; State.grid := grid_moved |} heap_moved);
      reflexivity. }
  eapply (rtc_l _ _ (game_in ACTIVE grid_moved 1 heap_moved)).
  { apply (step_signal (game_in ACTIVE grid_moved 0 heap_moved) 4 1); reflexivity. }
  eapply (rtc_l _ _ (game_in ACTIVE grid_moved 2 heap_moved)).
  { apply (step_signal (game_in ACTIVE grid_moved 1 heap_moved) 4 2); reflexivity. }
  eapply (rtc_l _ _ (game_in ACTIVE grid_moved 3 heap_moved)).
  { apply (step_signal (game_in ACTIVE grid_moved 2 heap_moved) 4 3); reflexivity. }
  eapply (rtc_l _ _ (game_in TEST_WON grid_moved 0 heap_moved)).
  { apply (step_advance (game_in ACTIVE grid_moved 3 heap_moved) random0 4 0
             (CLEAR_TRANSIENT_STATE TEST_WON)
             {| State.phase := TEST_WON; State.grid := grid_moved |} heap_moved);
      reflexivity. }
  eapply (rtc_l _ _ (game_in SPAWN grid_moved 0 heap_moved)).
  { apply (step_effect (game_in TEST_WON grid_moved 0 heap_moved) random0
             (SET_PHASE SPAWN) heap_moved
             {| State.phase := SPAWN; State.grid := grid_moved |} heap_moved);
      reflexivity. }
  apply rtc_refl.
Qed.

Lemma arrayRandomItem_empty {A} (r : Q) : arrayRandomItem r (@nil A) = None.
Proof. unfold arrayRandomItem, js_get. by destruct (_ <? 0). Qed.

Lemma SPAWN_full_board h g rnd :
  wf h g ->
  (forall p c, inside g p -> cellAt h g p = Some c ->
               exists b, Cell.block c = Some b /\ Block.isNew b = false) ->
  findEmptyCellPositions g h = (Ok [], h) /\
  phaseHandler rnd SPAWN g h =
    (Ok (Some (ADD_NEW_BLOCK None
                 {| Block.ref := Heap.nextRef h; Block.id := Random.uuid rnd;
                    Block.value := 2; Block.isNew := true |})),
     {| Heap.cells := Heap.cells h; Heap.nextRef := S (Heap.nextRef h) |}).
Proof.
  intros Hwf Hfull.
  assert (findEmptyCellPositions g h = (Ok [], h)) as Hempty.
  { rewrite findEmptyCellPositions_spec by done. do 2 f_equal.
    assert (Nat.eqb (length (List.filter (emptyAt h g) (cellPositions (Grid.size g)))) 0
            = true) as Hnil.
    { apply filter_nil_iff. intros p Hp. apply elem_of_cellPositions in Hp.
      unfold emptyAt, isEmpty. destruct (cellAt h g p) as [c|] eqn:Hc; [|done].
      destruct (Hfull p c Hp Hc) as (b & -> & _). done. }
    apply Nat.eqb_eq in Hnil. by destruct (List.filter _ _). }
  split; [done|]. cbn [phaseHandler].
  erewrite bind_ok; [|by apply hasNewCell_spec].
  rewrite foldl_hasNew.
  2:{ intros p c Hp Hc. apply elem_of_cellPositions in Hp.
      destruct (Hfull p c Hp Hc) as (b & Hb & Hnew). unfold hasNew. by rewrite Hb. }
  rewrite (bind_ok _ _ _ _ _ Hempty). by rewrite arrayRandomItem_empty.
Qed.

(** ** A move that merges nothing *)

Lemma omap_Some (bs : list Block.t) : omap (fun b => b) (Some <$> bs) = bs.
Proof. induction bs as [|b bs IH]; [done|]. rewrite fmap_cons. cbn [omap list_omap]. by rewrite IH. Qed.

Lemma greedy_quiet l : ~ hasEqualNeighbours l -> greedy l = Single <$> l.
Proof.
  revert l. apply (greedy_cases (fun l => ~ hasEqualNeighbours l -> _)).
  - done.
  - done.
  - intros a b rest Hv _ Hn. destruct Hn. by exists 0%nat, a, b.
  - intros a b rest Hv IH Hn. rewrite greedy_single by done.
    rewrite fmap_cons. f_equal. apply IH.
    intros (j & x & y & Hx & Hy & Hxy). apply Hn. by exists (S j), x, y.
Qed.

Lemma scanOrder_twice {A} direction (l : list A) :
  scanOrder direction (scanOrder direction l) = l.
Proof. unfold scanOrder. destruct (direction =? 1); [apply reverse_involutive|done]. Qed.

Lemma hasEqualNeighbours_scanOrder direction bs :
  hasEqualNeighbours (scanOrder direction bs) <-> hasEqualNeighbours bs.
Proof.
  unfold scanOrder. destruct (direction =? 1); [apply hasEqualNeighbours_reverse|done].
Qed.

Lemma blockPairIndex_full direction n index :
  blockPairIndex direction n n index = index.
Proof. unfold blockPairIndex. destruct (direction =? 1); lia. Qed.

(** On a full line of distinct blocks without equal neighbours the resolver
    builds one new cell per block, holding that block and no merged block. *)
Lemma resolve_line_quiet direction (cells : Cells) (bs : list Block.t) h :
  direction = 1 \/ direction = -1 ->
  Forall (slot_ok h) cells ->
  blockOfSlot h <$> cells = Some <$> bs ->
  bs <> [] ->
  NoDup (Block.ref <$> bs) ->
  ~ hasEqualNeighbours bs ->
  exists r,
    resolveColumnOrRowInDirection direction cells h =
      (Ok (Some <$> seq (length (Heap.cells h)) (length cells)),
       {| Heap.cells := Heap.cells h ++ (cell_of <$> bs); Heap.nextRef := r |}).
Proof.
  intros Hd Hok Hbs Hne Hnd Hquiet.
  assert (length cells = length bs) as Hlen.
  { rewrite <- (length_fmap (blockOfSlot h) cells), Hbs. apply length_fmap. }
  destruct (resolveColumnOrRowInDirection_groups direction cells h Hd Hok)
    as (cs & r & Hres & Hcs); try (by rewrite Hbs, omap_Some).
  rewrite Hbs, omap_Some in Hcs.
  rewrite greedy_quiet in Hcs by (by rewrite hasEqualNeighbours_scanOrder).
  rewrite length_fmap, scanOrder_length, <- Hlen in Hcs.
  exists r. rewrite Hres. do 2 f_equal. f_equal.
  apply list_eq. intros k. rewrite list_lookup_fmap.
  destruct (cs !! k) as [c|] eqn:Hc.
  - destruct (Forall2_lookup_r _ _ _ _ _ Hcs Hc) as (index & Hindex & Hgroup).
    apply lookup_seqZ in Hindex as [-> Hk].
    rewrite blockPairIndex_full, Z.add_0_l, js_get_lookup in Hgroup.
    assert (scanOrder direction (Single <$> scanOrder direction bs) = Single <$> bs) as HG.
    { unfold scanOrder. destruct (direction =? 1); [|done].
      by rewrite <- fmap_reverse, reverse_involutive. }
    rewrite HG, list_lookup_fmap in Hgroup.
    destruct (bs !! k) as [b|] eqn:Hb.
    + cbn in Hgroup. by subst c.
    + apply lookup_ge_None in Hb. lia.
  - apply lookup_ge_None in Hc. apply Forall2_length in Hcs.
    rewrite length_seqZ in Hcs. symmetry. apply fmap_None, lookup_ge_None. lia.
Qed.

Lemma js_get_insert {A} (l : list A) (i : nat) (v : A) (j : Z) :
  (i < length l)%nat ->
  js_get (<[i := v]> l) j = if decide (j = Z.of_nat i) then Some v else js_get l j.
Proof.
  intros Hi. unfold js_get. destruct (Z.ltb_spec j 0).
  - by destruct (decide (j = Z.of_nat i)); [lia|].
  - destruct (decide (j = Z.of_nat i)) as [->|Hne].
    + rewrite Nat2Z.id. by apply list_lookup_insert_eq.
    + apply list_lookup_insert_ne. lia.
Qed.

(** what a grid holds after [setCellAt] inside the board *)
Lemma setCellAt_spec h g q cell :
  wf h g -> inside g q -> slot_ok h cell ->
  exists g',
    setCellAt q cell g = Ok g' /\ wf h g' /\ Grid.size g' = Grid.size g /\
    getCellAt q g' = Ok cell /\
    (forall p, p <> q -> getCellAt p g' = getCellAt p g).
Proof.
  intros Hwf Hq Hcell.
  destruct (setCellAt_wf h g q cell Hwf Hq Hcell) as (g' & Hset & Hwf' & Hsize').
  exists g'. split; [done|]. split; [done|]. split; [done|].
  destruct Hq as [Hx Hy].
  destruct (wf_row h g (Vector.y q) Hwf Hy) as (row & Hrow & Hlen & Hok).
  unfold setCellAt in Hset. rewrite Hrow, js_set_inside in Hset by lia.
  injection Hset as <-.
  pose proof Hrow as Hrow'. apply js_get_Some in Hrow' as [_ Hrow'].
  pose proof (lookup_lt_Some _ _ _ Hrow') as Hylt.
  split.
  - unfold getCellAt. cbn [Grid.rows]. rewrite js_get_insert by done.
    destruct (decide _) as [_|Hne]; [|lia]. rewrite js_get_insert by lia.
    by destruct (decide _) as [_|Hne]; [|lia].
  - intros p Hp. unfold getCellAt. cbn [Grid.rows]. rewrite js_get_insert by done.
    destruct (decide (Vector.y p = Z.of_nat (Z.to_nat (Vector.y q)))) as [Hyp|Hyp];
      [|done].
    assert (Vector.y p = Vector.y q) as Hyq by lia. rewrite Hyq, Hrow.
    rewrite js_get_insert by lia.
    destruct (decide (Vector.x p = Z.of_nat (Z.to_nat (Vector.x q)))) as [Hxp|Hxp];
      [|done].
    destruct Hp. destruct p, q. simpl in *. f_equal; lia.
Qed.

Lemma setColumnAt_from_spec h x column :
  forall y0 g,
    wf h g -> 0 <= x < Grid.size g -> 0 <= y0 ->
    y0 + Z.of_nat (length column) <= Grid.size g ->
    Forall (slot_ok h) column ->
    exists g',
      setColumnAt_from y0 x column g = Ok g' /\ wf h g' /\
      Grid.size g' = Grid.size g /\
      (forall k slot, column !! k = Some slot ->
         getCellAt {| Vector.x := x; Vector.y := y0 + Z.of_nat k |} g' = Ok slot) /\
      (forall p, (Vector.x p <> x \/ Vector.y p < y0 \/
                  y0 + Z.of_nat (length column) <= Vector.y p) ->
                 getCellAt p g' = getCellAt p g).
Proof.
  induction column as [|cell column IH]; intros y0 g Hwf Hx Hy Hlen Hok.
  - exists g. split; [done|]. split; [done|]. split; [done|]. split; [|done].
    intros k slot Hk. by rewrite lookup_nil in Hk.
  - apply Forall_cons in Hok as [Hcell Hok]. cbn [length] in Hlen.
    destruct (setCellAt_spec h g {| Vector.x := x; Vector.y := y0 |} cell Hwf)
      as (g1 & Hset & Hwf1 & Hsize1 & Hget1 & Hother1);
      [unfold inside; simpl; lia|done|].
    destruct (IH (y0 + 1) g1) as (g' & Hrest & Hwf' & Hsize' & Hget' & Hother');
      try done; try lia.
    exists g'. cbn [setColumnAt_from]. rewrite Hset.
    split; [done|]. split; [done|]. split; [lia|]. split.
    + intros [|k] slot Hk.
      * injection Hk as <-. rewrite Hother' by (simpl; lia).
        by replace (y0 + Z.of_nat 0) with y0 by lia.
      * replace (y0 + Z.of_nat (S k)) with (y0 + 1 + Z.of_nat k) by lia.
        by apply Hget'.
    + intros p Hp. rewrite Hother' by (cbn [length] in Hp; lia).
      apply Hother1. intros ->. simpl in Hp. cbn [length] in Hp. lia.
Qed.

Lemma setRowAt_spec h g y (row : Cells) :
  wf h g -> 0 <= y < Grid.size g ->
  getRowAt y (setRowAt y row g) = Some row /\
  (forall p, Vector.y p = y ->
             getCellAt p (setRowAt y row g) = Ok (mjoin (js_get row (Vector.x p)))) /\
  (forall p, Vector.y p <> y -> getCellAt p (setRowAt y row g) = getCellAt p g).
Proof.
  intros [Hsize _] Hy. unfold getRowAt, getCellAt, setRowAt. cbn [Grid.rows].
  destruct (Z.ltb_spec y 0); [lia|].
  assert (Z.to_nat y < length (Grid.rows g))%nat as Hlt by lia.
  split; [|split].
  - rewrite js_get_insert by done. by destruct (decide _) as [_|Hne]; [|lia].
  - intros p Hp. rewrite js_get_insert by done.
    by destruct (decide _) as [_|Hne]; [|lia].
  - intros p Hp. rewrite js_get_insert by done.
    by destruct (decide _) as [Heq|_]; [lia|].
Qed.

Lemma cellAt_extend h cs r g p c :
  cellAt h g p = Some c ->
  cellAt {| Heap.cells := Heap.cells h ++ cs; Heap.nextRef := r |} g p = Some c.
Proof.
  unfold cellAt. destruct (getCellAt p g) as [[a|]|]; try done.
  cbn [Heap.cells]. by apply lookup_app_l_Some.
Qed.

Lemma columnBlocks_lookup h g x y :
  0 <= y < Grid.size g ->
  columnBlocks h g x !! Z.to_nat y = Some (blockAt h g {| Vector.x := x; Vector.y := y |}).
Proof.
  intros Hy. unfold columnBlocks. rewrite list_lookup_fmap, lookup_seqZ_lt by lia.
  cbn. do 3 f_equal. lia.
Qed.

Lemma rowBlocks_lookup h g y x :
  0 <= x < Grid.size g ->
  rowBlocks h g y !! Z.to_nat x = Some (blockAt h g {| Vector.x := x; Vector.y := y |}).
Proof.
  intros Hx. unfold rowBlocks. rewrite list_lookup_fmap, lookup_seqZ_lt by lia.
  cbn. do 3 f_equal. lia.
Qed.

Lemma columnBlocks_same h g h' g' x :
  Grid.size g' = Grid.size g -> 0 <= x < Grid.size g ->
  (forall p, inside g p -> blockAt h' g' p = blockAt h g p) ->
  columnBlocks h' g' x = columnBlocks h g x.
Proof.
  intros Hsize Hx Hsame. unfold columnBlocks. rewrite Hsize.
  apply list_fmap_ext. intros i y Hy. apply lookup_seqZ in Hy as [-> Hy].
  apply Hsame. unfold inside. simpl. lia.
Qed.

Lemma rowBlocks_same h g h' g' y :
  Grid.size g' = Grid.size g -> 0 <= y < Grid.size g ->
  (forall p, inside g p -> blockAt h' g' p = blockAt h g p) ->
  rowBlocks h' g' y = rowBlocks h g y.
Proof.
  intros Hsize Hy Hsame. unfold rowBlocks. rewrite Hsize.
  apply list_fmap_ext. intros i x Hx. apply lookup_seqZ in Hx as [-> Hx].
  apply Hsame. unfold inside. simpl. lia.
Qed.

Lemma quietLine_nonempty h g x :
  1 <= Grid.size g -> forall bs, columnBlocks h g x = Some <$> bs -> bs <> [].
Proof.
  intros Hsize bs Hbs ->. apply (f_equal length) in Hbs.
  unfold columnBlocks in Hbs. rewrite length_fmap, length_seqZ in Hbs. simpl in Hbs. lia.
Qed.

Lemma new_cell_lookup h (bs : list Block.t) r (k : nat) b :
  bs !! k = Some b ->
  Heap.cells {| Heap.cells := Heap.cells h ++ (cell_of <$> bs); Heap.nextRef := r |}
    !! (length (Heap.cells h) + k)%nat = Some (cell_of b).
Proof.
  intros Hb. cbn [Heap.cells]. rewrite lookup_app_r by lia.
  replace (length (Heap.cells h) + k - length (Heap.cells h))%nat with k by lia.
  by rewrite list_lookup_fmap, Hb.
Qed.

(** one step of the vertical loop on a column that stays as it is *)
Lemma column_step_quiet dy x g h :
  dy = 1 \/ dy = -1 ->
  wf h g -> 1 <= Grid.size g -> 0 <= x < Grid.size g ->
  quietLine (columnBlocks h g x) ->
  exists g1 h1,
    (let column := getColumnAt x g in
     let* nextColumn := resolveColumnOrRowInDirection dy column in
     liftR (setColumnAt x nextColumn g)) h = (Ok g1, h1) /\
    wf h1 g1 /\ Grid.size g1 = Grid.size g /\
    (forall p, inside g p -> blockAt h1 g1 p = blockAt h g p) /\
    (forall p, inside g p -> Vector.x p = x -> cellQuietAt h1 g1 p) /\
    (forall p, inside g p -> Vector.x p <> x -> cellQuietAt h g p -> cellQuietAt h1 g1 p).
Proof.
  intros Hd Hwf Hsize Hx (bs & Hbs & Hnd & Hquiet).
  pose proof (wf_column_ok h g x Hwf Hx) as Hok.
  pose proof Hbs as Hslots. rewrite columnBlocks_slots in Hslots by done.
  destruct (resolve_line_quiet dy (getColumnAt x g) bs h Hd Hok Hslots) as [r Hres];
    try done.
  { by apply (quietLine_nonempty h g x). }
  set (h1 := {| Heap.cells := Heap.cells h ++ (cell_of <$> bs); Heap.nextRef := r |}) in *.
  set (column' := Some <$> seq (length (Heap.cells h)) (length (getColumnAt x g))) in *.
  assert (length (getColumnAt x g) = length bs) as Hlen.
  { rewrite <- (length_fmap (blockOfSlot h)), Hslots. apply length_fmap. }
  assert (Z.of_nat (length bs) = Grid.size g) as Hlenbs.
  { rewrite <- Hlen, getColumnAt_length. destruct Hwf as [-> _]. done. }
  assert (Forall (slot_ok h1) column') as Hok'.
  { apply Forall_fmap, Forall_forall. intros a Ha. apply elem_of_seq in Ha.
    destruct (lookup_lt_is_Some_2 (Heap.cells h1) a) as [c Hc].
    { subst h1. cbn [Heap.cells]. rewrite length_app, length_fmap. lia. }
    by exists a, c. }
  destruct (setColumnAt_from_spec h1 x column' 0 g)
    as (g1 & Hset & Hwf1 & Hsize1 & Hget & Hother); try done.
  { by apply wf_extend. }
  { subst column'. rewrite length_fmap, length_seq. lia. }
  exists g1, h1. split.
  { cbv zeta. rewrite (bind_ok _ _ _ _ _ Hres). unfold liftR, setColumnAt. by rewrite Hset. }
  split; [done|]. split; [done|].
  assert (forall p, inside g p -> Vector.x p = x ->
            exists b, bs !! Z.to_nat (Vector.y p) = Some b /\
                      cellAt h1 g1 p = Some (cell_of b) /\
                      blockAt h g p = Some b) as Hnew.
  { intros p [Hpx Hpy] Hxp.
    destruct (lookup_lt_is_Some_2 bs (Z.to_nat (Vector.y p))) as [b Hb]; [lia|].
    exists b. split; [done|]. split.
    - unfold cellAt.
      replace p with {| Vector.x := x; Vector.y := 0 + Z.of_nat (Z.to_nat (Vector.y p)) |}
        by (destruct p; simpl in *; f_equal; lia).
      rewrite (Hget (Z.to_nat (Vector.y p))
                 (Some (length (Heap.cells h) + Z.to_nat (Vector.y p))%nat)).
      + by apply new_cell_lookup.
      + subst column'. rewrite list_lookup_fmap, lookup_seq_lt by lia. done.
    - pose proof (columnBlocks_lookup h g x (Vector.y p) Hpy) as Hcol.
      rewrite Hbs, list_lookup_fmap, Hb in Hcol. cbn in Hcol. injection Hcol as Hcol.
      rewrite Hcol. f_equal. destruct p; simpl in *; by subst. }
  assert (forall p, inside g p -> Vector.x p <> x ->
            forall c, cellAt h g p = Some c -> cellAt h1 g1 p = Some c) as Hold.
  { intros p Hp Hxp c Hc. unfold cellAt. rewrite Hother by (left; done).
    by apply (cellAt_extend h (cell_of <$> bs) r g p c). }
  split; [|split].
  - intros p Hp. destruct (decide (Vector.x p = x)) as [Hxp|Hxp].
    + destruct (Hnew p Hp Hxp) as (b & _ & Hc1 & Hb0).
      unfold blockAt at 1. by rewrite Hc1, Hb0.
    + destruct (wf_cellAt h g p Hwf Hp) as [c Hc].
      unfold blockAt. by rewrite (Hold p Hp Hxp c Hc), Hc.
  - intros p Hp Hxp. destruct (Hnew p Hp Hxp) as (b & _ & Hc1 & _). by exists (cell_of b).
  - intros p Hp Hxp (c & Hc & Hm). exists c. split; [|done]. by apply Hold.
Qed.

(** one step of the horizontal loop on a row that stays as it is *)
Lemma row_step_quiet dx y g h :
  dx = 1 \/ dx = -1 ->
  wf h g -> 1 <= Grid.size g -> 0 <= y < Grid.size g ->
  quietLine (rowBlocks h g y) ->
  exists g1 h1,
    match getRowAt y g with
    | None => throw TypeError
    | Some row =>
        let* nextRow := resolveColumnOrRowInDirection dx row in
        ret (setRowAt y nextRow g)
    end h = (Ok g1, h1) /\
    wf h1 g1 /\ Grid.size g1 = Grid.size g /\
    (forall p, inside g p -> blockAt h1 g1 p = blockAt h g p) /\
    (forall p, inside g p -> Vector.y p = y -> cellQuietAt h1 g1 p) /\
    (forall p, inside g p -> Vector.y p <> y -> cellQuietAt h g p -> cellQuietAt h1 g1 p).
Proof.
  intros Hd Hwf Hsize Hy (bs & Hbs & Hnd & Hquiet).
  destruct (wf_row h g y Hwf Hy) as (row & Hrow & Hrowlen & Hok).
  pose proof Hbs as Hslots. rewrite (rowBlocks_slots h g y row) in Hslots by done.
  assert (length row = length bs) as Hlen.
  { rewrite <- (length_fmap (blockOfSlot h)), Hslots. apply length_fmap. }
  destruct (resolve_line_quiet dx row bs h Hd Hok Hslots) as [r Hres]; try done.
  { intros ->. simpl in Hlen. lia. }
  set (h1 := {| Heap.cells := Heap.cells h ++ (cell_of <$> bs); Heap.nextRef := r |}) in *.
  set (row' := Some <$> seq (length (Heap.cells h)) (length row)) in *.
  assert (Forall (slot_ok h1) row') as Hok'.
  { apply Forall_fmap, Forall_forall. intros a Ha. apply elem_of_seq in Ha.
    destruct (lookup_lt_is_Some_2 (Heap.cells h1) a) as [c Hc].
    { subst h1. cbn [Heap.cells]. rewrite length_app, length_fmap. lia. }
    by exists a, c. }
  assert (wf h1 g) as Hwf1 by (by apply wf_extend).
  destruct (setRowAt_wf h1 g y row' Hwf1 Hy) as [Hwf' Hsize']; [|done|].
  { subst row'. rewrite length_fmap, length_seq. lia. }
  destruct (setRowAt_spec h1 g y row' Hwf1 Hy) as (_ & Hget & Hother).
  exists (setRowAt y row' g), h1. split.
  { unfold getRowAt. rewrite Hrow. by rewrite (bind_ok _ _ _ _ _ Hres). }
  split; [done|]. split; [done|].
  assert (forall p, inside g p -> Vector.y p = y ->
            exists b, bs !! Z.to_nat (Vector.x p) = Some b /\
                      cellAt h1 (setRowAt y row' g) p = Some (cell_of b) /\
                      blockAt h g p = Some b) as Hnew.
  { intros p [Hpx Hpy] Hyp.
    destruct (lookup_lt_is_Some_2 bs (Z.to_nat (Vector.x p))) as [b Hb]; [lia|].
    exists b. split; [done|]. split.
    - unfold cellAt. rewrite (Hget p Hyp).
      replace (js_get row' (Vector.x p))
        with (Some (Some (length (Heap.cells h) + Z.to_nat (Vector.x p))%nat)).
      + by apply new_cell_lookup.
      + symmetry. apply js_get_Some. split; [lia|]. subst row'.
        rewrite list_lookup_fmap, lookup_seq_lt by lia. done.
    - pose proof (rowBlocks_lookup h g y (Vector.x p) Hpx) as Hline.
      rewrite Hbs, list_lookup_fmap, Hb in Hline. cbn in Hline. injection Hline as Hline.
      rewrite Hline. f_equal. destruct p; simpl in *; by subst. }
  assert (forall p, inside g p -> Vector.y p <> y ->
            forall c, cellAt h g p = Some c ->
                      cellAt h1 (setRowAt y row' g) p = Some c) as Hold.
  { intros p Hp Hyp c Hc. unfold cellAt. rewrite Hother by done.
    by apply (cellAt_extend h (cell_of <$> bs) r g p c). }
  split; [|split].
  - intros p Hp. destruct (decide (Vector.y p = y)) as [Hyp|Hyp].
    + destruct (Hnew p Hp Hyp) as (b & _ & Hc1 & Hb0).
      unfold blockAt at 1. by rewrite Hc1, Hb0.
    + destruct (wf_cellAt h g p Hwf Hp) as [c Hc].
      unfold blockAt. by rewrite (Hold p Hp Hyp c Hc), Hc.
  - intros p Hp Hyp. destruct (Hnew p Hp Hyp) as (b & _ & Hc1 & _). by exists (cell_of b).
  - intros p Hp Hyp (c & Hc & Hm). exists c. split; [|done]. by apply Hold.
Qed.

(** the loop over the lines, for either branch: [coord] is the coordinate
    that names the line of a position *)
Section QuietLoop.
Variable coord : Vector.t -> Z.
Variable lineStep : Grid.t -> Z -> M Grid.t.
Variable lineBlocks : Heap.t -> Grid.t -> Z -> list (option Block.t).

Hypothesis lineBlocks_same :
  forall h g h' g' i,
    Grid.size g' = Grid.size g -> 0 <= i < Grid.size g ->
    (forall p, inside g p -> blockAt h' g' p = blockAt h g p) ->
    lineBlocks h' g' i = lineBlocks h g i.

Hypothesis lineStep_quiet :
  forall i g h,
    wf h g -> 1 <= Grid.size g -> 0 <= i < Grid.size g ->
    quietLine (lineBlocks h g i) ->
    exists g1 h1,
      lineStep g i h = (Ok g1, h1) /\
      wf h1 g1 /\ Grid.size g1 = Grid.size g /\
      (forall p, inside g p -> blockAt h1 g1 p = blockAt h g p) /\
      (forall p, inside g p -> coord p = i -> cellQuietAt h1 g1 p) /\
      (forall p, inside g p -> coord p <> i -> cellQuietAt h g p -> cellQuietAt h1 g1 p).

Lemma quiet_loop lines :
  forall g h,
    wf h g -> 1 <= Grid.size g ->
    Forall (fun i => 0 <= i < Grid.size g) lines ->
    (forall i, i ∈ lines -> quietLine (lineBlocks h g i)) ->
    exists g' h',
      foldM lineStep lines g h = (Ok g', h') /\
      wf h' g' /\ Grid.size g' = Grid.size g /\
      (forall p, inside g p -> blockAt h' g' p = blockAt h g p) /\
      (forall p, inside g p -> coord p ∈ lines \/ cellQuietAt h g p ->
                 cellQuietAt h' g' p).
Proof.
  induction lines as [|i lines IH]; intros g h Hwf Hsize Hrange Hquiet.
  - exists g, h. split; [done|]. split; [done|]. split; [done|]. split; [done|].
    intros p Hp [Hin|Hq]; [by apply elem_of_nil in Hin|done].
  - apply Forall_cons in Hrange as [Hi Hrange].
    destruct (lineStep_quiet i g h Hwf Hsize Hi) as
      (g1 & h1 & Hstep & Hwf1 & Hsize1 & Hsame1 & Hnew1 & Hold1); [apply Hquiet; left|].
    destruct (IH g1 h1) as (g' & h' & Hfold & Hwf' & Hsize' & Hsame' & Hq'); try done.
    { lia. }
    { eapply Forall_impl; [exact Hrange|]. intros j. simpl. lia. }
    { intros j Hj. rewrite (lineBlocks_same h g h1 g1); try done.
      - apply Hquiet. by right.
      - rewrite Forall_forall in Hrange. by apply Hrange. }
    assert (forall p, inside g p -> inside g1 p) as Hin1.
    { intros p. unfold inside. by rewrite Hsize1. }
    exists g', h'. split.
    { cbn [foldM]. by rewrite (bind_ok _ _ _ _ _ Hstep). }
    split; [done|]. split; [lia|]. split.
    + intros p Hp. rewrite Hsame' by (by apply Hin1). by apply Hsame1.
    + intros p Hp Hcase. apply Hq'; [by apply Hin1|].
      destruct (decide (coord p = i)) as [Hc|Hc]; [right; by apply Hnew1|].
      destruct Hcase as [Hin|Hq].
      * apply elem_of_cons in Hin as [Hin|Hin]; [done|by left].
      * right. by apply Hold1.
Qed.
End QuietLoop.

Lemma KEY_DIRECTION_MAP_valid key d :
  KEY_DIRECTION_MAP key = Some d -> validDirection d.
Proof.
  unfold KEY_DIRECTION_MAP, validDirection.
  repeat (destruct (String.eqb key _); [intros [= <-]; simpl; lia|]). done.
Qed.

(** a move along lines that all stay as they are: the new grid holds new
    cells with the same blocks and no merged block *)
Lemma resolveCellsInDirection_quiet d g h :
  validDirection d ->
  wf h g -> 1 <= Grid.size g ->
  (forall i, 0 <= i < Grid.size g -> quietLine (linesAlong h g d i)) ->
  exists g' h',
    resolveCellsInDirection d g h = (Ok g', h') /\
    wf h' g' /\ Grid.size g' = Grid.size g /\
    (forall p, inside g p -> blockAt h' g' p = blockAt h g p) /\
    (forall p, inside g p -> cellQuietAt h' g' p).
Proof.
  intros Hd Hwf Hsize Hquiet. unfold resolveCellsInDirection. rewrite cloneGrid_same.
  unfold linesAlong in Hquiet.
  destruct Hd as [[Hx Hy]|[Hy Hx]].
  - rewrite Hx in *. cbn [Z.eqb] in *.
    destruct (quiet_loop Vector.x
                (fun nextGrid x =>
                   let column := getColumnAt x nextGrid in
                   let* nextColumn :=
                     resolveColumnOrRowInDirection (Vector.y d) column in
                   liftR (setColumnAt x nextColumn nextGrid))
                columnBlocks columnBlocks_same
                (fun i g0 h0 Hwf0 Hs0 Hi0 Hq0 =>
                   column_step_quiet (Vector.y d) i g0 h0 Hy Hwf0 Hs0 Hi0 Hq0)
                (seqZ 0 (Grid.size g)) g h Hwf Hsize (seqZ_range _))
      as (g' & h' & Hfold & Hwf' & Hsize' & Hsame & Hq).
    { intros i Hi. apply Hquiet. apply elem_of_seqZ in Hi. lia. }
    exists g', h'. split; [done|]. split; [done|]. split; [done|]. split; [done|].
    intros p Hp. apply Hq; [done|]. left. apply elem_of_seqZ.
    destruct Hp as [Hpx _]. lia.
  - assert ((Vector.x d =? 0) = false) as Hxne by (apply Z.eqb_neq; lia).
    rewrite Hxne in *. rewrite Hy. cbn [Z.eqb].
    destruct (quiet_loop Vector.y
                (fun nextGrid y =>
                   match getRowAt y nextGrid with
                   | None => throw TypeError
                   | Some row =>
                       let* nextRow :=
                         resolveColumnOrRowInDirection (Vector.x d) row in
                       ret (setRowAt y nextRow nextGrid)
                   end)
                rowBlocks rowBlocks_same
                (fun i g0 h0 Hwf0 Hs0 Hi0 Hq0 =>
                   row_step_quiet (Vector.x d) i g0 h0 Hx Hwf0 Hs0 Hi0 Hq0)
                (seqZ 0 (Grid.size g)) g h Hwf Hsize (seqZ_range _))
      as (g' & h' & Hfold & Hwf' & Hsize' & Hsame & Hq).
    { intros i Hi. apply Hquiet. apply elem_of_seqZ in Hi. lia. }
    exists g', h'. split; [done|]. split; [done|]. split; [done|]. split; [done|].
    intros p Hp. apply Hq; [done|]. left. apply elem_of_seqZ.
    destruct Hp as [_ Hpy]. lia.
Qed.

(** *** CLEAR_TRANSIENT_STATE on a grid with nothing to clear *)

Lemma setCellAt_same h g p a :
  wf h g -> inside g p -> getCellAt p g = Ok (Some a) ->
  setCellAt p (Some a) g = Ok g.
Proof.
  intros Hwf [Hx Hy] Hget.
  destruct (wf_row h g (Vector.y p) Hwf Hy) as (row & Hrow & Hlen & _).
  unfold getCellAt in Hget. rewrite Hrow in Hget.
  unfold setCellAt. rewrite Hrow. rewrite js_set_inside by lia.
  destruct (js_get row (Vector.x p)) as [slot|] eqn:Hslot; [|done].
  cbn in Hget. injection Hget as ->.
  apply js_get_Some in Hslot as [_ Hslot]. apply js_get_Some in Hrow as [_ Hrow].
  rewrite (list_insert_id row) by done. rewrite (list_insert_id (Grid.rows g)) by done.
  by destruct g.
Qed.

Lemma updateCells_nothing_to_clear h g :
  wf h g ->
  (forall p c, inside g p -> cellAt h g p = Some c ->
               Cell.mergedBlock c = None /\ hasNew c = false) ->
  updateCells g clearTransient h = (Ok g, h).
Proof.
  intros Hwf Hclear. unfold updateCells, iterateCells.
  assert (forall ps,
            (forall p, p ∈ ps -> inside g p) ->
            iterateCells_over ps
              (fun cell position grid (_ : unit) =>
                 let* cell' := clearTransient cell position in
                 let* grid' := liftR (setCellAt position cell' grid) in
                 ret (tt, grid', true)) g tt h = (Ok (tt, g), h)) as Hloop.
  { induction ps as [|p ps IH]; intros Hps; [done|].
    assert (inside g p) as Hp by (apply Hps; left).
    destruct (wf_getCellAt h g p Hwf Hp) as (a & c & Ha & Hc).
    assert (cellAt h g p = Some c) as Hcell by (unfold cellAt; by rewrite Ha).
    destruct (Hclear p c Hp Hcell) as [Hm Hn].
    assert (clearTransient (Some a) p h = (Ok (Some a), h)) as Hsame.
    { unfold clearTransient. rewrite (bind_ok _ _ _ _ _ (readCell_ok h a c Hc)).
      rewrite Hm. unfold hasNew in Hn. destruct (Cell.block c) as [b|]; [|done].
      by rewrite Hn. }
    cbn [iterateCells_over]. unfold liftR at 1. rewrite (bind_ok _ _ h (Some a) h) by (by rewrite Ha).
    rewrite (bind_ok _ _ h (tt, g, true) h).
    - apply IH. intros q Hq. apply Hps. by right.
    - rewrite (bind_ok _ _ _ _ _ Hsame). unfold liftR.
      by rewrite (bind_ok _ _ h g h) by (by rewrite (setCellAt_same h g p a Hwf Hp Ha)). }
  rewrite (bind_ok _ _ h (tt, g) h); [done|]. apply Hloop.
  intros p Hp. by apply elem_of_cellPositions.
Qed.

(** *** The number of boxes *)

Lemma boxCount_spec h g :
  wf h g ->
  boxCount g h =
    (Ok (foldl (visitCell (fun c _ r => r + boxesOf c) h g) 0
               (cellPositions (Grid.size g))), h).
Proof.
  intros Hwf. unfold boxCount. unfold bind at 1.
  rewrite (iterateCells_fold (fun c _ r => r + boxesOf c)); [done| |done].
  intros cell p s c Hc. unfold bind. rewrite Hc. unfold boxesOf.
  destruct (Cell.block c); [|by rewrite Z.add_0_r].
  by destruct (Cell.mergedBlock c).
Qed.

Lemma foldl_boxes_ge h g (ps : list Vector.t) (r0 : Z) :
  (forall p, p ∈ ps -> exists c, cellAt h g p = Some c /\ Cell.block c <> None) ->
  r0 + Z.of_nat (length ps) <= foldl (visitCell (fun c _ r => r + boxesOf c) h g) r0 ps.
Proof.
  revert r0. induction ps as [|p ps IH]; intros r0 Hps; [simpl; lia|].
  cbn [foldl length]. destruct (Hps p) as (c & Hc & Hb); [left|].
  etransitivity; [|apply IH; intros q Hq; apply Hps; by right].
  unfold visitCell. rewrite Hc. unfold boxesOf.
  destruct (Cell.block c); [|done]. destruct (Cell.mergedBlock c); lia.
Qed.

Lemma boxCount_full h g :
  wf h g -> 1 <= Grid.size g ->
  (forall p c, inside g p -> cellAt h g p = Some c -> Cell.block c <> None) ->
  exists k, boxCount g h = (Ok k, h) /\ 1 <= k.
Proof.
  intros Hwf Hsize Hfull. eexists. split; [by apply boxCount_spec|].
  etransitivity; [|apply foldl_boxes_ge].
  - assert (origin ∈ cellPositions (Grid.size g)) as Hin.
    { apply elem_of_cellPositions. simpl. lia. }
    destruct (cellPositions (Grid.size g)); [by apply elem_of_nil in Hin|].
    cbn [length]. lia.
  - intros p Hp. apply elem_of_cellPositions in Hp.
    destruct (wf_cellAt h g p Hwf Hp) as [c Hc]. exists c. split; [done|].
    by apply (Hfull p).
Qed.

Lemma hasWon_same_blocks h g h' g' b :
  wf h g -> wf h' g' -> Grid.size g' = Grid.size g ->
  (forall p, inside g p -> blockAt h' g' p = blockAt h g p) ->
  hasWon g h = (Ok b, h) -> hasWon g' h' = (Ok b, h').
Proof.
  intros Hwf Hwf' Hsize Hsame. rewrite !hasWon_spec by done. rewrite Hsize.
  intros [= <-]. do 3 f_equal. apply foldl_agree_in. intros m p Hp.
  apply elem_of_cellPositions in Hp.
  assert (inside g' p) as Hp' by (unfold inside; by rewrite Hsize).
  destruct (wf_cellAt h g p Hwf Hp) as [c Hc].
  destruct (wf_cellAt h' g' p Hwf' Hp') as [c' Hc'].
  specialize (Hsame p Hp). unfold blockAt in Hsame. rewrite Hc, Hc' in Hsame.
  unfold visitCell. rewrite Hc, Hc'. unfold cellValue. by rewrite Hsame.
Qed.

(** *** The run from INPUT to SPAWN *)

Lemma quiet_signals g h k (n : nat) :
  boxCount g h = (Ok k, h) ->
  forall c, c + Z.of_nat n < k ->
            rtc step (game_in ACTIVE g c h) (game_in ACTIVE g (c + Z.of_nat n) h).
Proof.
  intros Hk. induction n as [|n IH]; intros c Hc.
  - replace (c + Z.of_nat 0) with c by lia. apply rtc_refl.
  - eapply (rtc_l _ _ (game_in ACTIVE g (c + 1) h)).
    + apply (step_signal (game_in ACTIVE g c h) k (c + 1)); [done|].
      cbn [game_in Game.state Game.count State.phase].
      unfold handleBoxAnimationComplete. destruct (Z.eqb_spec (c + 1) k); [lia|done].
    + replace (c + Z.of_nat (S n)) with (c + 1 + Z.of_nat n) by lia.
      apply IH. lia.
Qed.

(** From INPUT on a full board without new blocks and without a winning
    block, a key whose move leaves every line as it is leads the game to
    SPAWN on a grid that holds the same blocks, and there the effect of the
    phase makes the reducer throw. *)
Lemma quiet_move_reaches_faulty_SPAWN h g key d :
  wf h g -> 1 <= Grid.size g ->
  (forall p c, inside g p -> cellAt h g p = Some c ->
               exists b, Cell.block c = Some b /\ Block.isNew b = false) ->
  hasWon g h = (Ok false, h) ->
  KEY_DIRECTION_MAP key = Some d ->
  (forall i, 0 <= i < Grid.size g -> quietLine (linesAlong h g d i)) ->
  exists g' h',
    rtc step (game_in INPUT g 0 h) (game_in SPAWN g' 0 h') /\
    wf h' g' /\
    (forall p, inside g p -> blockAt h' g' p = blockAt h g p) /\
    effectFaults (game_in SPAWN g' 0 h').
Proof.
  intros Hwf Hsize Hfull Hwon Hkey Hquiet.
  destruct (resolveCellsInDirection_quiet d g h) as
    (g1 & h1 & Hmove & Hwf1 & Hsize1 & Hsame & Hq); try done.
  { by apply (KEY_DIRECTION_MAP_valid key). }
  assert (forall p c, inside g1 p -> cellAt h1 g1 p = Some c ->
            (exists b, Cell.block c = Some b /\ Block.isNew b = false) /\
            Cell.mergedBlock c = None) as Hfull1.
  { intros p c Hp Hc. assert (inside g p) as Hp0 by (unfold inside; by rewrite <- Hsize1).
    split.
    - destruct (wf_cellAt h g p Hwf Hp0) as [c0 Hc0].
      destruct (Hfull p c0 Hp0 Hc0) as (b & Hb & Hnew). exists b. split; [|done].
      specialize (Hsame p Hp0). unfold blockAt in Hsame. rewrite Hc, Hc0 in Hsame.
      by rewrite Hsame.
    - destruct (Hq p Hp0) as (c' & Hc' & Hm). congruence. }
  destruct (boxCount_full h1 g1 Hwf1) as (k & Hk & Hk1); [lia| |].
  { intros p c Hp Hc. destruct (Hfull1 p c Hp Hc) as [(b & -> & _) _]. done. }
  exists g1, h1. split; [|split; [done|split; [done|]]].
  - eapply (rtc_l _ _ (game_in ACTIVE g1 0 h1)).
    { apply (step_key (game_in INPUT g 0 h) random0 key (SET_MOVED_DIRECTION d)
               {| State.phase := ACTIVE; State.grid := g1 |} h1); [done| |].
      - unfold inputHandler. by rewrite Hkey.
      - cbn. by rewrite (bind_ok _ _ _ _ _ Hmove). }
    eapply rtc_trans.
    { apply (quiet_signals g1 h1 k (Z.to_nat (k - 1)) Hk 0). lia. }
    replace (0 + Z.of_nat (Z.to_nat (k - 1))) with (k - 1) by lia.
    eapply (rtc_l _ _ (game_in TEST_WON g1 0 h1)).
    { apply (step_advance (game_in ACTIVE g1 (k - 1) h1) random0 k 0
               (CLEAR_TRANSIENT_STATE TEST_WON)
               {| State.phase := TEST_WON; State.grid := g1 |} h1); [done| |].
      - cbn [game_in Game.state Game.count State.phase].
        unfold handleBoxAnimationComplete. by rewrite Z.sub_add, Z.eqb_refl.
      - cbn. rewrite cloneGrid_same.
        rewrite (bind_ok _ _ h1 g1 h1); [done|].
        apply updateCells_nothing_to_clear; [done|]. intros p c Hp Hc.
        destruct (Hfull1 p c Hp Hc) as [(b & Hb & Hnew) Hm]. split; [done|].
        unfold hasNew. by rewrite Hb. }
    eapply (rtc_l _ _ (game_in SPAWN g1 0 h1)); [|apply rtc_refl].
    apply (step_effect (game_in TEST_WON g1 0 h1) random0 (SET_PHASE SPAWN) h1
             {| State.phase := SPAWN; State.grid := g1 |} h1); [|done].
    cbn. by rewrite (bind_ok _ _ h1 false h1)
      by (by apply (hasWon_same_blocks h g h1 g1)).
  - destruct (SPAWN_full_board h1 g1 random0 Hwf1) as [_ Hspawn].
    { intros p c Hp Hc. by destruct (Hfull1 p c Hp Hc). }
    exists random0. eexists _, _. split; [exact Hspawn|]. done.
Qed.

(** C10.  On a well-formed grid with no empty cell and no block marked new,
    SPAWN is not total: [findEmptyCellPositions] returns the empty list,
    [arrayRandomItem] reads index 0 of that list and gets [undefined], the
    handler dispatches ADD_NEW_BLOCK with that position, and the reducer
    throws a TypeError in [setBlockAt].  Such a SPAWN is reached by play: from
    INPUT on a full board (no new block, no winning block), a key whose move
    leaves every line as it is (full lines of distinct blocks without equal
    neighbours: nothing moves, nothing merges) takes the game through ACTIVE
    and TEST_WON to SPAWN on a grid holding the same blocks, where the
    effect of the phase makes the reducer throw. *)
Theorem SPAWN_on_full_board_throws :
  (forall rnd h g,
     wf h g ->
     (forall p c, inside g p -> cellAt h g p = Some c ->
                  exists b, Cell.block c = Some b /\ Block.isNew b = false) ->
     findEmptyCellPositions g h = (Ok [], h) /\
     randomIntInclusive (Random.r1 rnd) 0 (Z.of_nat (length (@nil Vector.t)) - 1) = 0 /\
     arrayRandomItem (Random.r1 rnd) (@nil Vector.t) = js_get [] 0 /\
     js_get (@nil Vector.t) 0 = None /\
     exists block h1,
       phaseHandler rnd SPAWN g h = (Ok (Some (ADD_NEW_BLOCK None block)), h1) /\
       setBlockAt None (Some block) (cloneGrid g) h1 = (Throw TypeError, h1) /\
       reducer rnd {| State.phase := SPAWN; State.grid := g |}
               (ADD_NEW_BLOCK None block) h1 = (Throw TypeError, h1)) /\
  (forall h g key d,
     wf h g -> 1 <= Grid.size g ->
     (forall p c, inside g p -> cellAt h g p = Some c ->
                  exists b, Cell.block c = Some b /\ Block.isNew b = false) ->
     hasWon g h = (Ok false, h) ->
     KEY_DIRECTION_MAP key = Some d ->
     (forall i, 0 <= i < Grid.size g -> quietLine (linesAlong h g d i)) ->
     exists g' h',
       rtc step (game_in INPUT g 0 h) (game_in SPAWN g' 0 h') /\
       wf h' g' /\
       (forall p, inside g p -> blockAt h' g' p = blockAt h g p) /\
       effectFaults (game_in SPAWN g' 0 h')).
Proof.
  split.
  - intros rnd h g Hwf Hfull.
    destruct (SPAWN_full_board h g rnd Hwf Hfull) as [Hempty Hspawn].
    split; [done|]. split; [apply randomIntInclusive_empty|].
    split; [by rewrite arrayRandomItem_empty|]. split; [done|].
    eexists _, _. split; [exact Hspawn|]. by split.
  - apply quiet_move_reaches_faulty_SPAWN.
Qed.

Lemma board_full2_no_new p c :
  inside grid_2x2 p -> cellAt heap_full2 grid_2x2 p = Some c ->
  exists b, Cell.block c = Some b /\ Block.isNew b = false.
Proof.
  destruct p as [x y]. intros [Hx Hy] Hc. simpl in Hx, Hy.
  assert (x = 0 \/ x = 1) as [-> | ->] by lia;
    (assert (y = 0 \/ y = 1) as [-> | ->] by lia);
    injection Hc as <-; eexists; split; reflexivity.
Defined.

Lemma board_full2_rows_quiet i :
  0 <= i < Grid.size grid_2x2 ->
  quietLine (linesAlong heap_full2 grid_2x2 {| Vector.x := -1; Vector.y := 0 |} i).
Proof.
  intros Hi. simpl in Hi.
  assert (i = 0 \/ i = 1) as [-> | ->] by lia.
  - exists [block_of 0%nat "a" 2; block_of 1%nat "b" 4]. split; [reflexivity|]. split.
    + simpl. repeat (apply NoDup_cons_2;
                     [rewrite ?not_elem_of_cons, ?elem_of_nil; intuition lia|]).
      apply NoDup_nil_2.
    + intros (j & x & y & Hx & Hy & Hv). destruct j as [|[|j]]; try discriminate Hy.
      injection Hx as <-. injection Hy as <-. discriminate Hv.
  - exists [block_of 2%nat "c" 2; block_of 3%nat "d" 8]. split; [reflexivity|]. split.
    + simpl. repeat (apply NoDup_cons_2;
                     [rewrite ?not_elem_of_cons, ?elem_of_nil; intuition lia|]).
      apply NoDup_nil_2.
    + intros (j & x & y & Hx & Hy & Hv). destruct j as [|[|j]]; try discriminate Hy.
      injection Hx as <-. injection Hy as <-. discriminate Hv.
Defined.

Lemma SPAWN_on_full_board_throws_witness :
  (findEmptyCellPositions grid_2x2 heap_full2 = (Ok [], heap_full2) /\
   randomIntInclusive (Random.r1 random0) 0 (Z.of_nat (length (@nil Vector.t)) - 1) = 0 /\
   arrayRandomItem (Random.r1 random0) (@nil Vector.t) = js_get [] 0 /\
   js_get (@nil Vector.t) 0 = None /\
   exists block h1,
     phaseHandler random0 SPAWN grid_2x2 heap_full2 =
       (Ok (Some (ADD_NEW_BLOCK None block)), h1) /\
     setBlockAt None (Some block) (cloneGrid grid_2x2) h1 = (Throw TypeError, h1) /\
     reducer random0 {| State.phase := SPAWN; State.grid := grid_2x2 |}
             (ADD_NEW_BLOCK None block) h1 = (Throw TypeError, h1)) /\
  (exists g' h',
     rtc step (game_in INPUT grid_2x2 0 heap_full2) (game_in SPAWN g' 0 h') /\
     wf h' g' /\
     (forall p, inside grid_2x2 p ->
                blockAt h' g' p = blockAt heap_full2 grid_2x2 p) /\
     effectFaults (game_in SPAWN g' 0 h')).
Proof.
  destruct SPAWN_on_full_board_throws as [Hspawn Hreach]. split.
  - apply Hspawn; [wf_closed|apply board_full2_no_new].
  - apply (Hreach heap_full2 grid_2x2 "ArrowLeft" {| Vector.x := -1; Vector.y := 0 |}).
    + wf_closed.
    + simpl. lia.
    + apply board_full2_no_new.
    + reflexivity.
    + reflexivity.
    + apply board_full2_rows_quiet.
Defined.

(** * Further properties *)

(** ** Random draws ([utils.ts]) *)

Lemma randomIntInclusive_range (r : Q) (min max : Z) :
  (0 <= r)%Q -> (r < 1)%Q -> min <= max ->
  min <= randomIntInclusive r min max <= max.
Proof.
  intros Hr0 Hr1 Hmm. unfold randomIntInclusive.
  assert (0 < inject_Z (max - min + 1))%Q as Hn.
  { rewrite <- (Zlt_Qlt 0). lia. }
  split.
  - rewrite <- (Qfloor_Z min) at 1. apply Qfloor_resp_le.
    rewrite <- (Qplus_0_l (inject_Z min)) at 1.
    apply Qplus_le_l. apply Qmult_le_0_compat; [done|]. by apply Qlt_le_weak.
  - assert (Qfloor (r * inject_Z (max - min + 1) + inject_Z min) < max + 1); [|lia].
    rewrite Zlt_Qlt. eapply Qle_lt_trans; [apply Qfloor_le|].
    apply Qlt_le_trans with (inject_Z (max - min + 1) + inject_Z min)%Q.
    2:{ rewrite <- inject_Z_plus, <- Zle_Qle. lia. }
    apply Qplus_lt_l.
    rewrite <- (Qmult_1_l (inject_Z (max - min + 1))) at 2.
    by apply Qmult_lt_compat_r.
Qed.

Lemma randomIntInclusive_onto (min max k : Z) :
  min <= k <= max ->
  exists r : Q, (0 <= r)%Q /\ (r < 1)%Q /\ randomIntInclusive r min max = k.
Proof.
  intros Hk.
  exists (inject_Z (k - min) / inject_Z (max - min + 1))%Q.
  assert (0 < inject_Z (max - min + 1))%Q as Hn.
  { rewrite <- (Zlt_Qlt 0). lia. }
  split; [|split].
  - apply Qle_shift_div_l; [done|]. rewrite Qmult_0_l. rewrite <- (Zle_Qle 0). lia.
  - apply Qlt_shift_div_r; [done|]. rewrite Qmult_1_l. rewrite <- Zlt_Qlt. lia.
  - unfold randomIntInclusive.
    rewrite <- (Qfloor_Z k) at 2. apply Qfloor_comp.
    rewrite Qmult_comm, Qmult_div_r.
    + rewrite <- inject_Z_plus. f_equiv. lia.
    + intros H. rewrite H in Hn. by apply Qlt_irrefl in Hn.
Qed.

Lemma arrayRandomItem_member {A} (r : Q) (arr : list A) :
  (0 <= r)%Q -> (r < 1)%Q -> arr <> [] ->
  exists i a, randomIntInclusive r 0 (Z.of_nat (length arr) - 1) = Z.of_nat i /\
              arr !! i = Some a /\ arrayRandomItem r arr = Some a.
Proof.
  intros Hr0 Hr1 Hne.
  assert (1 <= Z.of_nat (length arr)) as Hlen.
  { destruct arr; [done|]. simpl. lia. }
  pose proof (randomIntInclusive_range r 0 (Z.of_nat (length arr) - 1) Hr0 Hr1) as Hin.
  unfold arrayRandomItem.
  set (k := randomIntInclusive r 0 (Z.of_nat (length arr) - 1)) in *.
  assert (0 <= k <= Z.of_nat (length arr) - 1) as Hk by (apply Hin; lia).
  destruct (lookup_lt_is_Some_2 arr (Z.to_nat k)) as [a Ha]; [lia|].
  exists (Z.to_nat k), a. split; [lia|]. split; [done|].
  apply js_get_Some. split; [lia|done].
Qed.

Lemma arrayRandomItem_onto {A} (arr : list A) (a : A) :
  a ∈ arr -> exists r : Q, (0 <= r)%Q /\ (r < 1)%Q /\ arrayRandomItem r arr = Some a.
Proof.
  intros Ha. apply list_elem_of_lookup in Ha as [i Hi].
  pose proof (lookup_lt_Some _ _ _ Hi) as Hlt.
  destruct (randomIntInclusive_onto 0 (Z.of_nat (length arr) - 1) (Z.of_nat i))
    as (r & Hr0 & Hr1 & Hr); [lia|].
  exists r. split; [done|]. split; [done|].
  unfold arrayRandomItem. rewrite Hr. by rewrite js_get_lookup.
Qed.

(** X2 ([arrayRandomItem]): on an empty array the result is [undefined],
    whatever the draw; on an array with elements and a draw in [0, 1) it is
    an element of the array, and every element is the result for some
    draw. *)
Theorem arrayRandomItem_picks_an_element {A} (r : Q) (arr : list A) :
  (0 <= r)%Q -> (r < 1)%Q ->
  (arr = [] -> arrayRandomItem r arr = None) /\
  (arr <> [] -> exists a, arrayRandomItem r arr = Some a /\ a ∈ arr) /\
  (forall a, a ∈ arr ->
     exists r' : Q, (0 <= r')%Q /\ (r' < 1)%Q /\ arrayRandomItem r' arr = Some a).
Proof.
  intros Hr0 Hr1. split; [|split].
  - intros ->. apply arrayRandomItem_empty.
  - intros Hne.
    destruct (arrayRandomItem_member r arr Hr0 Hr1 Hne) as (i & a & _ & Hi & Ha).
    exists a. split; [done|]. by eapply list_elem_of_lookup_2.
  - intros a. apply arrayRandomItem_onto.
Qed.

Lemma arrayRandomItem_picks_an_element_witness :
  ([1; 2; 3] = [] -> arrayRandomItem (1 # 2) [1; 2; 3] = None) /\
  ([1; 2; 3] <> [] ->
     exists a, arrayRandomItem (1 # 2) [1; 2; 3] = Some a /\ a ∈ [1; 2; 3]) /\
  (forall a, a ∈ [1; 2; 3] ->
     exists r' : Q, (0 <= r')%Q /\ (r' < 1)%Q /\ arrayRandomItem r' [1; 2; 3] = Some a).
Proof.
  apply (arrayRandomItem_picks_an_element (1 # 2) [1; 2; 3]).
  - unfold Qle. simpl. lia.
  - unfold Qlt. simpl. lia.
Defined.

(** ** The pairing scan along a line *)

Lemma concat_reverse_groups {A} (L : list (list A)) :
  concat (reverse <$> reverse L) = reverse (concat L).
Proof.
  induction L as [|g L IH]; [done|].
  rewrite reverse_cons, fmap_app, concat_app, IH. simpl.
  rewrite app_nil_r. by rewrite reverse_app.
Qed.

Lemma greedy_concat_scan l : concat (render 1 <$> greedy l) = l.
Proof.
  induction l using greedy_cases.
  - done.
  - done.
  - rewrite greedy_pair by done. rewrite fmap_cons, concat_cons. by rewrite IHl.
  - rewrite greedy_single by done. rewrite fmap_cons, concat_cons, IHl. done.
Qed.

Lemma greedy_concat_line l : concat (reverse <$> (render (-1) <$> greedy l)) = l.
Proof.
  induction l using greedy_cases.
  - done.
  - done.
  - rewrite greedy_pair by done. rewrite !fmap_cons, concat_cons. by rewrite IHl.
  - rewrite greedy_single by done. rewrite !fmap_cons, concat_cons, IHl. done.
Qed.



Lemma adjacentEqual_iff (l : list (option Block.t)) :
  adjacentEqual l = true <-> equalNeighbours l.
Proof.
  induction l as [|a rest IH]; simpl.
  - split; [done|]. by intros (j & ? & ? & H & _).
  - destruct a as [a|].
    + destruct rest as [|[b|] rest'].
      * split; [done|]. intros ([|j] & x & y & H1 & H2 & _); done.
      * rewrite orb_true_iff, IH. split.
        -- intros [Hv | (j & x & y & H1 & H2 & Hv)].
           ++ exists 0%nat, a, b. apply Z.eqb_eq in Hv. done.
           ++ exists (S j), x, y. done.
        -- intros ([|j] & x & y & H1 & H2 & Hv); simpl in *.
           ++ left. apply Z.eqb_eq. congruence.
           ++ right. by exists j, x, y.
      * rewrite IH. split.
        -- intros (j & x & y & H1 & H2 & Hv). by exists (S j), x, y.
        -- intros ([|j] & x & y & H1 & H2 & Hv); simpl in *; [done|].
           by exists j, x, y.
    + rewrite IH. split.
      * intros (j & x & y & H1 & H2 & Hv). by exists (S j), x, y.
      * intros ([|j] & x & y & H1 & H2 & Hv); simpl in *; [done|].
        by exists j, x, y.
Qed.

Lemma equalNeighbours_reverse l : equalNeighbours (reverse l) -> equalNeighbours l.
Proof.
  intros (j & a & b & H1 & H2 & Hv).
  assert (S j < length l)%nat as Hj.
  { apply lookup_lt_Some in H2. by rewrite length_reverse in H2. }
  rewrite reverse_lookup in H1 by lia. rewrite reverse_lookup in H2 by lia.
  exists (length l - S (S j))%nat, b, a.
  split; [done|]. split; [|done].
  rewrite <- H1. f_equal. lia.
Qed.

Lemma adjacentEqual_reverse l : adjacentEqual (reverse l) = adjacentEqual l.
Proof.
  apply eq_true_iff_eq. rewrite !adjacentEqual_iff. split.
  - apply equalNeighbours_reverse.
  - intros H. apply equalNeighbours_reverse. by rewrite reverse_involutive.
Qed.

(** X3 ([findBlockPairs], as [hasLost] uses it): whether the scan finds a
    pair does not depend on the direction; it finds one exactly when two
    neighbours of the line both hold a block and the two values are
    equal. *)
Theorem hasBlockPairs_either_direction (blocks : list (option Block.t)) :
  hasBlockPairs (findBlockPairs 1 blocks) = hasBlockPairs (findBlockPairs (-1) blocks) /\
  (hasBlockPairs (findBlockPairs 1 blocks) = true <-> equalNeighbours blocks).
Proof.
  rewrite !hasBlockPairs_adjacentEqual by auto. unfold scanOrder. simpl.
  rewrite adjacentEqual_reverse. split; [done|]. apply adjacentEqual_iff.
Qed.

(** ** Allocation of the empty grid *)



Lemma mapM_alloc {A} (c : Cell.t) (l : list A) :
  forall h,
    mapM (fun _ : A => let* a := allocCell c in ret (Some a)) l h =
      (Ok (Some <$> seq (length (Heap.cells h)) (length l)),
       heapWith h (replicate (length l) c)).
Proof.
  induction l as [|x l IH]; intros h.
  - unfold heapWith. simpl. rewrite app_nil_r. by destruct h.
  - cbn [mapM]. unfold bind at 1. unfold bind at 1. unfold allocCell at 1. unfold ret at 1.
    unfold bind at 1. rewrite IH. unfold ret, heapWith. cbn [Heap.cells Heap.nextRef].
    rewrite length_app. simpl. f_equal.
    + by rewrite Nat.add_1_r.
    + f_equal. by rewrite <- app_assoc.
Qed.

Lemma mapM_rows {A} (c : Cell.t) (m : nat) (inner : M (list (option nat))) (l : list A) :
  (forall h, inner h = (Ok (Some <$> seq (length (Heap.cells h)) m),
                        heapWith h (replicate m c))) ->
  forall h,
    mapM (fun _ : A => inner) l h =
      (Ok ((fun i => Some <$> seq (length (Heap.cells h) + i * m) m) <$> seq 0 (length l)),
       heapWith h (replicate (length l * m) c)).
Proof.
  intros Hinner. induction l as [|x l IH]; intros h.
  - unfold heapWith. simpl. rewrite app_nil_r. by destruct h.
  - cbn [mapM]. rewrite (bind_ok _ _ _ _ _ (Hinner h)).
    rewrite (bind_ok _ _ _ _ _ (IH _)). unfold ret, heapWith.
    cbn [Heap.cells Heap.nextRef length]. f_equal.
    + f_equal. cbn [seq]. rewrite fmap_cons, <- fmap_S_seq, <- list_fmap_compose.
      f_equal; [by rewrite Nat.mul_0_l, Nat.add_0_r|].
      apply list_fmap_ext. intros i j _. simpl. rewrite length_app, length_replicate.
      by rewrite <- Nat.add_assoc.
    + f_equal. rewrite <- app_assoc. f_equal.
      change (S (length l) * m)%nat with (m + length l * m)%nat.
      by rewrite replicate_add.
Qed.

Lemma makeEmptyGrid_eq (size : Z) h :
  0 <= size <= 4294967295 ->
  makeEmptyGrid size h =
    (Ok {| Grid.size := size;
           Grid.rows := freshRows (length (Heap.cells h)) (Z.to_nat size) |},
     heapWith h (replicate (Z.to_nat size * Z.to_nat size) makeEmptyCell)).
Proof.
  intros Hsize. unfold makeEmptyGrid, buildArray.
  replace ((size <? 0) || (4294967295 <? size)) with false
    by (symmetry; apply orb_false_iff; split; apply Z.ltb_ge; lia).
  erewrite bind_ok.
  2:{ apply (mapM_rows makeEmptyCell (Z.to_nat size)).
      intros h0. rewrite mapM_alloc. by rewrite length_seqZ. }
  unfold ret. by rewrite length_seqZ.
Qed.

(** ** Facts about the concrete boards *)

Lemma full2_wf : wf heap_full2 grid_2x2.
Proof. wf_closed. Defined.

Lemma lost2_wf : wf heap_lost2 grid_2x2.
Proof. wf_closed. Defined.

Lemma empty2_wf : wf heap_empty2 grid_2x2.
Proof. wf_closed. Defined.

Lemma grid_2x2_distinct : distinctCells grid_2x2.
Proof.
  unfold distinctCells. simpl.
  repeat (apply NoDup_cons_2; [rewrite ?not_elem_of_cons, ?elem_of_nil; intuition congruence|]).
  apply NoDup_nil_2.
Defined.

Lemma full2_columns_distinct i :
  0 <= i < Grid.size grid_2x2 ->
  NoDup (Block.ref <$> blocksOf (lineCellsAlong heap_full2 grid_2x2 up i)).
Proof.
  intros Hi. simpl in Hi.
  assert (i = 0 \/ i = 1) as [-> | ->] by lia; simpl;
    repeat (apply NoDup_cons_2; [rewrite ?not_elem_of_cons, ?elem_of_nil; intuition lia|]);
    apply NoDup_nil_2.
Defined.

Lemma full2_lines_distinct d i :
  0 <= i < Grid.size grid_2x2 ->
  NoDup (Block.ref <$> blocksOf (lineCellsAlong heap_full2 grid_2x2 d i)).
Proof.
  intros Hi. simpl in Hi. unfold lineCellsAlong.
  destruct (Vector.x d =? 0);
    (assert (i = 0 \/ i = 1) as [-> | ->] by lia); simpl;
    repeat (apply NoDup_cons_2; [rewrite ?not_elem_of_cons, ?elem_of_nil; intuition lia|]);
    apply NoDup_nil_2.
Defined.

Lemma lost2_columns_distinct i :
  0 <= i < Grid.size grid_2x2 ->
  NoDup (Block.ref <$> blocksOf (lineCellsAlong heap_lost2 grid_2x2 up i)).
Proof.
  intros Hi. simpl in Hi.
  assert (i = 0 \/ i = 1) as [-> | ->] by lia; simpl;
    repeat (apply NoDup_cons_2; [rewrite ?not_elem_of_cons, ?elem_of_nil; intuition lia|]);
    apply NoDup_nil_2.
Defined.

Lemma full2_mergedHasBlock p c :
  inside grid_2x2 p -> cellAt heap_full2 grid_2x2 p = Some c -> mergedHasBlock c.
Proof.
  destruct p as [x y]. intros [Hx Hy] Hc. simpl in Hx, Hy.
  assert (x = 0 \/ x = 1) as [-> | ->] by lia;
    (assert (y = 0 \/ y = 1) as [-> | ->] by lia);
    injection Hc as <-; intros Hm; by destruct Hm.
Defined.

Lemma empty2_no_new p c bl :
  inside grid_2x2 p -> cellAt heap_empty2 grid_2x2 p = Some c ->
  Cell.block c = Some bl -> Block.isNew bl = false.
Proof.
  destruct p as [x y]. intros [Hx Hy] Hc. simpl in Hx, Hy.
  assert (x = 0 \/ x = 1) as [-> | ->] by lia;
    (assert (y = 0 \/ y = 1) as [-> | ->] by lia);
    injection Hc as <-; discriminate.
Defined.

Lemma empty2_quiet p c :
  inside grid_2x2 p -> cellAt heap_empty2 grid_2x2 p = Some c ->
  Cell.mergedBlock c = None /\
  forall bl, Cell.block c = Some bl -> Block.isNew bl = false.
Proof.
  destruct p as [x y]. intros [Hx Hy] Hc. simpl in Hx, Hy.
  assert (x = 0 \/ x = 1) as [-> | ->] by lia;
    (assert (y = 0 \/ y = 1) as [-> | ->] by lia);
    injection Hc as <-; (split; [reflexivity|discriminate]).
Defined.

Lemma up_valid : validDirection up.
Proof. left. split; [reflexivity|]. right. reflexivity. Defined.

(** ** Writing and reading the grid *)

Lemma js_get_set_same {A} (arr : list (option A)) (i : Z) (v : option A) :
  0 <= i -> exists arr', js_set arr i v = Ok arr' /\ js_get arr' i = Some v.
Proof.
  intros Hi. destruct (Z.ltb_spec i (Z.of_nat (length arr))).
  - rewrite js_set_inside by lia. eexists. split; [done|].
    rewrite js_get_insert by lia. rewrite decide_True; [done|lia].
  - by apply js_get_set_beyond.
Qed.

Lemma js_get_set_other {A} (arr arr' : list (option A)) (i j : Z) (v : option A) :
  js_set arr i v = Ok arr' -> i <> j -> mjoin (js_get arr' j) = mjoin (js_get arr j).
Proof.
  unfold js_set. intros Hset Hij. destruct (Z.ltb_spec i 0); [done|].
  destruct (Z.ltb_spec i (Z.of_nat (length arr))); injection Hset as <-.
  - rewrite js_get_insert by lia. rewrite decide_False; [done|lia].
  - unfold js_get. destruct (Z.ltb_spec j 0); [done|].
    destruct (decide (Z.to_nat j < length arr)%nat).
    + by rewrite lookup_app_l.
    + rewrite (lookup_ge_None_2 arr) by lia.
      rewrite lookup_app_r by lia.
      destruct (decide (Z.to_nat j - length arr < Z.to_nat i - length arr)%nat).
      * rewrite lookup_app_l by (rewrite length_replicate; lia).
        rewrite lookup_replicate_2 by lia. done.
      * rewrite lookup_app_r by (rewrite length_replicate; lia).
        rewrite length_replicate.
        destruct (Z.to_nat j - length arr - (Z.to_nat i - length arr))%nat eqn:E; [lia|].
        done.
Qed.

Lemma setCellAt_lookup g p cell row :
  js_get (Grid.rows g) (Vector.y p) = Some row -> 0 <= Vector.x p ->
  exists g',
    setCellAt p cell g = Ok g' /\
    Grid.size g' = Grid.size g /\
    length (Grid.rows g') = length (Grid.rows g) /\
    getCellAt p g' = Ok cell /\
    (forall q, q <> p -> getCellAt q g' = getCellAt q g).
Proof.
  intros Hrow Hx. unfold setCellAt. rewrite Hrow.
  destruct (js_get_set_same row (Vector.x p) cell Hx) as (row' & Hset & Hrow').
  rewrite Hset. eexists. split; [done|]. split; [done|].
  apply js_get_Some in Hrow as [Hy Hrow].
  pose proof (lookup_lt_Some _ _ _ Hrow) as Hlen.
  split; [cbn [Grid.rows]; by rewrite length_insert|]. split.
  - unfold getCellAt. cbn [Grid.rows]. rewrite js_get_insert by done.
    rewrite decide_True by lia. by rewrite Hrow'.
  - intros q Hq. unfold getCellAt. cbn [Grid.rows]. rewrite js_get_insert by done.
    destruct (decide (Vector.y q = Z.of_nat (Z.to_nat (Vector.y p)))) as [Hqy|Hqy]; [|done].
    assert (Vector.y q = Vector.y p) as Hqy' by lia.
    assert (js_get (Grid.rows g) (Vector.y q) = Some row) as ->.
    { rewrite Hqy'. apply js_get_Some. exact (conj Hy Hrow). }
    f_equal. apply (js_get_set_other row row' (Vector.x p) _ cell Hset). intros Heq. apply Hq.
    destruct p, q; simpl in *. f_equal; lia.
Qed.

Lemma setColumnAt_from_lookup x column :
  forall y0 g,
    0 <= x -> 0 <= y0 ->
    y0 + Z.of_nat (length column) <= Z.of_nat (length (Grid.rows g)) ->
    exists g',
      setColumnAt_from y0 x column g = Ok g' /\
      Grid.size g' = Grid.size g /\
      length (Grid.rows g') = length (Grid.rows g) /\
      (forall k slot, column !! k = Some slot ->
         getCellAt {| Vector.x := x; Vector.y := y0 + Z.of_nat k |} g' = Ok slot) /\
      (forall p, Vector.x p <> x \/ Vector.y p < y0 \/
                 y0 + Z.of_nat (length column) <= Vector.y p ->
                 getCellAt p g' = getCellAt p g).
Proof.
  induction column as [|cell column IH]; intros y0 g Hx Hy0 Hlen.
  - exists g. repeat split; done.
  - cbn [length] in Hlen. cbn [setColumnAt_from].
    destruct (js_get_inside (Grid.rows g) y0) as [row Hrow]; [lia|].
    destruct (setCellAt_lookup g {| Vector.x := x; Vector.y := y0 |} cell row)
      as (g1 & Hset & Hsize1 & Hlen1 & Hget1 & Hother1); [done|done|].
    rewrite Hset.
    destruct (IH (y0 + 1) g1) as (g' & Hrec & Hsize' & Hlen' & Hget' & Hother');
      [done|lia|lia|].
    exists g'. split; [done|]. split; [congruence|]. split; [congruence|]. split.
    + intros [|k] slot Hk.
      * simpl in Hk. injection Hk as <-. rewrite Hother'.
        -- by rewrite Z.add_0_r.
        -- right. left. simpl. lia.
      * simpl in Hk. replace (y0 + Z.of_nat (S k)) with (y0 + 1 + Z.of_nat k) by lia.
        by apply Hget'.
    + intros p Hp. rewrite Hother'.
      * apply Hother1. intros ->. simpl in Hp. cbn [length] in Hp. lia.
      * cbn [length] in Hp. lia.
Qed.


Lemma getColumnAt_lookup x g (k : nat) :
  (k < length (Grid.rows g))%nat ->
  getCellAt {| Vector.x := x; Vector.y := Z.of_nat k |} g =
    Ok (default None (getColumnAt x g !! k)) /\
  is_Some (getColumnAt x g !! k).
Proof.
  intros Hk. destruct (lookup_lt_is_Some_2 (Grid.rows g) k Hk) as [row Hrow].
  unfold getCellAt, getColumnAt. cbn [Vector.x Vector.y].
  rewrite js_get_lookup, list_lookup_fmap, Hrow. simpl. split; [done|by eexists].
Qed.

Lemma setColumnAt_column x column g :
  0 <= x -> (length column <= length (Grid.rows g))%nat ->
  exists g',
    setColumnAt x column g = Ok g' /\
    Grid.size g' = Grid.size g /\
    getColumnAt x g' = column ++ drop (length column) (getColumnAt x g) /\
    (forall x', x' <> x -> getColumnAt x' g' = getColumnAt x' g).
Proof.
  intros Hx Hlen.
  destruct (setColumnAt_from_lookup x column 0 g) as
    (g' & Hset & Hsize & Hrows & Hget & Hother); [done|done|lia|].
  exists g'. split; [done|]. split; [done|]. split.
  - apply list_eq. intros k.
    destruct (decide (k < length (Grid.rows g'))%nat) as [Hk|Hk].
    + destruct (getColumnAt_lookup x g' k Hk) as [Hc [s Hs]].
      rewrite Hs in Hc |- *. simpl in Hc.
      destruct (decide (k < length column)%nat) as [Hkc|Hkc].
      * destruct (lookup_lt_is_Some_2 column k Hkc) as [slot Hslot].
        rewrite lookup_app_l by done. rewrite Hslot.
        specialize (Hget k slot Hslot). rewrite Z.add_0_l in Hget. congruence.
      * rewrite lookup_app_r by lia. rewrite lookup_drop.
        replace (length column + (k - length column))%nat with k by lia.
        destruct (getColumnAt_lookup x g k) as [Hc0 [s0 Hs0]]; [lia|].
        rewrite Hs0 in Hc0 |- *. simpl in Hc0.
        rewrite Hother in Hc by (simpl; lia). congruence.
    + rewrite lookup_ge_None_2 by (rewrite getColumnAt_length; lia).
      symmetry. apply lookup_ge_None_2.
      rewrite length_app, length_drop, getColumnAt_length. lia.
  - intros x' Hx'. apply list_eq. intros k.
    destruct (decide (k < length (Grid.rows g'))%nat) as [Hk|Hk].
    + destruct (getColumnAt_lookup x' g' k Hk) as [Hc [s Hs]].
      destruct (getColumnAt_lookup x' g k) as [Hc0 [s0 Hs0]]; [lia|].
      rewrite Hs in Hc |- *. rewrite Hs0 in Hc0 |- *. simpl in *.
      rewrite Hother in Hc by (simpl; lia). congruence.
    + rewrite !lookup_ge_None_2; [done| |]; rewrite getColumnAt_length; lia.
Qed.





(** X6 ([setRowAt], [getRowAt]): for a row index of the grid, [setRowAt]
    returns the grid with the same size in which [getRowAt] at that index
    gives the row, every other row is as before, and every column has
    changed at that index only. *)
Theorem setRowAt_then_getRowAt y (row : Cells) g :
  0 <= y < Z.of_nat (length (Grid.rows g)) ->
  getRowAt y (setRowAt y row g) = Some row /\
  Grid.size (setRowAt y row g) = Grid.size g /\
  (forall y', y' <> y -> getRowAt y' (setRowAt y row g) = getRowAt y' g) /\
  (forall x, getColumnAt x (setRowAt y row g) =
             <[Z.to_nat y := mjoin (js_get row x)]> (getColumnAt x g)).
Proof.
  intros Hy. unfold getRowAt, setRowAt, getColumnAt. cbn [Grid.rows Grid.size].
  destruct (Z.ltb_spec y 0); [lia|]. split; [|split; [done|split]].
  - rewrite js_get_insert by lia. rewrite decide_True; [done|lia].
  - intros y' Hy'. rewrite js_get_insert by lia. rewrite decide_False; [done|lia].
  - intros x. by rewrite list_fmap_insert.
Qed.

Lemma setRowAt_then_getRowAt_witness :
  getRowAt 0 (setRowAt 0 [Some 3%nat; Some 2%nat] grid_2x2) = Some [Some 3%nat; Some 2%nat] /\
  Grid.size (setRowAt 0 [Some 3%nat; Some 2%nat] grid_2x2) = Grid.size grid_2x2 /\
  (forall y', y' <> 0 ->
     getRowAt y' (setRowAt 0 [Some 3%nat; Some 2%nat] grid_2x2) = getRowAt y' grid_2x2) /\
  (forall x, getColumnAt x (setRowAt 0 [Some 3%nat; Some 2%nat] grid_2x2) =
             <[Z.to_nat 0 := mjoin (js_get [Some 3%nat; Some 2%nat] x)]>
               (getColumnAt x grid_2x2)).
Proof.
  apply (setRowAt_then_getRowAt 0 [Some 3%nat; Some 2%nat] grid_2x2). simpl. lia.
Defined.

(** ** The line that the resolver returns *)






Lemma greedy_length l :
  (length (greedy l) <= length l)%nat /\ (l <> [] -> 1 <= length (greedy l))%nat.
Proof.
  induction l using greedy_cases.
  - done.
  - simpl. split; [lia|]. intros _. lia.
  - rewrite greedy_pair by done. cbn [length]. split; [lia|]. intros _. lia.
  - rewrite greedy_single by done. cbn [length] in *. split; [lia|]. intros _. lia.
Qed.

Lemma resolvedGroups_length direction bs :
  bs <> [] ->
  (1 <= length (resolvedGroups direction bs) <= length bs)%nat.
Proof.
  intros Hne. unfold resolvedGroups. rewrite scanOrder_length.
  rewrite <- (scanOrder_length direction bs).
  destruct (greedy_length (scanOrder direction bs)) as [Hle Hge].
  split; [|done]. apply Hge. intros Hnil.
  apply (f_equal length) in Hnil. rewrite scanOrder_length in Hnil.
  by destruct bs.
Qed.

Lemma layout_lookup direction (n : nat) (gs : list Group) :
  (length gs <= n)%nat ->
  (fun index => js_get gs (blockPairIndex direction (Z.of_nat (length gs)) (Z.of_nat n) index))
    <$> seqZ 0 (Z.of_nat n) = layout direction n gs.
Proof.
  intros Hlen. apply list_eq. intros i. rewrite list_lookup_fmap.
  destruct (decide (i < n)%nat) as [Hi|Hi].
  - rewrite lookup_seqZ_lt by lia. simpl. unfold layout, blockPairIndex.
    destruct (direction =? 1).
    + destruct (decide (i < n - length gs)%nat) as [Hlt|Hge].
      * rewrite lookup_app_l by (rewrite length_replicate; lia).
        rewrite lookup_replicate_2 by lia. f_equal. apply js_get_outside. lia.
      * rewrite lookup_app_r by (rewrite length_replicate; lia).
        rewrite length_replicate, list_lookup_fmap.
        replace (Z.of_nat (length gs) - Z.of_nat n + (0 + Z.of_nat i))
          with (Z.of_nat (i - (n - length gs))) by lia.
        rewrite js_get_lookup.
        destruct (lookup_lt_is_Some_2 gs (i - (n - length gs))) as [g Hg]; [lia|].
        by rewrite Hg.
    + rewrite Z.add_0_l, js_get_lookup.
      destruct (decide (i < length gs)%nat) as [Hlt|Hge].
      * rewrite lookup_app_l by (rewrite length_fmap; lia).
        rewrite list_lookup_fmap.
        destruct (lookup_lt_is_Some_2 gs i Hlt) as [g Hg]. by rewrite Hg.
      * rewrite lookup_app_r by (rewrite length_fmap; lia).
        rewrite length_fmap.
        rewrite lookup_replicate_2 by lia.
        by rewrite lookup_ge_None_2 by lia.
  - rewrite lookup_seqZ_ge by lia. simpl. symmetry. apply lookup_ge_None_2.
    unfold layout. destruct (direction =? 1);
      rewrite length_app, length_replicate, length_fmap; lia.
Qed.

Lemma omap_length_le {A B} (f : A -> option B) (l : list A) :
  (length (omap f l) <= length l)%nat.
Proof.
  induction l as [|a l IH]; [done|]. cbn [omap list_omap].
  destruct (f a); cbn [length]; lia.
Qed.

(** the line that the resolver returns: new cell objects, one per cell of
    the line, holding the groups of the blocks laid out from the destination
    edge *)
Lemma resolve_line_layout direction (cells : list (option nat)) h :
  direction = 1 \/ direction = -1 ->
  Forall (slot_ok h) cells ->
  NoDup (Block.ref <$> omap (fun b => b) (blockOfSlot h <$> cells)) ->
  omap (fun b => b) (blockOfSlot h <$> cells) <> [] ->
  exists cs r,
    resolveColumnOrRowInDirection direction cells h =
      (Ok (Some <$> seq (length (Heap.cells h)) (length cells)),
       {| Heap.cells := Heap.cells h ++ cs; Heap.nextRef := r |}) /\
    Forall2 cellOfGroup
      (layout direction (length cells)
         (resolvedGroups direction (omap (fun b => b) (blockOfSlot h <$> cells)))) cs.
Proof.
  intros Hd Hok Hnd Hne.
  destruct (resolveColumnOrRowInDirection_groups direction cells h Hd Hok Hnd Hne)
    as (cs & r & Hres & Hcs).
  exists cs, r. split; [done|].
  rewrite <- layout_lookup.
  - apply Forall2_fmap_l. unfold resolvedGroups.
    rewrite scanOrder_length. exact Hcs.
  - etrans; [apply resolvedGroups_length; done|].
    etrans; [apply omap_length_le|]. by rewrite length_fmap.
Qed.


Lemma omap_fmap_Some {A B} (f : A -> option B) (l : list A) (l' : list B) :
  f <$> l = Some <$> l' -> omap f l = l'.
Proof.
  revert l'. induction l as [|a l IH]; intros [|b l'] Heq; try done.
  rewrite !fmap_cons in Heq. injection Heq as Ha Hl.
  cbn [omap list_omap]. rewrite Ha. f_equal. by apply IH.
Qed.

Lemma lineCells_new h cs r :
  lineCells {| Heap.cells := Heap.cells h ++ cs; Heap.nextRef := r |}
            (Some <$> seq (length (Heap.cells h)) (length cs)) = cs.
Proof.
  unfold lineCells. apply omap_fmap_Some. apply list_eq. intros i.
  rewrite !list_lookup_fmap. cbn [Heap.cells].
  destruct (decide (i < length cs)%nat) as [Hi|Hi].
  - rewrite lookup_seq_lt by done. simpl.
    rewrite lookup_app_r by lia.
    replace (length (Heap.cells h) + i - length (Heap.cells h))%nat with i by lia.
    destruct (lookup_lt_is_Some_2 cs i Hi) as [c Hc]. by rewrite Hc.
  - rewrite lookup_seq_ge by lia. by rewrite lookup_ge_None_2 by lia.
Qed.

Lemma Forall2_fmap_eq {A B C} (f : A -> C) (g : B -> C) (l : list A) (k : list B) :
  Forall2 (fun a b => f a = g b) l k -> f <$> l = g <$> k.
Proof. induction 1; [done|]. rewrite !fmap_cons. by f_equal. Qed.

Lemma sumZ_cons a l : sumZ (a :: l) = a + sumZ l.
Proof. done. Qed.

Lemma sumZ_app l1 l2 : sumZ (l1 ++ l2) = sumZ l1 + sumZ l2.
Proof. induction l1 as [|a l1 IH]; simpl; [done|]. unfold sumZ in *. simpl. lia. Qed.

Lemma sumZ_perm l1 l2 : l1 ≡ₚ l2 -> sumZ l1 = sumZ l2.
Proof. unfold sumZ. induction 1; simpl; lia. Qed.

Lemma sumZ_zeros (n : nat) : sumZ (replicate n 0) = 0.
Proof. induction n as [|n IH]; [done|]. unfold sumZ in *. simpl. lia. Qed.

Lemma concat_scanOrder_perm {A B} direction (f : A -> list B) (l : list A) :
  concat (f <$> scanOrder direction l) ≡ₚ concat (f <$> l).
Proof.
  unfold scanOrder. destruct (direction =? 1); [|done].
  by rewrite reverse_Permutation.
Qed.

(** the blocks of the groups of a line are the blocks of the line *)
Lemma resolvedGroups_perm direction bs :
  concat (render (-1) <$> resolvedGroups direction bs) ≡ₚ bs.
Proof.
  unfold resolvedGroups. rewrite concat_scanOrder_perm, greedy_perm.
  apply scanOrder_perm.
Qed.


Lemma cellOfGroup_value g c : cellOfGroup g c -> groupValue g = cellValue c.
Proof.
  destruct g as [[a|a b]|]; simpl.
  - by intros ->.
  - intros (bl & Hb & _ & Hv & _). unfold cellValue. by rewrite Hb.
  - by intros ->.
Qed.

Lemma cellOfGroup_isEmpty g c :
  cellOfGroup g c -> isEmpty c = match g with None => true | Some _ => false end.
Proof.
  destruct g as [[a|a b]|]; simpl.
  - by intros ->.
  - intros (bl & Hb & _). unfold isEmpty. by rewrite Hb.
  - by intros ->.
Qed.


Lemma layout_fmap {B} direction n gs (f : option Group -> B) :
  f <$> layout direction n gs =
  if direction =? 1 then replicate (n - length gs) (f None) ++ ((fun g => f (Some g)) <$> gs)
  else ((fun g => f (Some g)) <$> gs) ++ replicate (n - length gs) (f None).
Proof.
  unfold layout. destruct (direction =? 1);
    by rewrite fmap_app, fmap_replicate, <- list_fmap_compose.
Qed.

Lemma fmap_const_replicate {A B} (b : B) (l : list A) :
  (fun _ => b) <$> l = replicate (length l) b.
Proof. induction l as [|a l IH]; [done|]. simpl. by f_equal. Qed.

Lemma sumZ_groups (gs : list Group) :
  sumZ ((fun g => groupValue (Some g)) <$> gs) =
  sumZ (Block.value <$> concat (render (-1) <$> gs)).
Proof.
  induction gs as [|g gs IH]; [done|].
  rewrite !fmap_cons, concat_cons, fmap_app, sumZ_app, <- IH.
  destruct g; unfold sumZ; simpl; lia.
Qed.

Lemma concat_nils {A} (n : nat) : concat (replicate n (@nil A)) = [].
Proof. induction n as [|n IH]; [done|]. simpl. done. Qed.


Section ResolvedLine.
Variable direction : Z.
Variable cells : list (option nat).
Variable h : Heap.t.
Hypothesis Hd : direction = 1 \/ direction = -1.
Hypothesis Hok : Forall (slot_ok h) cells.
Hypothesis Hnd : NoDup (Block.ref <$> omap (fun b => b) (blockOfSlot h <$> cells)).
Hypothesis Hne : omap (fun b => b) (blockOfSlot h <$> cells) <> [].

Lemma resolved_line_cells :
  exists cells' h',
    resolveColumnOrRowInDirection direction cells h = (Ok cells', h') /\
    length cells' = length cells /\
    Forall2 cellOfGroup
      (layout direction (length cells)
         (resolvedGroups direction (omap (fun b => b) (blockOfSlot h <$> cells))))
      (lineCells h' cells').
Proof.
  destruct (resolve_line_layout direction cells h Hd Hok Hnd Hne) as (cs & r & Hres & Hcs).
  eexists _, _. split; [exact Hres|]. split; [by rewrite length_fmap, length_seq|].
  assert (length cs = length cells) as Hlen.
  { apply Forall2_length in Hcs. rewrite <- Hcs. unfold layout.
    pose proof (resolvedGroups_length direction _ Hne) as [_ Hle].
    pose proof (omap_length_le (fun b : option Block.t => b) (blockOfSlot h <$> cells)) as Hle2.
    rewrite length_fmap in Hle2.
    destruct (direction =? 1); rewrite length_app, length_replicate, length_fmap; lia. }
  rewrite <- Hlen at 2. by rewrite lineCells_new.
Qed.
End ResolvedLine.

(** X7 ([resolveColumnOrRowInDirection]): a line with at least one block
    (distinct block objects), moved with sign +1 or -1, comes back with its
    [k] non-empty cells packed against the destination edge (the last [k]
    cells for +1, the first [k] for -1), where [k] is at least 1 and at most
    the number of blocks; the other cells hold neither a block nor a merged
    block. *)
Theorem resolved_line_is_packed direction (cells : list (option nat)) h :
  direction = 1 \/ direction = -1 ->
  Forall (slot_ok h) cells ->
  NoDup (Block.ref <$> omap (fun b => b) (blockOfSlot h <$> cells)) ->
  omap (fun b => b) (blockOfSlot h <$> cells) <> [] ->
  exists cells' h' (k : nat),
    resolveColumnOrRowInDirection direction cells h = (Ok cells', h') /\
    (1 <= k <= length (omap (fun b => b) (blockOfSlot h <$> cells)))%nat /\
    isEmpty <$> lineCells h' cells' =
      (if direction =? 1
       then replicate (length cells - k) true ++ replicate k false
       else replicate k false ++ replicate (length cells - k) true) /\
    Forall (fun c => isEmpty c = true -> c = makeEmptyCell) (lineCells h' cells').
Proof.
  intros Hd Hok Hnd Hne.
  destruct (resolved_line_cells direction cells h Hd Hok Hnd Hne)
    as (cells' & h' & Hres & Hlen & Hcs).
  exists cells', h',
    (length (resolvedGroups direction (omap (fun b => b) (blockOfSlot h <$> cells)))).
  split; [done|]. split; [by apply resolvedGroups_length|]. split.
  - erewrite <- (Forall2_fmap_eq
                  (fun g : option Group => match g with None => true | Some _ => false end)
                  isEmpty).
    + rewrite layout_fmap. by rewrite fmap_const_replicate.
    + eapply Forall2_impl; [exact Hcs|]. intros g c Hg. symmetry.
      by apply cellOfGroup_isEmpty.
  - eapply Forall2_Forall_r; [exact Hcs|]. apply Forall_true.
    intros g c Hg He. rewrite (cellOfGroup_isEmpty g c Hg) in He.
    destruct g; [done|]. exact Hg.
Qed.

Lemma resolved_line_is_packed_witness :
  exists cells' h' (k : nat),
    resolveColumnOrRowInDirection 1 line_pair heap_pair = (Ok cells', h') /\
    (1 <= k <= length (omap (fun b => b) (blockOfSlot heap_pair <$> line_pair)))%nat /\
    isEmpty <$> lineCells h' cells' =
      (if 1 =? 1
       then replicate (length line_pair - k) true ++ replicate k false
       else replicate k false ++ replicate (length line_pair - k) true) /\
    Forall (fun c => isEmpty c = true -> c = makeEmptyCell) (lineCells h' cells').
Proof.
  apply (resolved_line_is_packed 1 line_pair heap_pair).
  - by left.
  - repeat constructor; eexists _, _; split; reflexivity.
  - simpl. repeat (apply NoDup_cons_2; [rewrite ?not_elem_of_cons, ?elem_of_nil; intuition lia|]).
    apply NoDup_nil_2.
  - discriminate.
Defined.




(** ** The move on the whole grid *)







Lemma blocksOf_slots h (cells : list (option nat)) :
  blocksOf (cellOfSlot h <$> cells) = omap (fun b => b) (blockOfSlot h <$> cells).
Proof.
  unfold blocksOf. induction cells as [|slot cells IH]; [done|].
  rewrite !fmap_cons. cbn [omap list_omap]. rewrite IH.
  assert (cellOfSlot h slot ≫= Cell.block = blockOfSlot h slot) as ->; [|done].
  destruct slot as [a|]; [|done]. simpl. by destruct (Heap.cells h !! a).
Qed.

Lemma cellOfSlot_new h cs r (n : nat) :
  length cs = n ->
  cellOfSlot {| Heap.cells := Heap.cells h ++ cs; Heap.nextRef := r |}
    <$> (Some <$> seq (length (Heap.cells h)) n) = Some <$> cs.
Proof.
  intros <-. apply list_eq. intros i.
  rewrite !list_lookup_fmap. cbn [Heap.cells].
  destruct (decide (i < length cs)%nat) as [Hi|Hi].
  - rewrite lookup_seq_lt by done. simpl.
    rewrite lookup_app_r by lia.
    replace (length (Heap.cells h) + i - length (Heap.cells h))%nat with i by lia.
    destruct (lookup_lt_is_Some_2 cs i Hi) as [c Hc]. by rewrite Hc.
  - rewrite lookup_seq_ge by lia. by rewrite lookup_ge_None_2 by lia.
Qed.

Lemma cellOfSlot_extend h cs r (cells : list (option nat)) :
  Forall (slot_ok h) cells ->
  cellOfSlot {| Heap.cells := Heap.cells h ++ cs; Heap.nextRef := r |} <$> cells =
  cellOfSlot h <$> cells.
Proof.
  intros Hok. apply Forall_fmap_ext. eapply Forall_impl; [exact Hok|].
  intros slot (a & c & -> & Hc). simpl. rewrite Hc. by apply lookup_app_l_Some.
Qed.

(** the resolver on a line of cell objects: what it returns, in terms of
    the cells read through the slots *)
Lemma resolve_line_resolved direction (cells : list (option nat)) h :
  direction = 1 \/ direction = -1 ->
  Forall (slot_ok h) cells ->
  NoDup (Block.ref <$> blocksOf (cellOfSlot h <$> cells)) ->
  exists cells' cs r,
    resolveColumnOrRowInDirection direction cells h =
      (Ok cells', {| Heap.cells := Heap.cells h ++ cs; Heap.nextRef := r |}) /\
    length cells' = length cells /\
    Forall (slot_ok {| Heap.cells := Heap.cells h ++ cs; Heap.nextRef := r |}) cells' /\
    lineResolved direction (cellOfSlot h <$> cells)
      (cellOfSlot {| Heap.cells := Heap.cells h ++ cs; Heap.nextRef := r |} <$> cells').
Proof.
  intros Hd Hok Hnd. rewrite blocksOf_slots in Hnd.
  destruct (resolveColumnOrRowInDirection_total direction cells h Hok)
    as (cells' & cs & r & Hres & Hlen & Hok').
  exists cells', cs, r. split; [done|]. split; [done|]. split; [done|].
  unfold lineResolved. rewrite blocksOf_slots, length_fmap.
  destruct (decide (omap (fun b => b) (blockOfSlot h <$> cells) = [])) as [Hnil|Hne].
  - unfold resolveColumnOrRowInDirection in Hres.
    rewrite (bind_ok _ _ _ _ _ (pluckBlocks_slots h cells Hok)) in Hres.
    rewrite Hnil in Hres. simpl in Hres. unfold ret in Hres.
    injection Hres as <- _. by apply cellOfSlot_extend.
  - destruct (resolve_line_layout direction cells h Hd Hok Hnd Hne)
      as (cs2 & r2 & Hres2 & Hcs2).
    rewrite Hres2 in Hres. injection Hres as <- Hcs <-.
    apply app_inv_head in Hcs. subst cs2.
    rewrite cellOfSlot_new.
    + apply Forall2_fmap_r. eapply Forall2_impl; [exact Hcs2|].
      intros g c Hg. by exists c.
    + apply Forall2_length in Hcs2. rewrite <- Hcs2. unfold layout.
      pose proof (resolvedGroups_length direction _ Hne) as [_ Hle].
      pose proof (omap_length_le (fun b : option Block.t => b) (blockOfSlot h <$> cells)) as Hle2.
      rewrite length_fmap in Hle2.
      destruct (direction =? 1); rewrite length_app, length_replicate, length_fmap; lia.
Qed.

(** ** Computations that leave the existing cell objects alone *)



Lemma extends_refl h : extends h h.
Proof. exists []. by rewrite app_nil_r. Qed.

Lemma extends_trans h1 h2 h3 : extends h1 h2 -> extends h2 h3 -> extends h1 h3.
Proof. intros [cs1 H1] [cs2 H2]. exists (cs1 ++ cs2). by rewrite H2, H1, app_assoc. Qed.

Lemma extends_lookup h h' a c :
  extends h h' -> Heap.cells h !! a = Some c -> Heap.cells h' !! a = Some c.
Proof. intros [cs ->] Ha. by apply lookup_app_l_Some. Qed.

Lemma grows_ret {A} (a : A) : grows (ret a).
Proof. intros h. apply extends_refl. Qed.






Lemma grows_bind {A B} (m : M A) (k : A -> M B) :
  grows m -> (forall a, grows (k a)) -> grows (bind m k).
Proof.
  intros Hm Hk h. unfold bind. specialize (Hm h).
  destruct (m h) as [[a|f] h1]; simpl in *; [|done].
  eapply extends_trans; [exact Hm|]. apply Hk.
Qed.



Lemma grows_existsM {A} (f : A -> M bool) (l : list A) :
  (forall a, grows (f a)) -> grows (existsM f l).
Proof.
  intros Hf. induction l as [|a l IH]; [apply grows_ret|].
  cbn [existsM]. apply grows_bind; [done|]. intros [|]; [apply grows_ret|done].
Qed.








(** ** The move, line by line *)

Lemma cellAt_slot h g p row :
  js_get (Grid.rows g) (Vector.y p) = Some row ->
  cellAt h g p = cellOfSlot h (mjoin (js_get row (Vector.x p))).
Proof. intros Hrow. unfold cellAt, getCellAt. rewrite Hrow. by destruct (mjoin _). Qed.

Lemma columnCells_slots h g (x : Z) :
  wf h g -> columnCells h g x = cellOfSlot h <$> getColumnAt x g.
Proof.
  intros [Hsize Hrows]. unfold columnCells, getColumnAt.
  apply list_eq. intros i. rewrite !list_lookup_fmap.
  destruct (Grid.rows g !! i) as [row|] eqn:Hrow.
  - rewrite lookup_seqZ_lt.
    2:{ apply lookup_lt_Some in Hrow. lia. }
    rewrite Z.add_0_l. simpl. f_equal. rewrite (cellAt_slot h g _ row); [done|].
    simpl. by rewrite js_get_lookup.
  - rewrite lookup_seqZ_ge; [done|]. apply lookup_ge_None in Hrow. lia.
Qed.

Lemma rowCells_slots h g (y : Z) row :
  wf h g -> js_get (Grid.rows g) y = Some row ->
  rowCells h g y = cellOfSlot h <$> row.
Proof.
  intros [Hsize Hrows] Hrow. unfold rowCells.
  assert (length row = length (Grid.rows g)) as Hlen.
  { rewrite Forall_forall in Hrows. apply Hrows.
    apply js_get_Some in Hrow as [_ Hrow]. eapply list_elem_of_lookup_2, Hrow. }
  apply list_eq. intros i. rewrite !list_lookup_fmap.
  destruct (row !! i) as [slot|] eqn:Hslot.
  - rewrite lookup_seqZ_lt.
    2:{ apply lookup_lt_Some in Hslot. lia. }
    rewrite Z.add_0_l. cbn [fmap option_fmap option_map]. f_equal.
    rewrite (cellAt_slot h g _ row); [|done].
    cbn [Vector.x]. by rewrite js_get_lookup, Hslot.
  - rewrite lookup_seqZ_ge; [done|]. apply lookup_ge_None in Hslot. lia.
Qed.

Lemma columnBlocks_cells h g x :
  omap (fun b => b) (columnBlocks h g x) = blocksOf (columnCells h g x).
Proof.
  unfold columnBlocks, columnCells, blocksOf, blockAt.
  induction (seqZ 0 (Grid.size g)) as [|y ys IH]; [done|].
  rewrite !fmap_cons. cbn [omap list_omap]. rewrite IH.
  by destruct (cellAt h g _).
Qed.

Lemma rowBlocks_cells h g y :
  omap (fun b => b) (rowBlocks h g y) = blocksOf (rowCells h g y).
Proof.
  unfold rowBlocks, rowCells, blocksOf, blockAt.
  induction (seqZ 0 (Grid.size g)) as [|x xs IH]; [done|].
  rewrite !fmap_cons. cbn [omap list_omap]. rewrite IH.
  by destruct (cellAt h g _).
Qed.

Lemma cellAt_extend_eq h cs r g p :
  wf h g -> inside g p ->
  cellAt {| Heap.cells := Heap.cells h ++ cs; Heap.nextRef := r |} g p = cellAt h g p.
Proof.
  intros Hwf Hp. destruct (wf_cellAt h g p Hwf Hp) as [c Hc].
  rewrite Hc. by apply cellAt_extend.
Qed.

(** one step of the vertical loop: column [x] is resolved, every other
    column reads as before *)
Lemma column_step_resolved dy x g h :
  dy = 1 \/ dy = -1 ->
  wf h g -> 0 <= x < Grid.size g ->
  NoDup (Block.ref <$> blocksOf (columnCells h g x)) ->
  exists g1 h1,
    (let column := getColumnAt x g in
     let* nextColumn := resolveColumnOrRowInDirection dy column in
     liftR (setColumnAt x nextColumn g)) h = (Ok g1, h1) /\
    wf h1 g1 /\ Grid.size g1 = Grid.size g /\
    (forall p, inside g p -> Vector.x p <> x -> cellAt h1 g1 p = cellAt h g p) /\
    lineResolved dy (columnCells h g x) (columnCells h1 g1 x).
Proof.
  intros Hd Hwf Hx Hnd.
  pose proof (wf_column_ok h g x Hwf Hx) as Hok.
  rewrite columnCells_slots in Hnd |- * by done.
  destruct (resolve_line_resolved dy (getColumnAt x g) h Hd Hok Hnd)
    as (cells' & cs & r & Hres & Hlen & Hok' & Hline).
  set (h1 := {| Heap.cells := Heap.cells h ++ cs; Heap.nextRef := r |}) in *.
  assert (Z.of_nat (length cells') = Grid.size g) as Hlen'.
  { rewrite Hlen, getColumnAt_length. by destruct Hwf as [-> _]. }
  destruct (setColumnAt_from_wf h1 x cells' 0 g) as (g1 & Hset & Hwf1 & Hsize1);
    [by apply wf_extend|done|done|lia|done|].
  destruct (setColumnAt_column x cells' g) as (g1' & Hset' & _ & Hcol & _); [lia| |].
  { rewrite Hlen, getColumnAt_length. done. }
  unfold setColumnAt in Hset'. rewrite Hset in Hset'. injection Hset' as <-.
  destruct (setColumnAt_from_lookup x cells' 0 g) as (g1' & Hset' & _ & _ & _ & Hother);
    [lia|lia| |].
  { rewrite Hlen, getColumnAt_length. lia. }
  rewrite Hset in Hset'. injection Hset' as <-.
  exists g1, h1. split.
  { cbv zeta. rewrite (bind_ok _ _ _ _ _ Hres). unfold liftR, setColumnAt. by rewrite Hset. }
  split; [done|]. split; [done|]. split.
  - intros p Hp Hpx. unfold cellAt at 1. rewrite Hother by (by left).
    fold (cellAt h1 g p). by apply cellAt_extend_eq.
  - rewrite (columnCells_slots h1 g1) by done. rewrite Hcol.
    rewrite drop_ge by (rewrite Hlen; lia). by rewrite app_nil_r.
Qed.

(** one step of the horizontal loop *)
Lemma row_step_resolved dx y g h :
  dx = 1 \/ dx = -1 ->
  wf h g -> 0 <= y < Grid.size g ->
  NoDup (Block.ref <$> blocksOf (rowCells h g y)) ->
  exists g1 h1,
    match getRowAt y g with
    | None => throw TypeError
    | Some row =>
        let* nextRow := resolveColumnOrRowInDirection dx row in
        ret (setRowAt y nextRow g)
    end h = (Ok g1, h1) /\
    wf h1 g1 /\ Grid.size g1 = Grid.size g /\
    (forall p, inside g p -> Vector.y p <> y -> cellAt h1 g1 p = cellAt h g p) /\
    lineResolved dx (rowCells h g y) (rowCells h1 g1 y).
Proof.
  intros Hd Hwf Hy Hnd.
  destruct (wf_row h g y Hwf Hy) as (row & Hrow & Hrowlen & Hok).
  rewrite (rowCells_slots h g y row) in Hnd |- * by done.
  destruct (resolve_line_resolved dx row h Hd Hok Hnd)
    as (cells' & cs & r & Hres & Hlen & Hok' & Hline).
  set (h1 := {| Heap.cells := Heap.cells h ++ cs; Heap.nextRef := r |}) in *.
  destruct (setRowAt_wf h1 g y cells') as [Hwf1 Hsize1];
    [by apply wf_extend|done|lia|done|].
  destruct (setRowAt_spec h1 g y cells') as (Hget & _ & Hother);
    [by apply wf_extend|done|].
  exists (setRowAt y cells' g), h1. split.
  { unfold getRowAt. rewrite Hrow. by rewrite (bind_ok _ _ _ _ _ Hres). }
  split; [done|]. split; [done|]. split.
  - intros p Hp Hpy. unfold cellAt at 1. rewrite Hother by done.
    fold (cellAt h1 g p). by apply cellAt_extend_eq.
  - by rewrite (rowCells_slots h1 (setRowAt y cells' g) y cells').
Qed.

(** the loop over the lines, for either branch *)
Section ResolveLoop.
Variable sign : Z.
Variable coord : Vector.t -> Z.
Variable lineStep : Grid.t -> Z -> M Grid.t.
Variable cellsOf : Heap.t -> Grid.t -> Z -> list (option Cell.t).

Hypothesis cellsOf_same :
  forall h g h' g' i,
    Grid.size g' = Grid.size g -> 0 <= i < Grid.size g ->
    (forall p, inside g p -> coord p = i -> cellAt h' g' p = cellAt h g p) ->
    cellsOf h' g' i = cellsOf h g i.

Hypothesis lineStep_resolved :
  forall i g h,
    wf h g -> 0 <= i < Grid.size g ->
    NoDup (Block.ref <$> blocksOf (cellsOf h g i)) ->
    exists g1 h1,
      lineStep g i h = (Ok g1, h1) /\
      wf h1 g1 /\ Grid.size g1 = Grid.size g /\
      (forall p, inside g p -> coord p <> i -> cellAt h1 g1 p = cellAt h g p) /\
      lineResolved sign (cellsOf h g i) (cellsOf h1 g1 i).

Lemma resolve_loop lines :
  NoDup lines ->
  forall g h,
    wf h g ->
    Forall (fun i => 0 <= i < Grid.size g) lines ->
    (forall i, i ∈ lines -> NoDup (Block.ref <$> blocksOf (cellsOf h g i))) ->
    exists g' h',
      foldM lineStep lines g h = (Ok g', h') /\
      wf h' g' /\ Grid.size g' = Grid.size g /\
      (forall p, inside g p -> coord p ∉ lines -> cellAt h' g' p = cellAt h g p) /\
      (forall i, i ∈ lines -> lineResolved sign (cellsOf h g i) (cellsOf h' g' i)).
Proof.
  induction 1 as [|i lines Hi Hnd IH]; intros g h Hwf Hrange Hdistinct.
  - exists g, h. split; [done|]. split; [done|]. split; [done|]. split; [done|].
    intros i Hi. by apply elem_of_nil in Hi.
  - apply Forall_cons in Hrange as [Hir Hrange].
    destruct (lineStep_resolved i g h Hwf Hir) as
      (g1 & h1 & Hstep & Hwf1 & Hsize1 & Hother1 & Hline1); [apply Hdistinct; left|].
    assert (forall j, j ∈ lines -> cellsOf h1 g1 j = cellsOf h g j) as Hsame1.
    { intros j Hj. apply cellsOf_same; [done| |].
      - rewrite Forall_forall in Hrange. by apply Hrange.
      - intros p Hp Hc. apply Hother1; [done|]. intros Heq. apply Hi. congruence. }
    destruct (IH g1 h1) as (g' & h' & Hfold & Hwf' & Hsize' & Hother' & Hlines'); [done| | |].
    { eapply Forall_impl; [exact Hrange|]. intros j. simpl. lia. }
    { intros j Hj. rewrite Hsame1 by done. apply Hdistinct. by right. }
    assert (forall p, inside g p -> inside g1 p) as Hin1.
    { intros p. unfold inside. by rewrite Hsize1. }
    exists g', h'. split.
    { cbn [foldM]. by rewrite (bind_ok _ _ _ _ _ Hstep). }
    split; [done|]. split; [lia|]. split.
    + intros p Hp Hnot. apply not_elem_of_cons in Hnot as [Hne Hnot].
      rewrite Hother' by (by try apply Hin1). by apply Hother1.
    + intros j Hj. apply elem_of_cons in Hj as [->|Hj].
      * assert (cellsOf h' g' i = cellsOf h1 g1 i) as ->; [|done].
        apply cellsOf_same; [done|lia|].
        intros p Hp Hc. apply Hother'; [done|]. by rewrite Hc.
      * rewrite <- (Hsame1 j Hj). by apply Hlines'.
Qed.
End ResolveLoop.

Lemma columnCells_same h g h' g' x :
  Grid.size g' = Grid.size g -> 0 <= x < Grid.size g ->
  (forall p, inside g p -> Vector.x p = x -> cellAt h' g' p = cellAt h g p) ->
  columnCells h' g' x = columnCells h g x.
Proof.
  intros Hsize Hx Hsame. unfold columnCells. rewrite Hsize.
  apply Forall_fmap_ext, Forall_forall. intros y Hy. apply elem_of_seqZ in Hy.
  apply Hsame; [|done]. unfold inside. simpl. lia.
Qed.

Lemma rowCells_same h g h' g' y :
  Grid.size g' = Grid.size g -> 0 <= y < Grid.size g ->
  (forall p, inside g p -> Vector.y p = y -> cellAt h' g' p = cellAt h g p) ->
  rowCells h' g' y = rowCells h g y.
Proof.
  intros Hsize Hy Hsame. unfold rowCells. rewrite Hsize.
  apply Forall_fmap_ext, Forall_forall. intros x Hx. apply elem_of_seqZ in Hx.
  apply Hsame; [|done]. unfold inside. simpl. lia.
Qed.

Lemma linesAlong_cells h g d i :
  omap (fun b => b) (linesAlong h g d i) = blocksOf (lineCellsAlong h g d i).
Proof.
  unfold linesAlong, lineCellsAlong. destruct (Vector.x d =? 0).
  - apply columnBlocks_cells.
  - apply rowBlocks_cells.
Qed.

(** a move resolves every line along its direction by itself *)
Lemma resolveCellsInDirection_lines d g h :
  validDirection d ->
  wf h g ->
  (forall i, 0 <= i < Grid.size g ->
             NoDup (Block.ref <$> blocksOf (lineCellsAlong h g d i))) ->
  exists g' h',
    resolveCellsInDirection d g h = (Ok g', h') /\
    wf h' g' /\ Grid.size g' = Grid.size g /\
    (forall i, 0 <= i < Grid.size g ->
       lineResolved (moveSign d) (lineCellsAlong h g d i) (lineCellsAlong h' g' d i)).
Proof.
  intros Hd Hwf Hdistinct. unfold resolveCellsInDirection. rewrite cloneGrid_same.
  unfold lineCellsAlong, moveSign in *.
  destruct Hd as [[Hx Hy]|[Hy Hx]].
  - rewrite Hx in *. simpl in *.
    destruct (resolve_loop (Vector.y d) Vector.x
                (fun nextGrid x =>
                   let column := getColumnAt x nextGrid in
                   let* nextColumn := resolveColumnOrRowInDirection (Vector.y d) column in
                   liftR (setColumnAt x nextColumn nextGrid))
                columnCells columnCells_same
                (fun i g h => column_step_resolved (Vector.y d) i g h Hy)
                (seqZ 0 (Grid.size g)) (NoDup_seqZ _ _) g h Hwf (seqZ_range _))
      as (g' & h' & Hfold & Hwf' & Hsize' & _ & Hlines).
    { intros i Hi. apply Hdistinct. apply elem_of_seqZ in Hi. lia. }
    exists g', h'. split; [done|]. split; [done|]. split; [done|].
    intros i Hi. apply Hlines. apply elem_of_seqZ. lia.
  - assert ((Vector.x d =? 0) = false) as Hx0 by (apply Z.eqb_neq; lia).
    rewrite Hx0 in *. rewrite Hy. simpl.
    destruct (resolve_loop (Vector.x d) Vector.y
                (fun nextGrid y =>
                   match getRowAt y nextGrid with
                   | None => throw TypeError
                   | Some row =>
                       let* nextRow := resolveColumnOrRowInDirection (Vector.x d) row in
                       ret (setRowAt y nextRow nextGrid)
                   end)
                rowCells rowCells_same
                (fun i g h => row_step_resolved (Vector.x d) i g h Hx)
                (seqZ 0 (Grid.size g)) (NoDup_seqZ _ _) g h Hwf (seqZ_range _))
      as (g' & h' & Hfold & Hwf' & Hsize' & _ & Hlines).
    { intros i Hi. apply Hdistinct. apply elem_of_seqZ in Hi. lia. }
    exists g', h'. split; [done|]. split; [done|]. split; [done|].
    intros i Hi. apply Hlines. apply elem_of_seqZ. lia.
Qed.

(** ** What a move keeps on the whole board *)





Lemma sumZ_add {A} (f g : A -> Z) (l : list A) :
  sumZ ((fun a => f a + g a) <$> l) = sumZ (f <$> l) + sumZ (g <$> l).
Proof.
  induction l as [|a l IH]; [done|]. rewrite !fmap_cons, !sumZ_cons, IH. lia.
Qed.

Lemma sumZ_exchange {A B} (F : A -> B -> Z) (la : list A) (lb : list B) :
  sumZ ((fun a => sumZ ((fun b => F a b) <$> lb)) <$> la) =
  sumZ ((fun b => sumZ ((fun a => F a b) <$> la)) <$> lb).
Proof.
  induction la as [|a la IH].
  - simpl. induction lb as [|b lb IHb]; [done|]. rewrite fmap_cons, sumZ_cons, <- IHb. done.
  - rewrite fmap_cons, sumZ_cons, IH.
    rewrite <- sumZ_add. f_equal.
Qed.

Lemma sumZ_flat_map {A B} (f : B -> Z) (g : A -> list B) (l : list A) :
  sumZ (f <$> flat_map g l) = sumZ ((fun a => sumZ (f <$> g a)) <$> l).
Proof.
  induction l as [|a l IH]; [done|].
  cbn [flat_map]. rewrite fmap_app, sumZ_app, IH. done.
Qed.

Lemma sumZ_ext {A} (f g : A -> Z) (l : list A) :
  (forall a, a ∈ l -> f a = g a) -> sumZ (f <$> l) = sumZ (g <$> l).
Proof.
  intros H. f_equal. apply Forall_fmap_ext, Forall_forall. exact H.
Qed.

(** the sum over the board is the sum over the lines, along either axis *)
Lemma boardSum_lines m h g d :
  boardSum m h g =
  sumZ ((fun i => sumZ (m <$> lineCellsAlong h g d i)) <$> seqZ 0 (Grid.size g)).
Proof.
  unfold boardSum, cellPositions, lineCellsAlong. rewrite sumZ_flat_map.
  transitivity
    (sumZ ((fun x => sumZ ((fun y => m (cellAt h g {| Vector.x := x; Vector.y := y |}))
                             <$> seqZ 0 (Grid.size g))) <$> seqZ 0 (Grid.size g))).
  { apply sumZ_ext. intros x _. by rewrite <- list_fmap_compose. }
  destruct (Vector.x d =? 0).
  - apply sumZ_ext. intros x _. unfold columnCells. by rewrite <- list_fmap_compose.
  - rewrite (sumZ_exchange (fun x y => m (cellAt h g {| Vector.x := x; Vector.y := y |}))).
    apply sumZ_ext. intros y _. unfold rowCells. by rewrite <- list_fmap_compose.
Qed.

Lemma sumZ_valueOf (cells : list (option Cell.t)) :
  sumZ (valueOf <$> cells) = sumZ (Block.value <$> blocksOf cells).
Proof.
  unfold blocksOf. induction cells as [|oc cells IH]; [done|].
  rewrite fmap_cons, sumZ_cons, IH. cbn [omap list_omap].
  destruct oc as [c|]; simpl; [|done]. unfold cellValue.
  destruct (Cell.block c); [|done]. by rewrite fmap_cons, sumZ_cons.
Qed.

Lemma sumZ_blocksAt (cells : list (option Cell.t)) :
  sumZ (blocksAt <$> cells) = Z.of_nat (length (blocksOf cells)).
Proof.
  unfold blocksOf. induction cells as [|oc cells IH]; [done|].
  rewrite fmap_cons, sumZ_cons, IH. cbn [omap list_omap]. unfold blocksAt.
  destruct (oc ≫= Cell.block); cbn [length]; lia.
Qed.

Lemma blocksOf_nil (cells : list (option Cell.t)) :
  blocksOf cells = [] -> forall oc, oc ∈ cells -> oc ≫= Cell.block = None.
Proof.
  unfold blocksOf. induction cells as [|oc cells IH]; intros Hnil oc' Hin.
  - by apply elem_of_nil in Hin.
  - cbn [omap list_omap] in Hnil. destruct (oc ≫= Cell.block) eqn:Hoc; [done|].
    apply elem_of_cons in Hin as [->|Hin]; [done|]. by apply IH.
Qed.


Lemma cellOfGroup_boxes g c : cellOfGroup g c -> groupBoxes g = boxesOf c.
Proof.
  destruct g as [[a|a b]|]; simpl.
  - by intros ->.
  - intros (bl & Hb & _ & _ & _ & Hm). unfold boxesOf. by rewrite Hb, Hm.
  - by intros ->.
Qed.

Lemma sumZ_groupBoxes (gs : list Group) :
  sumZ ((fun g => groupBoxes (Some g)) <$> gs) =
  Z.of_nat (length (concat (render (-1) <$> gs))).
Proof.
  induction gs as [|g gs IH]; [done|].
  rewrite !fmap_cons, concat_cons, sumZ_cons, length_app, IH.
  destruct g; simpl; lia.
Qed.

Lemma sumZ_layout direction n gs (f : option Group -> Z) :
  f None = 0 ->
  sumZ (f <$> layout direction n gs) = sumZ ((fun g => f (Some g)) <$> gs).
Proof.
  intros Hf. rewrite layout_fmap, Hf.
  destruct (direction =? 1); rewrite sumZ_app, sumZ_zeros; lia.
Qed.

Lemma lineResolved_value sign old new :
  lineResolved sign old new -> sumZ (valueOf <$> new) = sumZ (valueOf <$> old).
Proof.
  unfold lineResolved. destruct (decide (blocksOf old = [])) as [Hnil|Hne].
  - by intros ->.
  - intros Hnew.
    erewrite <- (Forall2_fmap_eq groupValue valueOf).
    2:{ eapply Forall2_impl; [exact Hnew|]. intros g oc (c & -> & Hc).
        by apply cellOfGroup_value. }
    rewrite sumZ_layout by done. rewrite sumZ_groups, sumZ_valueOf.
    apply sumZ_perm. by rewrite resolvedGroups_perm.
Qed.

Lemma lineResolved_boxes sign old new :
  lineResolved sign old new -> sumZ (boxesAt <$> new) = sumZ (blocksAt <$> old).
Proof.
  unfold lineResolved. destruct (decide (blocksOf old = [])) as [Hnil|Hne].
  - intros ->. apply sumZ_ext. intros oc Hoc.
    pose proof (blocksOf_nil old Hnil oc Hoc) as Hb. unfold blocksAt. rewrite Hb.
    destruct oc as [c|]; [|done]. simpl in *. unfold boxesOf. by rewrite Hb.
  - intros Hnew.
    erewrite <- (Forall2_fmap_eq groupBoxes boxesAt).
    2:{ eapply Forall2_impl; [exact Hnew|]. intros g oc (c & -> & Hc).
        by apply cellOfGroup_boxes. }
    rewrite sumZ_layout by done. rewrite sumZ_groupBoxes, sumZ_blocksAt.
    by rewrite resolvedGroups_perm.
Qed.

Lemma boardSum_by_lines (m n : option Cell.t -> Z) d h g h' g' :
  Grid.size g' = Grid.size g ->
  (forall i, 0 <= i < Grid.size g ->
     sumZ (m <$> lineCellsAlong h' g' d i) = sumZ (n <$> lineCellsAlong h g d i)) ->
  boardSum m h' g' = boardSum n h g.
Proof.
  intros Hsize Hlines. rewrite (boardSum_lines m h' g' d), (boardSum_lines n h g d).
  rewrite Hsize. apply sumZ_ext. intros i Hi. apply Hlines.
  apply elem_of_seqZ in Hi. lia.
Qed.

Lemma foldl_boxes h g (ps : list Vector.t) (r0 : Z) :
  foldl (visitCell (fun c _ r => r + boxesOf c) h g) r0 ps =
  r0 + sumZ ((fun p => boxesAt (cellAt h g p)) <$> ps).
Proof.
  revert r0. induction ps as [|p ps IH]; intros r0.
  - unfold sumZ. simpl. lia.
  - cbn [foldl]. rewrite IH, fmap_cons, sumZ_cons. unfold visitCell, boxesAt.
    destruct (cellAt h g p); lia.
Qed.

Lemma boxCount_boardSum h g :
  wf h g -> boxCount g h = (Ok (boardSum boxesAt h g), h).
Proof.
  intros Hwf. rewrite boxCount_spec by done. rewrite foldl_boxes. done.
Qed.

(** X8 ([resolveCellsInDirection]): for a direction of the key map, on a
    well-formed grid whose lines along the direction hold distinct block
    objects, a move keeps the sum of the block values on the board. *)
Theorem move_keeps_board_total d g h :
  validDirection d ->
  wf h g ->
  (forall i, 0 <= i < Grid.size g ->
             NoDup (Block.ref <$> blocksOf (lineCellsAlong h g d i))) ->
  exists g' h',
    resolveCellsInDirection d g h = (Ok g', h') /\
    boardSum valueOf h' g' = boardSum valueOf h g.
Proof.
  intros Hd Hwf Hdistinct.
  destruct (resolveCellsInDirection_lines d g h Hd Hwf Hdistinct)
    as (g' & h' & Hres & Hwf' & Hsize & Hlines).
  exists g', h'. split; [done|].
  apply (boardSum_by_lines valueOf valueOf d); [done|].
  intros i Hi. eapply lineResolved_value. by apply Hlines.
Qed.

Lemma move_keeps_board_total_witness :
  exists g' h',
    resolveCellsInDirection up grid_2x2 heap_full2 = (Ok g', h') /\
    boardSum valueOf h' g' = boardSum valueOf heap_full2 grid_2x2.
Proof.
  apply (move_keeps_board_total up grid_2x2 heap_full2 up_valid full2_wf
           full2_columns_distinct).
Defined.

(** X9 ([resolveCellsInDirection], [useBoxViewData]): for a direction of the
    key map, on a well-formed grid whose lines along the direction hold
    distinct block objects, the number of box entities after a move, which
    is the number of completion signals that the ACTIVE round waits for, is
    the number of blocks on the board before the move. *)
Theorem move_keeps_every_box d g h :
  validDirection d ->
  wf h g ->
  (forall i, 0 <= i < Grid.size g ->
             NoDup (Block.ref <$> blocksOf (lineCellsAlong h g d i))) ->
  exists g' h',
    resolveCellsInDirection d g h = (Ok g', h') /\
    boxCount g' h' = (Ok (boardSum blocksAt h g), h').
Proof.
  intros Hd Hwf Hdistinct.
  destruct (resolveCellsInDirection_lines d g h Hd Hwf Hdistinct)
    as (g' & h' & Hres & Hwf' & Hsize & Hlines).
  exists g', h'. split; [done|]. rewrite boxCount_boardSum by done.
  do 2 f_equal.
  apply (boardSum_by_lines boxesAt blocksAt d); [done|].
  intros i Hi. eapply lineResolved_boxes. by apply Hlines.
Qed.

Lemma move_keeps_every_box_witness :
  exists g' h',
    resolveCellsInDirection up grid_2x2 heap_full2 = (Ok g', h') /\
    boxCount g' h' = (Ok (boardSum blocksAt heap_full2 grid_2x2), h').
Proof.
  apply (move_keeps_every_box up grid_2x2 heap_full2 up_valid full2_wf
           full2_columns_distinct).
Defined.

(** ** CLEAR_TRANSIENT_STATE *)

Lemma extends_record h h' :
  extends h h' ->
  exists cs, h' = {| Heap.cells := Heap.cells h ++ cs; Heap.nextRef := Heap.nextRef h' |}.
Proof. intros [cs Hcs]. exists cs. destruct h'. simpl in *. by subst. Qed.

Lemma wf_extends h h' g : extends h h' -> wf h g -> wf h' g.
Proof.
  intros Hext Hwf. destruct (extends_record h h' Hext) as [cs ->]. by apply wf_extend.
Qed.

Lemma cellAt_extends h h' g p :
  extends h h' -> wf h g -> inside g p -> cellAt h' g p = cellAt h g p.
Proof.
  intros Hext Hwf Hp. destruct (extends_record h h' Hext) as [cs ->].
  by apply cellAt_extend_eq.
Qed.

Lemma NoDup_flat_map {A B} (f : A -> list B) (l : list A) :
  NoDup l -> (forall a, NoDup (f a)) ->
  (forall a b x, a <> b -> x ∈ f a -> x ∉ f b) ->
  NoDup (flat_map f l).
Proof.
  intros Hl Hf Hdisj. induction Hl as [|a l Ha Hl IH]; [constructor|].
  cbn [flat_map]. apply NoDup_app. split; [apply Hf|]. split; [|done].
  intros x Hx Hin. apply list_elem_of_In, in_flat_map in Hin as (b & Hb & Hxb).
  apply list_elem_of_In in Hb, Hxb.
  apply (Hdisj a b x); [|done|done]. intros ->. done.
Qed.

Lemma NoDup_cellPositions (n : Z) : NoDup (cellPositions n).
Proof.
  unfold cellPositions. apply NoDup_flat_map.
  - apply NoDup_seqZ.
  - intros x.
    assert (Inj eq eq (fun y => {| Vector.x := x; Vector.y := y |})) as Hinj.
    { intros y1 y2 Heq. by injection Heq. }
    apply (NoDup_fmap_2 _). apply NoDup_seqZ.
  - intros a b p Hab Ha Hb.
    apply list_elem_of_fmap in Ha as (y1 & -> & _).
    apply list_elem_of_fmap in Hb as (y2 & Heq & _). by injection Heq.
Qed.

(** the loop of [updateCells] for an updater that returns, for a cell
    object satisfying [P], a cell object related to it by [R], and that
    changes no existing cell object *)
Section UpdateCells.
Variable updateCell : option nat -> Vector.t -> M (option nat).
Variable P : Cell.t -> Prop.
Variable R : Cell.t -> Cell.t -> Prop.

Hypothesis updateCell_ok :
  forall h a c p,
    Heap.cells h !! a = Some c -> P c ->
    exists slot h' c',
      updateCell (Some a) p h = (Ok slot, h') /\ extends h h' /\
      slot_ok h' slot /\ cellOfSlot h' slot = Some c' /\ R c c'.

Lemma updateCells_over ps :
  NoDup ps ->
  forall g h,
    wf h g ->
    (forall p, p ∈ ps -> inside g p) ->
    (forall p c, p ∈ ps -> cellAt h g p = Some c -> P c) ->
    exists g' h',
      iterateCells_over ps
        (fun cell position grid (_ : unit) =>
           let* cell' := updateCell cell position in
           let* grid' := liftR (setCellAt position cell' grid) in
           ret (tt, grid', true)) g tt h = (Ok (tt, g'), h') /\
      wf h' g' /\ Grid.size g' = Grid.size g /\ extends h h' /\
      (forall p, p ∉ ps -> getCellAt p g' = getCellAt p g) /\
      (forall p, p ∈ ps ->
         exists c c', cellAt h g p = Some c /\ cellAt h' g' p = Some c' /\ R c c').
Proof.
  induction 1 as [|p ps Hp Hnd IH]; intros g h Hwf Hin HP.
  - exists g, h. split; [done|]. split; [done|]. split; [done|].
    split; [apply extends_refl|]. split; [done|].
    intros p Hp. by apply elem_of_nil in Hp.
  - assert (inside g p) as Hpin by (apply Hin; left).
    destruct (wf_getCellAt h g p Hwf Hpin) as (a & c & Ha & Hc).
    assert (cellAt h g p = Some c) as Hcell by (unfold cellAt; by rewrite Ha).
    destruct (updateCell_ok h a c p Hc) as (slot & h1 & c1 & Hupd & Hext & Hslot & Hc1 & HR).
    { apply (HP p c); [left|done]. }
    pose proof (wf_extends h h1 g Hext Hwf) as Hwf1.
    destruct (setCellAt_spec h1 g p slot Hwf1 Hpin Hslot)
      as (g1 & Hset & Hwfg1 & Hsize1 & Hget1 & Hother1).
    assert (forall q, inside g q -> q <> p -> cellAt h1 g1 q = cellAt h g q) as Hsame.
    { intros q Hq Hqp. unfold cellAt at 1. rewrite Hother1 by done.
      fold (cellAt h1 g q). by apply cellAt_extends. }
    destruct (IH g1 h1 Hwfg1) as (g' & h' & Hloop & Hwf' & Hsize' & Hext' & Hother' & Hnew').
    { intros q Hq. unfold inside. rewrite Hsize1. apply Hin. by right. }
    { intros q cq Hq Hcq. apply (HP q cq); [by right|].
      rewrite <- Hsame; [done|apply Hin; by right|]. intros ->. done. }
    exists g', h'. split.
    { cbn [iterateCells_over]. unfold liftR at 1.
      rewrite (bind_ok _ _ h (Some a) h) by (by rewrite Ha).
      rewrite (bind_ok _ _ h (tt, g1, true) h1); [done|].
      rewrite (bind_ok _ _ _ _ _ Hupd). unfold liftR.
      by rewrite (bind_ok _ _ h1 g1 h1) by (by rewrite Hset). }
    split; [done|]. split; [lia|]. split; [by eapply extends_trans|]. split.
    + intros q Hq. apply not_elem_of_cons in Hq as [Hqp Hq].
      rewrite Hother' by done. by apply Hother1.
    + intros q Hq. apply elem_of_cons in Hq as [->|Hq].
      * exists c, c1. split; [done|]. split; [|done].
        unfold cellAt. rewrite Hother' by done. rewrite Hget1.
        destruct Hslot as (a1 & c1' & -> & Hc1'). simpl in Hc1 |- *.
        eapply extends_lookup; [exact Hext'|]. done.
      * destruct (Hnew' q Hq) as (cq & cq' & Hcq & Hcq' & HRq).
        exists cq, cq'. split; [|done].
        rewrite <- Hsame; [done|apply Hin; by right|]. intros ->. done.
Qed.

Lemma updateCells_spec g h :
  wf h g ->
  (forall p c, inside g p -> cellAt h g p = Some c -> P c) ->
  exists g' h',
    updateCells g updateCell h = (Ok g', h') /\
    wf h' g' /\ Grid.size g' = Grid.size g /\ extends h h' /\
    (forall p, inside g p ->
       exists c c', cellAt h g p = Some c /\ cellAt h' g' p = Some c' /\ R c c').
Proof.
  intros Hwf HP.
  destruct (updateCells_over (cellPositions (Grid.size g)) (NoDup_cellPositions _) g h Hwf)
    as (g' & h' & Hloop & Hwf' & Hsize' & Hext & _ & Hnew).
  { intros p Hp. by apply elem_of_cellPositions. }
  { intros p c Hp. apply HP. by apply elem_of_cellPositions. }
  exists g', h'. split.
  { unfold updateCells, iterateCells. by rewrite (bind_ok _ _ _ _ _ Hloop). }
  split; [done|]. split; [done|]. split; [done|].
  intros p Hp. apply Hnew. by apply elem_of_cellPositions.
Qed.
End UpdateCells.



Lemma clearTransient_ok h a c p :
  Heap.cells h !! a = Some c -> mergedHasBlock c ->
  exists slot h' c',
    clearTransient (Some a) p h = (Ok slot, h') /\ extends h h' /\
    slot_ok h' slot /\ cellOfSlot h' slot = Some c' /\ cleared c c'.
Proof.
  intros Hc Hm. unfold clearTransient.
  rewrite (bind_ok _ _ _ _ _ (readCell_ok h a c Hc)).
  unfold mergedHasBlock in Hm. unfold cleared.
  assert (forall b,
    exists slot h' c',
      (let* r := freshRef in
       let* a0 := allocCell
         {| Cell.block := Some {| Block.ref := r; Block.id := Block.id b;
                                  Block.value := Block.value b; Block.isNew := false |};
            Cell.mergedBlock := None |} in
       ret (Some a0)) h = (Ok slot, h') /\ extends h h' /\
      slot_ok h' slot /\ cellOfSlot h' slot = Some c' /\
      Cell.mergedBlock c' = None /\
      exists b', Cell.block c' = Some b' /\ Block.id b' = Block.id b /\
                 Block.value b' = Block.value b /\ Block.isNew b' = false) as Hnew.
  { intros b. eexists _, _, _. split; [reflexivity|]. cbn [Heap.cells Heap.nextRef].
    split; [by eexists [_]|].
    assert (forall x : Cell.t, (Heap.cells h ++ [x]) !! length (Heap.cells h) = Some x) as Hlast.
    { intros x. rewrite lookup_app_r by lia. by rewrite Nat.sub_diag. }
    split; [eexists _, _; split; [done|]; cbn [Heap.cells]; apply Hlast|].
    split; [cbn [cellOfSlot Heap.cells]; apply Hlast|].
    split; [done|]. eexists. done. }
  destruct (Cell.mergedBlock c) as [m|] eqn:Hmerged, (Cell.block c) as [b|] eqn:Hblock.
  - apply Hnew.
  - exfalso. by apply Hm.
  - destruct (Block.isNew b) eqn:Hisnew; [apply Hnew|].
    exists (Some a), h, c. split; [done|]. split; [apply extends_refl|].
    split; [by exists a, c|]. split; [done|]. split; [done|].
    rewrite Hblock. by exists b.
  - exists (Some a), h, c. split; [done|]. split; [apply extends_refl|].
    split; [by exists a, c|]. split; [done|]. split; [done|]. by rewrite Hblock.
Qed.

(** ** Scans of the board *)


Lemma foldl_hasNew_exists h g (ps : list Vector.t) (r0 : bool) :
  foldl (visitCell (fun c _ (r : bool) => if hasNew c then true else r) h g) r0 ps =
  r0 || existsb (newAt h g) ps.
Proof.
  revert r0. induction ps as [|p ps IH]; intros r0; [by rewrite orb_false_r|].
  cbn [foldl existsb]. rewrite IH. unfold visitCell, newAt.
  destruct (cellAt h g p) as [c|]; [|done].
  destruct (hasNew c); [|done]. simpl. by rewrite orb_true_r.
Qed.

Lemma hasNewCell_exists h g :
  wf h g ->
  hasNewCell g h = (Ok (existsb (newAt h g) (cellPositions (Grid.size g))), h).
Proof. intros Hwf. rewrite hasNewCell_spec by done. by rewrite foldl_hasNew_exists. Qed.

(** X10 ([hasNewCell]): on a well-formed grid it returns, without changing
    the heap, true exactly when some cell of the grid holds a block marked
    new. *)
Theorem hasNewCell_iff_some_block_is_new h g :
  wf h g ->
  exists b,
    hasNewCell g h = (Ok b, h) /\
    (b = true <->
     exists p c bl, inside g p /\ cellAt h g p = Some c /\
                    Cell.block c = Some bl /\ Block.isNew bl = true).
Proof.
  intros Hwf. eexists. split; [by apply hasNewCell_exists|].
  rewrite existsb_exists. split.
  - intros (p & Hp & Hnew). apply list_elem_of_In, elem_of_cellPositions in Hp.
    unfold newAt in Hnew. destruct (cellAt h g p) as [c|] eqn:Hc; [|done].
    unfold hasNew in Hnew. destruct (Cell.block c) as [bl|] eqn:Hb; [|done].
    by exists p, c, bl.
  - intros (p & c & bl & Hp & Hc & Hb & Hnew). exists p. split.
    + by apply list_elem_of_In, elem_of_cellPositions.
    + unfold newAt, hasNew. by rewrite Hc, Hb.
Qed.

Lemma hasNewCell_iff_some_block_is_new_witness :
  exists b,
    hasNewCell grid_2x2 heap_full2 = (Ok b, heap_full2) /\
    (b = true <->
     exists p c bl, inside grid_2x2 p /\ cellAt heap_full2 grid_2x2 p = Some c /\
                    Cell.block c = Some bl /\ Block.isNew bl = true).
Proof. apply (hasNewCell_iff_some_block_is_new heap_full2 grid_2x2). wf_closed. Defined.

Lemma filter_sublist {A} (P : A -> bool) (l : list A) : sublist (List.filter P l) l.
Proof.
  induction l as [|a l IH]; [done|]. simpl.
  destruct (P a); [by apply sublist_skip|by apply sublist_cons].
Qed.

(** X11 ([findEmptyCellPositions]): on a well-formed grid it returns, without
    changing the heap, the positions of the grid whose cell holds no block:
    exactly those, each once, in the order in which [iterateCells] visits
    the grid. *)
Theorem findEmptyCellPositions_lists_the_empty_cells h g :
  wf h g ->
  exists ps,
    findEmptyCellPositions g h = (Ok ps, h) /\
    NoDup ps /\
    sublist ps (cellPositions (Grid.size g)) /\
    (forall p, p ∈ ps <->
               inside g p /\ exists c, cellAt h g p = Some c /\ Cell.block c = None).
Proof.
  intros Hwf. eexists. split; [by apply findEmptyCellPositions_spec|].
  split; [|split].
  - apply NoDup_ListNoDup, List.NoDup_filter, NoDup_ListNoDup, NoDup_cellPositions.
  - apply filter_sublist.
  - intros p. rewrite list_elem_of_In, filter_In, <- list_elem_of_In, elem_of_cellPositions.
    unfold inside, emptyAt, isEmpty. split.
    + intros [Hp He]. split; [done|]. destruct (cellAt h g p) as [c|]; [|done].
      exists c. split; [done|]. by destruct (Cell.block c).
    + intros [Hp (c & -> & ->)]. done.
Qed.

Lemma findEmptyCellPositions_lists_the_empty_cells_witness :
  exists ps,
    findEmptyCellPositions grid_2x2 heap_empty2 = (Ok ps, heap_empty2) /\
    NoDup ps /\
    sublist ps (cellPositions (Grid.size grid_2x2)) /\
    (forall p, p ∈ ps <->
               inside grid_2x2 p /\
               exists c, cellAt heap_empty2 grid_2x2 p = Some c /\ Cell.block c = None).
Proof.
  apply (findEmptyCellPositions_lists_the_empty_cells heap_empty2 grid_2x2). wf_closed.
Defined.

(** ** Spawning a block *)


Lemma concat_lookup_uniform {A} (m : nat) (rows : list (list A)) :
  Forall (fun row => length row = m) rows ->
  forall i j row, rows !! i = Some row -> (j < m)%nat ->
                  concat rows !! (i * m + j)%nat = row !! j.
Proof.
  induction 1 as [|r rows Hr _ IH]; intros i j row Hi Hj; [done|].
  destruct i as [|i]; simpl in *.
  - injection Hi as ->. by rewrite lookup_app_l by lia.
  - rewrite lookup_app_r by lia. rewrite <- (IH i j row Hi Hj). f_equal. lia.
Qed.

Lemma wf_rows_uniform h g :
  wf h g -> Forall (fun row : list (option nat) => length row = length (Grid.rows g))
                   (Grid.rows g).
Proof.
  intros [_ Hrows]. eapply Forall_impl; [exact Hrows|]. by intros row [Hlen _].
Qed.

Lemma getCellAt_concat h g p slot :
  wf h g -> inside g p -> getCellAt p g = Ok slot ->
  concat (Grid.rows g)
    !! (Z.to_nat (Vector.y p) * length (Grid.rows g) + Z.to_nat (Vector.x p))%nat =
  Some slot.
Proof.
  intros Hwf [Hx Hy] Hget.
  destruct (wf_row h g (Vector.y p) Hwf Hy) as (row & Hrow & Hlen & _).
  unfold getCellAt in Hget. rewrite Hrow in Hget. injection Hget as <-.
  apply js_get_Some in Hrow as [_ Hrow].
  assert (Grid.size g = Z.of_nat (length (Grid.rows g))) as Hsize by (by destruct Hwf).
  rewrite (concat_lookup_uniform _ _ (wf_rows_uniform h g Hwf) _ _ row Hrow) by lia.
  unfold js_get. destruct (Z.ltb_spec (Vector.x p) 0); [lia|].
  destruct (lookup_lt_is_Some_2 row (Z.to_nat (Vector.x p))) as [s Hs]; [lia|].
  by rewrite Hs.
Qed.

Lemma distinct_positions h g p q slot :
  wf h g -> distinctCells g -> inside g p -> inside g q ->
  getCellAt p g = Ok slot -> getCellAt q g = Ok slot -> p = q.
Proof.
  intros Hwf Hnd Hp Hq Hgp Hgq.
  pose proof (getCellAt_concat h g p slot Hwf Hp Hgp) as H1.
  pose proof (getCellAt_concat h g q slot Hwf Hq Hgq) as H2.
  pose proof (NoDup_lookup _ _ _ _ Hnd H1 H2) as Heq.
  assert (Grid.size g = Z.of_nat (length (Grid.rows g))) as Hsize by (by destruct Hwf).
  destruct Hp as [Hpx Hpy], Hq as [Hqx Hqy].
  assert (Z.to_nat (Vector.x p) < length (Grid.rows g))%nat by lia.
  assert (Z.to_nat (Vector.x q) < length (Grid.rows g))%nat by lia.
  assert (Z.to_nat (Vector.y p) = Z.to_nat (Vector.y q)) as Hy by nia.
  assert (Z.to_nat (Vector.x p) = Z.to_nat (Vector.x q)) as Hx by nia.
  destruct p, q. simpl in *. f_equal; lia.
Qed.

Lemma wf_heap_insert h g a c :
  wf h g ->
  wf {| Heap.cells := <[a := c]> (Heap.cells h); Heap.nextRef := Heap.nextRef h |} g.
Proof.
  intros [Hsize Hrows]. split; [done|].
  eapply Forall_impl; [exact Hrows|]. intros row [Hlen Hslots]. split; [done|].
  eapply Forall_impl; [exact Hslots|]. intros slot (a' & c' & -> & Hc').
  cbn [Heap.cells]. destruct (decide (a = a')) as [->|Hne].
  - exists a', c. split; [done|]. cbn [Heap.cells]. apply list_lookup_insert_eq.
    by eapply lookup_lt_Some.
  - exists a', c'. split; [done|]. cbn [Heap.cells]. by rewrite list_lookup_insert_ne.
Qed.

(** [setBlockAt] on a grid whose cell objects are distinct: the cell at the
    position holds the block, every other cell is as before *)
Lemma setBlockAt_spec h g p block c :
  wf h g -> inside g p -> cellAt h g p = Some c ->
  exists h',
    setBlockAt (Some p) block g h = (Ok g, h') /\
    wf h' g /\ Heap.nextRef h' = Heap.nextRef h /\
    cellAt h' g p = Some {| Cell.block := block; Cell.mergedBlock := Cell.mergedBlock c |} /\
    (distinctCells g ->
     forall q, inside g q -> q <> p -> cellAt h' g q = cellAt h g q).
Proof.
  intros Hwf Hp Hc. apply cellAt_Some in Hc as (a & Hget & Ha).
  unfold setBlockAt. rewrite Hget, Ha. eexists. split; [done|].
  split; [by apply wf_heap_insert|]. split; [done|].
  pose proof (lookup_lt_Some _ _ _ Ha) as Hlt. split.
  - unfold cellAt. rewrite Hget. cbv beta iota. cbn [Heap.cells].
    by apply list_lookup_insert_eq.
  - intros Hnd q Hq Hqp. unfold cellAt.
    destruct (wf_getCellAt h g q Hwf Hq) as (a' & c' & Hget' & Ha').
    rewrite Hget'. cbv beta iota. cbn [Heap.cells]. rewrite list_lookup_insert_ne; [done|].
    intros ->. apply Hqp. by apply (distinct_positions h g q p (Some a')).
Qed.

Lemma wf_cells h h' g : Heap.cells h' = Heap.cells h -> wf h g -> wf h' g.
Proof. intros Heq. unfold wf, slot_ok. by rewrite Heq. Qed.

Lemma cellAt_cells h h' g p : Heap.cells h' = Heap.cells h -> cellAt h' g p = cellAt h g p.
Proof. intros Heq. unfold cellAt. by rewrite Heq. Qed.

(** the SPAWN handler followed by the reducer: the block made, the cell it
    is put in, and the cells left as they were *)
Lemma spawn_spec rnd h g :
  wf h g -> distinctCells g ->
  (forall p c bl, inside g p -> cellAt h g p = Some c ->
                  Cell.block c = Some bl -> Block.isNew bl = false) ->
  (exists p c, inside g p /\ cellAt h g p = Some c /\ Cell.block c = None) ->
  (0 <= Random.r1 rnd)%Q -> (Random.r1 rnd < 1)%Q ->
  exists p c block h1 h2,
    phaseHandler rnd SPAWN g h = (Ok (Some (ADD_NEW_BLOCK (Some p) block)), h1) /\
    inside g p /\ cellAt h g p = Some c /\ Cell.block c = None /\
    block = {| Block.ref := Heap.nextRef h; Block.id := Random.uuid rnd;
               Block.value := 2; Block.isNew := true |} /\
    reducer rnd {| State.phase := SPAWN; State.grid := g |}
            (ADD_NEW_BLOCK (Some p) block) h1 =
      (Ok {| State.phase := SPAWN; State.grid := g |}, h2) /\
    wf h2 g /\
    cellAt h2 g p = Some {| Cell.block := Some block; Cell.mergedBlock := Cell.mergedBlock c |} /\
    (forall q, inside g q -> q <> p -> cellAt h2 g q = cellAt h g q).
Proof.
  intros Hwf Hnd Hold (p0 & c0 & Hp0 & Hc0 & Hb0) Hr0 Hr1.
  set (L := List.filter (emptyAt h g) (cellPositions (Grid.size g))).
  assert (L <> []) as HL.
  { intros Hnil. assert (p0 ∈ L) as Hin; [|rewrite Hnil in Hin; by apply elem_of_nil in Hin].
    apply list_elem_of_In, filter_In. split.
    - by apply list_elem_of_In, elem_of_cellPositions.
    - unfold emptyAt, isEmpty. by rewrite Hc0, Hb0. }
  destruct (arrayRandomItem_member (Random.r1 rnd) L Hr0 Hr1 HL) as (i & p & _ & Hi & Hitem).
  assert (inside g p /\ emptyAt h g p = true) as [Hp He].
  { apply list_elem_of_lookup_2 in Hi. apply list_elem_of_In, filter_In in Hi as [Hin He].
    split; [|done]. by apply elem_of_cellPositions, list_elem_of_In. }
  assert (exists c, cellAt h g p = Some c /\ Cell.block c = None) as (c & Hc & Hb).
  { unfold emptyAt, isEmpty in He. destruct (cellAt h g p) as [c|]; [|done].
    exists c. split; [done|]. by destruct (Cell.block c). }
  set (block := {| Block.ref := Heap.nextRef h; Block.id := Random.uuid rnd;
                   Block.value := 2; Block.isNew := true |}).
  set (h1 := {| Heap.cells := Heap.cells h; Heap.nextRef := S (Heap.nextRef h) |}).
  assert (wf h1 g) as Hwf1 by (by apply (wf_cells h)).
  destruct (setBlockAt_spec h1 g p (Some block) c Hwf1 Hp) as (h2 & Hset & Hwf2 & _ & Hnew & Hother).
  { by rewrite (cellAt_cells h h1). }
  exists p, c, block, h1, h2.
  split.
  { cbn [phaseHandler]. erewrite bind_ok; [|by apply hasNewCell_exists].
    assert (existsb (newAt h g) (cellPositions (Grid.size g)) = false) as ->.
    { apply existsb_false. intros q Hq. apply elem_of_cellPositions in Hq.
      unfold newAt, hasNew. destruct (cellAt h g q) as [cq|] eqn:Hcq; [|done].
      destruct (Cell.block cq) as [bq|] eqn:Hbq; [|done]. by apply (Hold q cq bq). }
    erewrite bind_ok; [|by apply findEmptyCellPositions_spec].
    fold L. rewrite Hitem. done. }
  split; [done|]. split; [done|]. split; [done|]. split; [done|].
  split.
  { cbn [reducer State.grid State.phase]. rewrite cloneGrid_same.
    by rewrite (bind_ok _ _ _ _ _ Hset). }
  split; [done|]. split; [done|].
  intros q Hq Hqp. rewrite Hother by done. by apply cellAt_cells.
Qed.

(** X12 (the SPAWN handler and ADD_NEW_BLOCK): on a well-formed grid of
    distinct cell objects with no new block and at least one empty cell, for
    a draw in [0, 1), the handler dispatches ADD_NEW_BLOCK with a position
    of the grid whose cell is empty and a new block of value 2; the reducer
    then puts that block at that position and changes no other cell; and
    the handler run again on the new state dispatches nothing. *)
Theorem SPAWN_adds_one_new_block rnd h g :
  wf h g -> distinctCells g ->
  (forall p c bl, inside g p -> cellAt h g p = Some c ->
                  Cell.block c = Some bl -> Block.isNew bl = false) ->
  (exists p c, inside g p /\ cellAt h g p = Some c /\ Cell.block c = None) ->
  (0 <= Random.r1 rnd)%Q -> (Random.r1 rnd < 1)%Q ->
  exists p block h1 st' h2,
    phaseHandler rnd SPAWN g h = (Ok (Some (ADD_NEW_BLOCK (Some p) block)), h1) /\
    inside g p /\
    (exists c, cellAt h g p = Some c /\ Cell.block c = None) /\
    Block.id block = Random.uuid rnd /\ Block.value block = 2 /\
    Block.isNew block = true /\
    reducer rnd {| State.phase := SPAWN; State.grid := g |}
            (ADD_NEW_BLOCK (Some p) block) h1 = (Ok st', h2) /\
    State.phase st' = SPAWN /\
    Grid.size (State.grid st') = Grid.size g /\
    wf h2 (State.grid st') /\
    blockAt h2 (State.grid st') p = Some block /\
    (forall q, inside g q -> q <> p -> cellAt h2 (State.grid st') q = cellAt h g q) /\
    (forall rnd', phaseHandler rnd' SPAWN (State.grid st') h2 = (Ok None, h2)).
Proof.
  intros Hwf Hnd Hold Hempty Hr0 Hr1.
  destruct (spawn_spec rnd h g Hwf Hnd Hold Hempty Hr0 Hr1)
    as (p & c & block & h1 & h2 & Hph & Hp & Hc & Hb & -> & Hred & Hwf2 & Hnew & Hother).
  eexists p, _, h1, _, h2. split; [exact Hph|].
  split; [done|]. split; [by exists c|]. split; [done|]. split; [done|]. split; [done|].
  split; [exact Hred|]. cbn [State.phase State.grid].
  split; [done|]. split; [done|]. split; [done|]. split.
  { unfold blockAt. by rewrite Hnew. }
  split; [done|].
  intros rnd'. cbn [phaseHandler]. erewrite bind_ok; [|by apply hasNewCell_exists].
  assert (existsb (newAt h2 g) (cellPositions (Grid.size g)) = true) as ->; [|done].
  apply existsb_exists. exists p. split.
  - by apply list_elem_of_In, elem_of_cellPositions.
  - unfold newAt. by rewrite Hnew.
Qed.

Lemma SPAWN_adds_one_new_block_witness :
  exists p block h1 st' h2,
    phaseHandler random0 SPAWN grid_2x2 heap_empty2 =
      (Ok (Some (ADD_NEW_BLOCK (Some p) block)), h1) /\
    inside grid_2x2 p /\
    (exists c, cellAt heap_empty2 grid_2x2 p = Some c /\ Cell.block c = None) /\
    Block.id block = Random.uuid random0 /\ Block.value block = 2 /\
    Block.isNew block = true /\
    reducer random0 {| State.phase := SPAWN; State.grid := grid_2x2 |}
            (ADD_NEW_BLOCK (Some p) block) h1 = (Ok st', h2) /\
    State.phase st' = SPAWN /\
    Grid.size (State.grid st') = Grid.size grid_2x2 /\
    wf h2 (State.grid st') /\
    blockAt h2 (State.grid st') p = Some block /\
    (forall q, inside grid_2x2 q -> q <> p ->
               cellAt h2 (State.grid st') q = cellAt heap_empty2 grid_2x2 q) /\
    (forall rnd', phaseHandler rnd' SPAWN (State.grid st') h2 = (Ok None, h2)).
Proof.
  apply (SPAWN_adds_one_new_block random0 heap_empty2 grid_2x2 empty2_wf grid_2x2_distinct
           empty2_no_new).
  - exists origin, makeEmptyCell. split; [unfold inside; simpl; lia|]. split; reflexivity.
  - unfold Qle. simpl. lia.
  - unfold Qlt. simpl. lia.
Defined.

(** ** The empty grid and the first state *)

Lemma freshRows_length base n : length (freshRows base n) = n.
Proof. unfold freshRows. by rewrite length_fmap, length_seq. Qed.

Lemma freshRows_lookup base n i :
  (i < n)%nat -> freshRows base n !! i = Some (Some <$> seq (base + i * n) n).
Proof.
  intros Hi. unfold freshRows. rewrite list_lookup_fmap, lookup_seq_lt by done. done.
Qed.

Lemma concat_rows_seq base n (m : nat) :
  forall k,
    concat ((fun i => Some <$> seq (base + i * n) n) <$> seq k m) =
    Some <$> seq (base + k * n) (m * n).
Proof.
  induction m as [|m IH]; intros k; [done|].
  cbn [seq]. rewrite fmap_cons, concat_cons, IH.
  change (S m * n)%nat with (n + m * n)%nat.
  rewrite seq_app, fmap_app. do 3 f_equal. simpl. lia.
Qed.

Lemma freshRows_distinct base n :
  distinctCells {| Grid.size := Z.of_nat n; Grid.rows := freshRows base n |}.
Proof.
  unfold distinctCells, freshRows. cbn [Grid.rows]. rewrite concat_rows_seq.
  apply (NoDup_fmap_2 _). apply NoDup_seq.
Qed.

Lemma freshRows_wf h n c :
  wf (heapWith h (replicate (n * n) c))
     {| Grid.size := Z.of_nat n; Grid.rows := freshRows (length (Heap.cells h)) n |}.
Proof.
  split; cbn [Grid.size Grid.rows]; [by rewrite freshRows_length|].
  rewrite freshRows_length. apply Forall_forall. intros row Hrow.
  apply list_elem_of_lookup in Hrow as [i Hi].
  pose proof (lookup_lt_Some _ _ _ Hi) as Hlt. rewrite freshRows_length in Hlt.
  rewrite freshRows_lookup in Hi by done. injection Hi as <-.
  split; [by rewrite length_fmap, length_seq|].
  apply Forall_fmap, Forall_forall. intros a Ha. apply elem_of_seq in Ha.
  exists a, c. split; [done|]. unfold heapWith. cbn [Heap.cells].
  rewrite lookup_app_r by lia. apply lookup_replicate_2. nia.
Qed.

Lemma freshRows_getCellAt base n p :
  0 <= Vector.x p < Z.of_nat n -> 0 <= Vector.y p < Z.of_nat n ->
  getCellAt p {| Grid.size := Z.of_nat n; Grid.rows := freshRows base n |} =
    Ok (Some (base + Z.to_nat (Vector.y p) * n + Z.to_nat (Vector.x p))%nat).
Proof.
  intros Hx Hy. unfold getCellAt. cbn [Grid.rows].
  replace (Vector.y p) with (Z.of_nat (Z.to_nat (Vector.y p))) at 1 by lia.
  rewrite js_get_lookup, freshRows_lookup by lia.
  replace (Vector.x p) with (Z.of_nat (Z.to_nat (Vector.x p))) at 1 by lia.
  rewrite js_get_lookup, list_lookup_fmap, lookup_seq_lt by lia. done.
Qed.

Lemma freshRows_cellAt h n c p :
  0 <= Vector.x p < Z.of_nat n -> 0 <= Vector.y p < Z.of_nat n ->
  cellAt (heapWith h (replicate (n * n) c))
         {| Grid.size := Z.of_nat n; Grid.rows := freshRows (length (Heap.cells h)) n |} p =
    Some c.
Proof.
  intros Hx Hy. unfold cellAt. rewrite freshRows_getCellAt by done.
  unfold heapWith. cbn [Heap.cells]. rewrite lookup_app_r by lia.
  apply lookup_replicate_2. nia.
Qed.

Lemma freshRows_unused h n p :
  cellAt h {| Grid.size := Z.of_nat n; Grid.rows := freshRows (length (Heap.cells h)) n |} p =
    None.
Proof.
  unfold cellAt, getCellAt. cbn [Grid.rows].
  destruct (js_get (freshRows _ n) (Vector.y p)) as [row|] eqn:Hrow; [|done].
  apply js_get_Some in Hrow as [Hy Hrow].
  pose proof (lookup_lt_Some _ _ _ Hrow) as Hlt. rewrite freshRows_length in Hlt.
  rewrite freshRows_lookup in Hrow by done. injection Hrow as <-.
  rewrite js_get_fmap. destruct (js_get (seq _ n) (Vector.x p)) as [a|] eqn:Ha; [|done].
  simpl. apply js_get_Some in Ha as [_ Ha]. apply list_elem_of_lookup_2, elem_of_seq in Ha.
  apply lookup_ge_None_2. lia.
Qed.

(** X13 ([makeEmptyGrid]): for a size from 0 to 2^32 - 1 it returns a
    well-formed grid of that size whose cells are all empty, are cell
    objects made by this call (none of them was on the heap before), and are
    pairwise distinct objects; the cell objects that existed are left as
    they are. *)
Theorem makeEmptyGrid_builds_fresh_empty_cells (size : Z) h :
  0 <= size <= 4294967295 ->
  exists g h',
    makeEmptyGrid size h = (Ok g, h') /\
    Grid.size g = size /\
    wf h' g /\
    distinctCells g /\
    (forall p, inside g p -> cellAt h' g p = Some makeEmptyCell) /\
    (forall p, cellAt h g p = None) /\
    (forall a c, Heap.cells h !! a = Some c -> Heap.cells h' !! a = Some c).
Proof.
  intros Hsize. eexists _, _. split; [by apply makeEmptyGrid_eq|].
  split; [done|].
  assert (exists n, size = Z.of_nat n) as [n ->] by (exists (Z.to_nat size); lia).
  rewrite Nat2Z.id.
  split; [apply freshRows_wf|]. split; [apply freshRows_distinct|]. split.
  - intros p [Hx Hy]. cbn [Grid.size] in *. by apply freshRows_cellAt.
  - split; [intros p; apply freshRows_unused|].
    intros a c Ha. unfold heapWith. cbn [Heap.cells]. by apply lookup_app_l_Some.
Qed.

Lemma makeEmptyGrid_builds_fresh_empty_cells_witness :
  exists g h',
    makeEmptyGrid 2 heap_none = (Ok g, h') /\
    Grid.size g = 2 /\
    wf h' g /\
    distinctCells g /\
    (forall p, inside g p -> cellAt h' g p = Some makeEmptyCell) /\
    (forall p, cellAt heap_none g p = None) /\
    (forall a c, Heap.cells heap_none !! a = Some c -> Heap.cells h' !! a = Some c).
Proof. apply (makeEmptyGrid_builds_fresh_empty_cells 2 heap_none). lia. Defined.


Lemma makeEmptyGrid_bad_size (size : Z) h :
  size < 0 \/ 4294967295 < size -> makeEmptyGrid size h = (Throw RangeError, h).
Proof.
  intros Hsize. unfold makeEmptyGrid, buildArray.
  replace ((size <? 0) || (4294967295 <? size)) with true; [done|].
  symmetry. apply orb_true_iff. destruct Hsize; [left|right]; apply Z.ltb_lt; lia.
Qed.



Lemma initReducer_eq rnd (n : nat) h :
  Z.of_nat n <= 4294967295 ->
  initReducer rnd (Z.of_nat n) h =
    let g := {| Grid.size := Z.of_nat n; Grid.rows := freshRows (length (Heap.cells h)) n |} in
    let h2 := {| Heap.cells := Heap.cells h ++ replicate (n * n) makeEmptyCell;
                 Heap.nextRef := S (Heap.nextRef h) |} in
    match setBlockAt (Some (firstPosition rnd (Z.of_nat n)))
                     (Some (newBlock h (Random.uuid rnd) 2)) g h2 with
    | (Ok g', h') => (Ok {| State.phase := INIT; State.grid := g' |}, h')
    | (Throw f, h') => (Throw f, h')
    end.
Proof.
  intros Hn. unfold initReducer.
  rewrite (bind_ok _ _ _ _ _ (makeEmptyGrid_eq (Z.of_nat n) h ltac:(lia))).
  rewrite Nat2Z.id. unfold makeNewBlock.
  unfold bind at 1. unfold bind at 1. unfold freshRef at 1. unfold ret at 1.
  unfold heapWith. cbn [Heap.cells Heap.nextRef]. unfold bind.
  fold (firstPosition rnd (Z.of_nat n)). fold (newBlock h (Random.uuid rnd) 2).
  by destruct (setBlockAt _ _ _ _) as [[g'|f] h'].
Qed.



(** X15 ([initReducer]): a negative size, or one above 2^32 - 1, makes it
    throw a RangeError before anything is allocated; size 0 makes it throw a
    TypeError, the empty grid having no row to place the first block in. *)
Theorem initReducer_rejects_sizes_without_cells rnd h :
  (forall size, size < 0 \/ 4294967295 < size ->
                initReducer rnd size h = (Throw RangeError, h)) /\
  initReducer rnd 0 h =
    (Throw TypeError,
     {| Heap.cells := Heap.cells h ++ []; Heap.nextRef := S (Heap.nextRef h) |}).
Proof.
  split.
  - intros size Hsize. unfold initReducer.
    by rewrite (bind_throw _ _ _ _ _ (makeEmptyGrid_bad_size size h Hsize)).
  - change (initReducer rnd 0 h) with (initReducer rnd (Z.of_nat 0) h).
    rewrite initReducer_eq by (simpl; lia). cbv zeta.
    unfold setBlockAt, getCellAt, freshRows, js_get. cbn [seq fmap list_fmap Grid.rows].
    by destruct (_ <? 0).
Qed.

Lemma initReducer_rejects_sizes_without_cells_witness :
  initReducer random0 (-1) heap_none = (Throw RangeError, heap_none) /\
  initReducer random0 0 heap_none =
    (Throw TypeError,
     {| Heap.cells := Heap.cells heap_none ++ [];
        Heap.nextRef := S (Heap.nextRef heap_none) |}).
Proof.
  destruct (initReducer_rejects_sizes_without_cells random0 heap_none) as [Hrange Hzero].
  split; [apply Hrange; lia|exact Hzero].
Defined.





(** ** The reducer and the handlers *)

(** X17 ([reducer], CLEAR_TRANSIENT_STATE): on a well-formed grid in which
    every cell with a merged block holds a block, the reducer returns the
    state with the phase asked for and a well-formed grid of the same size
    in which every cell holds the block it held (same id and value), not
    marked new, and no merged block; [hasNewCell] is false on it. *)
Theorem CLEAR_TRANSIENT_STATE_clears_every_cell rnd st nextPhase h :
  wf h (State.grid st) ->
  (forall p c, inside (State.grid st) p -> cellAt h (State.grid st) p = Some c ->
               mergedHasBlock c) ->
  exists st' h',
    reducer rnd st (CLEAR_TRANSIENT_STATE nextPhase) h = (Ok st', h') /\
    State.phase st' = nextPhase /\
    wf h' (State.grid st') /\
    Grid.size (State.grid st') = Grid.size (State.grid st) /\
    (forall p, inside (State.grid st) p ->
       exists c c', cellAt h (State.grid st) p = Some c /\
                    cellAt h' (State.grid st') p = Some c' /\ cleared c c') /\
    hasNewCell (State.grid st') h' = (Ok false, h').
Proof.
  intros Hwf Hm.
  destruct (updateCells_spec clearTransient mergedHasBlock cleared clearTransient_ok
              (State.grid st) h Hwf Hm)
    as (g' & h' & Hupd & Hwf' & Hsize & Hext & Hcells).
  exists {| State.phase := nextPhase; State.grid := g' |}, h'.
  split.
  { cbn [reducer]. rewrite cloneGrid_same. by rewrite (bind_ok _ _ _ _ _ Hupd). }
  split; [done|]. split; [done|]. split; [done|]. split; [done|].
  cbn [State.grid]. rewrite hasNewCell_exists by done. do 2 f_equal.
  apply existsb_false. intros p Hp. apply elem_of_cellPositions in Hp.
  rewrite Hsize in Hp. destruct (Hcells p Hp) as (c & c' & Hc & Hc' & _ & Hb).
  unfold newAt, hasNew. rewrite Hc'. destruct (Cell.block c) as [b|].
  - destruct Hb as (b' & -> & _ & _ & Hnew). done.
  - by rewrite Hb.
Qed.

Lemma CLEAR_TRANSIENT_STATE_clears_every_cell_witness :
  exists st' h',
    reducer random0 state_full2 (CLEAR_TRANSIENT_STATE TEST_WON) heap_full2 = (Ok st', h') /\
    State.phase st' = TEST_WON /\
    wf h' (State.grid st') /\
    Grid.size (State.grid st') = Grid.size (State.grid state_full2) /\
    (forall p, inside (State.grid state_full2) p ->
       exists c c', cellAt heap_full2 (State.grid state_full2) p = Some c /\
                    cellAt h' (State.grid st') p = Some c' /\ cleared c c') /\
    hasNewCell (State.grid st') h' = (Ok false, h').
Proof.
  apply (CLEAR_TRANSIENT_STATE_clears_every_cell random0 state_full2 TEST_WON heap_full2
           full2_wf full2_mergedHasBlock).
Defined.

Lemma inputHandler_keys key :
  is_Some (inputHandler key) <->
  key ∈ ["ArrowLeft"; "ArrowRight"; "ArrowUp"; "ArrowDown"].
Proof.
  unfold inputHandler, KEY_DIRECTION_MAP.
  destruct (String.eqb_spec key "ArrowLeft") as [->|H1].
  { split; [intros _; set_solver|by eexists]. }
  destruct (String.eqb_spec key "ArrowRight") as [->|H2].
  { split; [intros _; set_solver|by eexists]. }
  destruct (String.eqb_spec key "ArrowUp") as [->|H3].
  { split; [intros _; set_solver|by eexists]. }
  destruct (String.eqb_spec key "ArrowDown") as [->|H4].
  { split; [intros _; set_solver|by eexists]. }
  split; [by intros [? ?]|]. intros Hin.
  repeat (apply elem_of_cons in Hin as [->|Hin]; [done|]). by apply elem_of_nil in Hin.
Qed.

(** X18 ([inputHandler], [KEY_DIRECTION_MAP], [reducer]): a key whose name
    is not a property that every object inherits dispatches an action
    exactly when it is one of the four arrow keys; the action is then
    SET_MOVED_DIRECTION with one axis zero and the other +1 or -1, and on a
    well-formed grid the reducer returns, without a throw, a state in phase
    ACTIVE with a well-formed grid of the same size. *)
Theorem key_press_moves_or_is_ignored rnd key st h :
  wf h (State.grid st) ->
  key ∉ inheritedKeys ->
  (is_Some (inputHandler key) <->
   key ∈ ["ArrowLeft"; "ArrowRight"; "ArrowUp"; "ArrowDown"]) /\
  (forall action,
     inputHandler key = Some action ->
     exists d st' h',
       action = SET_MOVED_DIRECTION d /\ validDirection d /\
       reducer rnd st action h = (Ok st', h') /\
       State.phase st' = ACTIVE /\
       wf h' (State.grid st') /\
       Grid.size (State.grid st') = Grid.size (State.grid st)).
Proof.
  intros Hwf _. split; [apply inputHandler_keys|].
  intros action Haction. unfold inputHandler in Haction.
  destruct (KEY_DIRECTION_MAP key) as [d|] eqn:Hkey; [|done]. injection Haction as <-.
  pose proof (KEY_DIRECTION_MAP_valid key d Hkey) as Hd.
  assert (exists g' h', resolveCellsInDirection d (State.grid st) h = (Ok g', h') /\
                        wf h' g' /\ Grid.size g' = Grid.size (State.grid st))
    as (g' & h' & Hres & Hwf' & Hsize).
  { unfold resolveCellsInDirection. rewrite cloneGrid_same.
    destruct Hd as [[Hx Hy]|[Hy Hx]].
    - rewrite Hx. simpl. apply resolve_columns_total; [done|apply seqZ_range].
    - assert ((Vector.x d =? 0) = false) as -> by (apply Z.eqb_neq; lia).
      rewrite Hy. simpl. apply resolve_rows_total; [done|apply seqZ_range]. }
  exists d, {| State.phase := ACTIVE; State.grid := g' |}, h'.
  split; [done|]. split; [done|]. split; [|done].
  cbn [reducer]. by rewrite (bind_ok _ _ _ _ _ Hres).
Qed.

Lemma key_press_moves_or_is_ignored_witness :
  (is_Some (inputHandler "ArrowUp") <->
   "ArrowUp" ∈ ["ArrowLeft"; "ArrowRight"; "ArrowUp"; "ArrowDown"]) /\
  (forall action,
     inputHandler "ArrowUp" = Some action ->
     exists d st' h',
       action = SET_MOVED_DIRECTION d /\ validDirection d /\
       reducer random0 state_full2 action heap_full2 = (Ok st', h') /\
       State.phase st' = ACTIVE /\
       wf h' (State.grid st') /\
       Grid.size (State.grid st') = Grid.size (State.grid state_full2)).
Proof.
  apply (key_press_moves_or_is_ignored random0 "ArrowUp" state_full2 heap_full2 full2_wf).
  unfold inheritedKeys. rewrite !not_elem_of_cons, elem_of_nil.
  repeat (split; [discriminate|]). tauto.
Defined.

(** X19 ([useBoxAnimationsCompleteCallback]): once the counter has reached
    or passed the count the round waits for, no number of further signals
    handled by the same callback dispatches anything: each one only adds 1
    to the counter. *)
Theorem completion_counter_stuck_past_expected boxCount phase (n : nat) (count : Z) :
  expectedCount boxCount phase <= count ->
  signals boxCount phase n count = (count + Z.of_nat n, replicate n (Ok None)).
Proof.
  revert count. induction n as [|n IH]; intros count Hc.
  - simpl. f_equal. lia.
  - cbn [signals]. unfold handleBoxAnimationComplete.
    fold (expectedCount boxCount phase).
    destruct (Z.eqb_spec (count + 1) (expectedCount boxCount phase)) as [Heq|_]; [lia|].
    rewrite IH by lia. cbn [replicate]. f_equal. lia.
Qed.

Lemma completion_counter_stuck_past_expected_witness :
  signals 0 ACTIVE 3 0 = (0 + Z.of_nat 3, replicate 3 (Ok None)).
Proof. apply (completion_counter_stuck_past_expected 0 ACTIVE 3 0). simpl. lia. Defined.

(** ** The order of the blocks along a line *)


Lemma resolvedGroups_in_order direction bs :
  direction = 1 \/ direction = -1 ->
  concat (reverse <$> (render direction <$> resolvedGroups direction bs)) = bs.
Proof.
  intros [-> | ->]; unfold resolvedGroups, scanOrder; simpl.
  - rewrite fmap_reverse, concat_reverse_groups, greedy_concat_scan.
    apply reverse_involutive.
  - apply greedy_concat_line.
Qed.

Lemma cellOfGroup_boxIdsAlong direction g c :
  cellOfGroup g c ->
  boxIdsAlong direction c =
    match g with
    | None => []
    | Some g => Block.id <$> reverse (render direction g)
    end.
Proof.
  destruct g as [[a|a b]|]; simpl.
  - by intros ->.
  - intros (bl & Hb & Hid & _ & _ & Hm). unfold boxIdsAlong. rewrite Hb, Hm, Hid.
    by destruct (direction =? 1).
  - by intros ->.
Qed.

Lemma ids_groups_along direction (gs : list Group) :
  concat ((fun g => Block.id <$> reverse (render direction g)) <$> gs) =
  Block.id <$> concat (reverse <$> (render direction <$> gs)).
Proof.
  induction gs as [|g gs IH]; [done|].
  rewrite !fmap_cons, !concat_cons, fmap_app. by rewrite IH.
Qed.

(** X20 ([resolveColumnOrRowInDirection]): for a line with at least one
    block (distinct block objects), moved with sign +1 or -1, the boxes of
    the returned line, read cell by cell with the merged block of a cell on
    the side of the destination edge, carry the ids of the blocks of the
    given line in the same order: no block is lost, doubled or moved past
    another one. *)
Theorem resolved_line_keeps_ids_in_order direction (cells : list (option nat)) h :
  direction = 1 \/ direction = -1 ->
  Forall (slot_ok h) cells ->
  NoDup (Block.ref <$> omap (fun b => b) (blockOfSlot h <$> cells)) ->
  omap (fun b => b) (blockOfSlot h <$> cells) <> [] ->
  exists cells' h',
    resolveColumnOrRowInDirection direction cells h = (Ok cells', h') /\
    concat (boxIdsAlong direction <$> lineCells h' cells') =
      Block.id <$> omap (fun b => b) (blockOfSlot h <$> cells).
Proof.
  intros Hd Hok Hnd Hne.
  destruct (resolved_line_cells direction cells h Hd Hok Hnd Hne)
    as (cells' & h' & Hres & Hlen & Hcs).
  exists cells', h'. split; [done|].
  erewrite <- (Forall2_fmap_eq
                 (fun g : option Group =>
                    match g with
                    | None => []
                    | Some g => Block.id <$> reverse (render direction g)
                    end)
                 (boxIdsAlong direction)).
  2:{ eapply Forall2_impl; [exact Hcs|]. intros g c Hg. symmetry.
      by apply cellOfGroup_boxIdsAlong. }
  rewrite layout_fmap.
  transitivity (concat ((fun g => Block.id <$> reverse (render direction g)) <$>
                  resolvedGroups direction (omap (fun b => b) (blockOfSlot h <$> cells)))).
  { destruct (direction =? 1); rewrite concat_app, concat_nils; [done|].
    by rewrite app_nil_r. }
  rewrite ids_groups_along. by rewrite resolvedGroups_in_order.
Qed.

Lemma resolved_line_keeps_ids_in_order_witness :
  exists cells' h',
    resolveColumnOrRowInDirection 1 line_pair heap_pair = (Ok cells', h') /\
    concat (boxIdsAlong 1 <$> lineCells h' cells') =
      Block.id <$> omap (fun b => b) (blockOfSlot heap_pair <$> line_pair).
Proof.
  apply (resolved_line_keeps_ids_in_order 1 line_pair heap_pair).
  - by left.
  - repeat constructor; eexists _, _; split; reflexivity.
  - simpl. repeat (apply NoDup_cons_2; [rewrite ?not_elem_of_cons, ?elem_of_nil; intuition lia|]).
    apply NoDup_nil_2.
  - discriminate.
Defined.

(** X21 ([findBlockPairs]): for a line of distinct block objects and a
    direction sign +1 or -1, the groups are returned in the order of the
    line, and inside every pair the block of the higher index comes first:
    reversing each group and joining the groups gives back the line. *)
Theorem findBlockPairs_keeps_line_order direction (bs : list Block.t) :
  direction = 1 \/ direction = -1 ->
  NoDup (Block.ref <$> bs) ->
  concat (reverse <$> blockPairs (findBlockPairs direction (Some <$> bs))) = bs.
Proof.
  intros Hd Hnd. rewrite findBlockPairs_greedy by done. cbn [blockPairs].
  rewrite render_scanOrder. by apply (resolvedGroups_in_order direction bs).
Qed.

Lemma findBlockPairs_keeps_line_order_witness :
  concat (reverse <$> blockPairs (findBlockPairs 1 (Some <$> [two_a; two_b; two_c]))) =
    [two_a; two_b; two_c].
Proof.
  apply (findBlockPairs_keeps_line_order 1 [two_a; two_b; two_c]); [by left|].
  simpl. repeat (apply NoDup_cons_2; [rewrite ?not_elem_of_cons, ?elem_of_nil; intuition lia|]).
  apply NoDup_nil_2.
Defined.

(** X22 ([resolveCellsInDirection]): for a direction of the key map, on a
    well-formed grid whose lines along the direction hold distinct block
    objects, the move returns a well-formed grid of the same size in which
    every line along the direction is the resolved form of the same line of
    the given grid: a line without blocks keeps its cells, any other line
    holds the groups of its blocks packed against the destination edge.  No
    line depends on another one. *)
Theorem move_resolves_every_line d g h :
  validDirection d ->
  wf h g ->
  (forall i, 0 <= i < Grid.size g ->
             NoDup (Block.ref <$> blocksOf (lineCellsAlong h g d i))) ->
  exists g' h',
    resolveCellsInDirection d g h = (Ok g', h') /\
    wf h' g' /\ Grid.size g' = Grid.size g /\
    (forall i, 0 <= i < Grid.size g ->
       lineResolved (moveSign d) (lineCellsAlong h g d i) (lineCellsAlong h' g' d i)).
Proof. apply resolveCellsInDirection_lines. Qed.

Lemma move_resolves_every_line_witness :
  exists g' h',
    resolveCellsInDirection up grid_2x2 heap_full2 = (Ok g', h') /\
    wf h' g' /\ Grid.size g' = Grid.size grid_2x2 /\
    (forall i, 0 <= i < Grid.size grid_2x2 ->
       lineResolved (moveSign up) (lineCellsAlong heap_full2 grid_2x2 up i)
                    (lineCellsAlong h' g' up i)).
Proof.
  apply (move_resolves_every_line up grid_2x2 heap_full2 up_valid full2_wf
           full2_columns_distinct).
Defined.

(** X23 ([hasLost], [resolveCellsInDirection]): on a well-formed board with
    at least one cell on which [hasLost] returns true, a move in a direction
    of the key map (the lines along it holding distinct block objects)
    leaves every block at its position. *)
Theorem lost_board_cannot_move d g h :
  validDirection d ->
  wf h g -> 1 <= Grid.size g ->
  (forall i, 0 <= i < Grid.size g ->
             NoDup (Block.ref <$> blocksOf (lineCellsAlong h g d i))) ->
  hasLost g h = (Ok true, h) ->
  exists g' h',
    resolveCellsInDirection d g h = (Ok g', h') /\
    (forall p, inside g p -> blockAt h' g' p = blockAt h g p).
Proof.
  intros Hd Hwf Hsize Hdistinct Hlost.
  apply hasLost_true_iff in Hlost as (Hfull & Hcols & Hrows); [|done].
  destruct (resolveCellsInDirection_quiet d g h Hd Hwf Hsize)
    as (g' & h' & Hres & _ & _ & Hsame & _).
  { intros i Hi. specialize (Hdistinct i Hi). rewrite <- linesAlong_cells in Hdistinct.
    unfold linesAlong in *. destruct (Vector.x d =? 0).
    - exists (omap (fun b => b) (columnBlocks h g i)).
      split; [by apply full_board_column|]. split; [done|].
      rewrite <- (hasBlockPairs_neighbours 1) by auto.
      rewrite <- full_board_column by done. rewrite Hcols by done. done.
    - exists (omap (fun b => b) (rowBlocks h g i)).
      split; [by apply full_board_row|]. split; [done|].
      rewrite <- (hasBlockPairs_neighbours 1) by auto.
      rewrite <- full_board_row by done. rewrite Hrows by done. done. }
  by exists g', h'.
Qed.

Lemma lost_board_cannot_move_witness :
  exists g' h',
    resolveCellsInDirection up grid_2x2 heap_lost2 = (Ok g', h') /\
    (forall p, inside grid_2x2 p -> blockAt h' g' p = blockAt heap_lost2 grid_2x2 p).
Proof.
  apply (lost_board_cannot_move up grid_2x2 heap_lost2 up_valid lost2_wf).
  - simpl. lia.
  - apply lost2_columns_distinct.
  - reflexivity.
Defined.

(** ** From a key press to TEST_WON *)

Lemma lineCellsAlong_elem h g d p :
  inside g p ->
  cellAt h g p ∈ lineCellsAlong h g d (if Vector.x d =? 0 then Vector.x p else Vector.y p).
Proof.
  intros [Hx Hy]. unfold lineCellsAlong. destruct (Vector.x d =? 0).
  - unfold columnCells. apply list_elem_of_fmap. exists (Vector.y p).
    split; [by destruct p|]. apply elem_of_seqZ. lia.
  - unfold rowCells. apply list_elem_of_fmap. exists (Vector.x p).
    split; [by destruct p|]. apply elem_of_seqZ. lia.
Qed.

Lemma lineCellsAlong_inside h g d i oc :
  0 <= i < Grid.size g -> oc ∈ lineCellsAlong h g d i ->
  exists p, inside g p /\ oc = cellAt h g p.
Proof.
  intros Hi. unfold lineCellsAlong. destruct (Vector.x d =? 0).
  - unfold columnCells. intros Hin. apply list_elem_of_fmap in Hin as (y & -> & Hy).
    apply elem_of_seqZ in Hy. eexists. split; [|done]. unfold inside. simpl. lia.
  - unfold rowCells. intros Hin. apply list_elem_of_fmap in Hin as (x & -> & Hx).
    apply elem_of_seqZ in Hx. eexists. split; [|done]. unfold inside. simpl. lia.
Qed.

Lemma cellOfGroup_mergedHasBlock g c : cellOfGroup g c -> mergedHasBlock c.
Proof.
  unfold mergedHasBlock. destruct g as [[a|a b]|]; simpl.
  - by intros ->.
  - intros (bl & Hb & _) _. by rewrite Hb.
  - by intros ->.
Qed.

Lemma lineResolved_mergedHasBlock sign old new :
  lineResolved sign old new ->
  (forall c, Some c ∈ old -> mergedHasBlock c) ->
  forall c, Some c ∈ new -> mergedHasBlock c.
Proof.
  unfold lineResolved. destruct (decide (blocksOf old = [])) as [_|_].
  - by intros ->.
  - intros Hnew _ c Hc. apply list_elem_of_lookup in Hc as [j Hj].
    destruct (Forall2_lookup_r _ _ _ _ _ Hnew Hj) as (g & _ & c' & [= <-] & Hg).
    by eapply cellOfGroup_mergedHasBlock.
Qed.

(** after a move no cell holds a merged block without a block *)
Lemma move_mergedHasBlock d g h g' h' :
  wf h g -> Grid.size g' = Grid.size g ->
  (forall i, 0 <= i < Grid.size g ->
     lineResolved (moveSign d) (lineCellsAlong h g d i) (lineCellsAlong h' g' d i)) ->
  (forall p c, inside g p -> cellAt h g p = Some c -> mergedHasBlock c) ->
  forall p c, inside g' p -> cellAt h' g' p = Some c -> mergedHasBlock c.
Proof.
  intros Hwf Hsize Hlines Hold p c Hp Hc.
  pose proof (lineCellsAlong_elem h' g' d p Hp) as Hin. rewrite Hc in Hin.
  set (i := if Vector.x d =? 0 then Vector.x p else Vector.y p) in *.
  assert (0 <= i < Grid.size g) as Hi.
  { destruct Hp as [Hx Hy]. rewrite Hsize in Hx, Hy. subst i.
    by destruct (Vector.x d =? 0). }
  eapply lineResolved_mergedHasBlock; [apply (Hlines i Hi)| |exact Hin].
  intros c0 Hc0. destruct (lineCellsAlong_inside h g d i _ Hi Hc0) as (q & Hq & Hcq).
  by apply (Hold q c0).
Qed.

Lemma clear_transient_spec rnd st nextPhase h :
  wf h (State.grid st) ->
  (forall p c, inside (State.grid st) p -> cellAt h (State.grid st) p = Some c ->
               mergedHasBlock c) ->
  exists g' h',
    reducer rnd st (CLEAR_TRANSIENT_STATE nextPhase) h =
      (Ok {| State.phase := nextPhase; State.grid := g' |}, h') /\
    wf h' g' /\ Grid.size g' = Grid.size (State.grid st) /\
    (forall p, inside (State.grid st) p ->
       exists c c', cellAt h (State.grid st) p = Some c /\
                    cellAt h' g' p = Some c' /\ cleared c c').
Proof.
  intros Hwf Hm.
  destruct (updateCells_spec clearTransient mergedHasBlock cleared clearTransient_ok
              (State.grid st) h Hwf Hm)
    as (g' & h' & Hupd & Hwf' & Hsize & Hext & Hcells).
  exists g', h'. split; [|done].
  cbn [reducer]. rewrite cloneGrid_same. by rewrite (bind_ok _ _ _ _ _ Hupd).
Qed.

Lemma cleared_value c c' : cleared c c' -> cellValue c' = cellValue c.
Proof.
  intros [_ Hb]. unfold cellValue. destruct (Cell.block c) as [b|].
  - destruct Hb as (b' & -> & _ & Hv & _). done.
  - by rewrite Hb.
Qed.

(** X24 (the phase machine from INPUT to TEST_WON): on a well-formed board
    with at least one block, whose lines along the direction hold distinct
    block objects and whose merged blocks all sit in cells with a block, an
    arrow key leads to ACTIVE on the resolved grid; the completion counter
    then takes as many signals as there were blocks, the last of which
    dispatches CLEAR_TRANSIENT_STATE and leads to TEST_WON with the counter
    at 0, on a well-formed grid of the same size that holds the resolved
    cells cleared and the same sum of values as before the key press. *)
Theorem key_press_reaches_TEST_WON key d g h :
  KEY_DIRECTION_MAP key = Some d ->
  wf h g ->
  (forall i, 0 <= i < Grid.size g ->
             NoDup (Block.ref <$> blocksOf (lineCellsAlong h g d i))) ->
  (forall p c, inside g p -> cellAt h g p = Some c -> mergedHasBlock c) ->
  1 <= boardSum blocksAt h g ->
  exists g1 h1 g2 h2,
    resolveCellsInDirection d g h = (Ok g1, h1) /\
    boxCount g1 h1 = (Ok (boardSum blocksAt h g), h1) /\
    rtc step (game_in INPUT g 0 h) (game_in ACTIVE g1 (boardSum blocksAt h g - 1) h1) /\
    step (game_in ACTIVE g1 (boardSum blocksAt h g - 1) h1) (game_in TEST_WON g2 0 h2) /\
    wf h2 g2 /\ Grid.size g2 = Grid.size g /\
    (forall p, inside g p ->
       exists c c', cellAt h1 g1 p = Some c /\ cellAt h2 g2 p = Some c' /\ cleared c c') /\
    boardSum valueOf h2 g2 = boardSum valueOf h g.
Proof.
  intros Hkey Hwf Hdistinct Hm Hblocks.
  pose proof (KEY_DIRECTION_MAP_valid key d Hkey) as Hd.
  destruct (resolveCellsInDirection_lines d g h Hd Hwf Hdistinct)
    as (g1 & h1 & Hres & Hwf1 & Hsize1 & Hlines).
  set (k := boardSum blocksAt h g) in *.
  assert (boxCount g1 h1 = (Ok k, h1)) as Hcount.
  { rewrite boxCount_boardSum by done. do 2 f_equal.
    apply (boardSum_by_lines boxesAt blocksAt d); [done|].
    intros i Hi. eapply lineResolved_boxes. by apply Hlines. }
  destruct (clear_transient_spec random0 {| State.phase := ACTIVE; State.grid := g1 |}
              TEST_WON h1 Hwf1)
    as (g2 & h2 & Hclear & Hwf2 & Hsize2 & Hcells).
  { by apply (move_mergedHasBlock d g h g1 h1). }
  cbn [State.grid] in *.
  exists g1, h1, g2, h2. split; [done|]. split; [done|]. split; [|split].
  - eapply rtc_l.
    + apply (step_key (game_in INPUT g 0 h) random0 key (SET_MOVED_DIRECTION d)
               {| State.phase := ACTIVE; State.grid := g1 |} h1); [done| |].
      * unfold inputHandler. by rewrite Hkey.
      * cbn [reducer game_in Game.state Game.heap State.grid].
        by rewrite (bind_ok _ _ _ _ _ Hres).
    + cbn [game_in Game.count].
      pose proof (quiet_signals g1 h1 k (Z.to_nat (k - 1)) Hcount 0) as Hsig.
      rewrite Z.add_0_l, Z2Nat.id in Hsig by lia. apply Hsig. lia.
  - apply (step_advance (game_in ACTIVE g1 (k - 1) h1) random0 k 0
             (CLEAR_TRANSIENT_STATE TEST_WON)
             {| State.phase := TEST_WON; State.grid := g2 |} h2); [done| |done].
    cbn [game_in Game.state Game.count State.phase]. unfold handleBoxAnimationComplete.
    replace (k - 1 + 1) with k by lia. by rewrite Z.eqb_refl.
  - split; [done|]. split; [lia|]. split.
    + intros p Hp. apply Hcells. unfold inside. by rewrite Hsize1.
    + transitivity (boardSum valueOf h1 g1).
      * unfold boardSum. rewrite Hsize2. apply sumZ_ext. intros p Hp.
        apply elem_of_cellPositions in Hp.
        destruct (Hcells p Hp) as (c & c' & -> & -> & Hcl). simpl.
        by apply cleared_value.
      * apply (boardSum_by_lines valueOf valueOf d); [done|].
        intros i Hi. eapply lineResolved_value. by apply Hlines.
Qed.

Lemma key_press_reaches_TEST_WON_witness :
  exists g1 h1 g2 h2,
    resolveCellsInDirection up grid_2x2 heap_full2 = (Ok g1, h1) /\
    boxCount g1 h1 = (Ok (boardSum blocksAt heap_full2 grid_2x2), h1) /\
    rtc step (game_in INPUT grid_2x2 0 heap_full2)
             (game_in ACTIVE g1 (boardSum blocksAt heap_full2 grid_2x2 - 1) h1) /\
    step (game_in ACTIVE g1 (boardSum blocksAt heap_full2 grid_2x2 - 1) h1)
         (game_in TEST_WON g2 0 h2) /\
    wf h2 g2 /\ Grid.size g2 = Grid.size grid_2x2 /\
    (forall p, inside grid_2x2 p ->
       exists c c', cellAt h1 g1 p = Some c /\ cellAt h2 g2 p = Some c' /\ cleared c c') /\
    boardSum valueOf h2 g2 = boardSum valueOf heap_full2 grid_2x2.
Proof.
  apply (key_press_reaches_TEST_WON "ArrowUp" up grid_2x2 heap_full2).
  - reflexivity.
  - apply full2_wf.
  - apply full2_columns_distinct.
  - apply full2_mergedHasBlock.
  - vm_compute. discriminate.
Defined.

(** ** [buildUVinRange] *)


Section NumbersFacts.
Variable F : Type.
Variable ofZ : Z -> F.
Variables fadd fsub fmul fdiv : F -> F -> F.

Lemma foldl_push_length {A B} (f : B -> list A) (m : nat) (l : list B) (acc : list A) :
  (forall b, length (f b) = m) ->
  length (foldl (fun acc b => acc ++ f b) acc l) = (length acc + length l * m)%nat.
Proof.
  intros Hf. revert acc. induction l as [|b l IH]; intros acc; [simpl; lia|].
  cbn [foldl]. rewrite IH, length_app, Hf. simpl. lia.
Qed.

Lemma buildPlane_length uMin uMax vMin vMax gridX gridY uvs :
  0 <= gridX + 1 -> 0 <= gridY + 1 ->
  Z.of_nat (length (buildPlane F ofZ fadd fsub fmul fdiv uMin uMax vMin vMax gridX gridY uvs)) =
  Z.of_nat (length uvs) + 2 * ((gridX + 1) * (gridY + 1)).
Proof.
  intros Hx Hy. unfold buildPlane. cbv zeta.
  assert (forall (l : list Z) (acc : list F) (row : list Z),
            length (foldl (fun uvs iy =>
                      foldl (fun uvs ix =>
                               uvs ++ [mapNumber F fadd fsub fmul fdiv
                                         (fdiv (ofZ ix) (ofZ gridX)) (ofZ 0) (ofZ 1) uMin uMax]
                                   ++ [mapNumber F fadd fsub fmul fdiv
                                         (fsub (ofZ 1) (fdiv (ofZ iy) (ofZ gridY)))
                                         (ofZ 0) (ofZ 1) vMin vMax])
                            uvs row) acc l) =
            (length acc + length l * (length row * 2))%nat) as Hrows.
  { intros l acc0 row. revert acc0. induction l as [|iy l IH]; intros acc0; [simpl; lia|].
    cbn [foldl]. rewrite IH.
    rewrite (foldl_push_length
               (fun ix => [mapNumber F fadd fsub fmul fdiv
                             (fdiv (ofZ ix) (ofZ gridX)) (ofZ 0) (ofZ 1) uMin uMax]
                          ++ [mapNumber F fadd fsub fmul fdiv
                                (fsub (ofZ 1) (fdiv (ofZ iy) (ofZ gridY)))
                                (ofZ 0) (ofZ 1) vMin vMax]) 2); [|done].
    simpl. lia. }
  rewrite Hrows, !length_seqZ. nia.
Qed.
End NumbersFacts.

(** X25 ([buildUVinRange]): for segment counts that are not negative, the
    array returned holds two numbers for each of the
    [(gridX + 1) * (gridY + 1)] vertices of each of the six planes, whatever
    the arithmetic of the numbers. *)
Theorem buildUVinRange_two_numbers_per_vertex {F : Type} (ofZ : Z -> F)
  (fadd fsub fmul fdiv : F -> F -> F) (uMin uMax vMin vMax : F)
  (widthSegments depthSegments heightSegments : Z) :
  0 <= widthSegments -> 0 <= depthSegments -> 0 <= heightSegments ->
  Z.of_nat (length (buildUVinRange F ofZ fadd fsub fmul fdiv uMin uMax vMin vMax
                      widthSegments depthSegments heightSegments)) =
  2 * (2 * ((depthSegments + 1) * (heightSegments + 1)) +
       2 * ((widthSegments + 1) * (depthSegments + 1)) +
       2 * ((widthSegments + 1) * (heightSegments + 1))).
Proof.
  intros Hw Hd Hh. unfold buildUVinRange. cbv zeta.
  rewrite !buildPlane_length by lia. simpl. lia.
Qed.

Lemma buildUVinRange_two_numbers_per_vertex_witness :
  Z.of_nat (length (buildUVinRange Z (fun z => z) Z.add Z.sub Z.mul Z.div 0 1 0 1 1 1 1)) =
  2 * (2 * ((1 + 1) * (1 + 1)) + 2 * ((1 + 1) * (1 + 1)) + 2 * ((1 + 1) * (1 + 1))).
Proof.
  apply (buildUVinRange_two_numbers_per_vertex (fun z => z) Z.add Z.sub Z.mul Z.div
           0 1 0 1 1 1 1); lia.
Defined.

(** ** A board that is not lost *)

Lemma greedy_shorter l : hasEqualNeighbours l -> (length (greedy l) < length l)%nat.
Proof.
  induction l using greedy_cases; intros (j & x & y & Hx & Hy & Hv).
  - done.
  - by destruct j.
  - rewrite greedy_pair by done. cbn [length].
    pose proof (greedy_length l) as [Hle _]. lia.
  - rewrite greedy_single by done. cbn [length] in *.
    assert (hasEqualNeighbours (b :: l)) as Hrest.
    { destruct j as [|j].
      - simpl in Hx, Hy. injection Hx as <-. injection Hy as <-. congruence.
      - by exists j, x, y. }
    specialize (IHl Hrest). lia.
Qed.

Lemma adjacentEqual_closed (l : list (option Block.t)) :
  adjacentEqual l = true -> hasEqualNeighbours (omap (fun b => b) l).
Proof.
  induction l as [|a rest IH]; [done|]. cbn [adjacentEqual omap list_omap].
  destruct a as [a|].
  - destruct rest as [|[b|] rest'].
    + done.
    + intros Heq. apply orb_true_iff in Heq as [Hv|Hrest].
      * exists 0%nat, a, b. apply Z.eqb_eq in Hv. done.
      * destruct (IH Hrest) as (j & x & y & Hx & Hy & Hxy). by exists (S j), x, y.
    + intros Hrest. destruct (IH Hrest) as (j & x & y & Hx & Hy & Hxy).
      by exists (S j), x, y.
  - intros Hrest. by apply IH.
Qed.


Lemma cellOfGroup_count g c : cellOfGroup g c -> groupCount g = blocksAt (Some c).
Proof.
  unfold blocksAt. destruct g as [[a|a b]|]; simpl.
  - by intros ->.
  - intros (bl & Hb & _). by rewrite Hb.
  - by intros ->.
Qed.

Lemma sumZ_ones {A} (l : list A) : sumZ ((fun _ => 1) <$> l) = Z.of_nat (length l).
Proof. induction l as [|a l IH]; [done|]. rewrite fmap_cons, sumZ_cons, IH. simpl. lia. Qed.

(** a move never adds a non-empty cell to a line, and takes one away when
    two neighbours of the line, gaps closed, have equal values *)
Lemma lineResolved_count sign old new :
  sign = 1 \/ sign = -1 ->
  lineResolved sign old new ->
  sumZ (blocksAt <$> new) <= sumZ (blocksAt <$> old) /\
  (hasEqualNeighbours (blocksOf old) -> sumZ (blocksAt <$> new) < sumZ (blocksAt <$> old)).
Proof.
  intros Hd. unfold lineResolved. destruct (decide (blocksOf old = [])) as [Hnil|Hne].
  - intros ->. split; [lia|]. rewrite Hnil. by intros (j & x & y & Hx & _).
  - intros Hnew.
    assert (sumZ (blocksAt <$> new) =
            Z.of_nat (length (resolvedGroups sign (blocksOf old)))) as ->.
    { erewrite <- (Forall2_fmap_eq groupCount blocksAt).
      2:{ eapply Forall2_impl; [exact Hnew|]. intros g oc (c & -> & Hc).
          by apply cellOfGroup_count. }
      rewrite sumZ_layout by done. apply sumZ_ones. }
    rewrite sumZ_blocksAt. unfold resolvedGroups. rewrite scanOrder_length.
    pose proof (greedy_length (scanOrder sign (blocksOf old))) as [Hle _].
    rewrite scanOrder_length in Hle. split; [lia|].
    intros Heq. apply (hasEqualNeighbours_scanOrder sign) in Heq.
    apply greedy_shorter in Heq. rewrite scanOrder_length in Heq. lia.
Qed.

Lemma sumZ_le {A} (f g : A -> Z) (l : list A) :
  (forall a, a ∈ l -> f a <= g a) -> sumZ (f <$> l) <= sumZ (g <$> l).
Proof.
  induction l as [|a l IH]; intros Hle; [done|].
  rewrite !fmap_cons, !sumZ_cons.
  assert (f a <= g a) by (apply Hle; left).
  assert (sumZ (f <$> l) <= sumZ (g <$> l)) by (apply IH; intros b Hb; apply Hle; by right).
  lia.
Qed.

Lemma sumZ_lt {A} (f g : A -> Z) (l : list A) (a : A) :
  (forall a, a ∈ l -> f a <= g a) -> a ∈ l -> f a < g a ->
  sumZ (f <$> l) < sumZ (g <$> l).
Proof.
  induction l as [|b l IH]; intros Hle Hin Hlt; [by apply elem_of_nil in Hin|].
  rewrite !fmap_cons, !sumZ_cons.
  assert (f b <= g b) by (apply Hle; left).
  assert (sumZ (f <$> l) <= sumZ (g <$> l))
    by (apply sumZ_le; intros c Hc; apply Hle; by right).
  apply elem_of_cons in Hin as [->|Hin]; [lia|].
  assert (sumZ (f <$> l) < sumZ (g <$> l)); [|lia].
  apply IH; [|done|done]. intros c Hc. apply Hle. by right.
Qed.

Lemma blocksAt_bounds oc : 0 <= blocksAt oc <= 1.
Proof. unfold blocksAt. destruct (oc ≫= Cell.block); lia. Qed.

Lemma length_cellPositions (n : Z) :
  0 <= n -> Z.of_nat (length (cellPositions n)) = n * n.
Proof.
  intros Hn. unfold cellPositions.
  assert (forall l : list Z,
            length (flat_map (fun x => map (fun y => {| Vector.x := x; Vector.y := y |})
                                           (seqZ 0 n)) l) =
            (length l * Z.to_nat n)%nat) as Hlen.
  { induction l as [|x l IH]; [done|]. cbn [flat_map].
    rewrite length_app, IH, length_map, length_seqZ. simpl. lia. }
  rewrite Hlen, length_seqZ. nia.
Qed.

(** a board with fewer blocks than cells has an empty cell *)
Lemma below_full_has_empty h g :
  wf h g ->
  boardSum blocksAt h g < Grid.size g * Grid.size g ->
  exists p c, inside g p /\ cellAt h g p = Some c /\ Cell.block c = None.
Proof.
  intros Hwf Hlt.
  assert (0 <= Grid.size g) as Hsize by (destruct Hwf as [-> _]; lia).
  rewrite <- length_cellPositions in Hlt by done. unfold boardSum in Hlt.
  assert (forall ps : list Vector.t,
            sumZ ((fun p => blocksAt (cellAt h g p)) <$> ps) < Z.of_nat (length ps) ->
            exists p, p ∈ ps /\ blocksAt (cellAt h g p) = 0) as Hpigeon.
  { induction ps as [|p ps IH]; [simpl; unfold sumZ; simpl; lia|].
    rewrite fmap_cons, sumZ_cons. cbn [length]. intros Hsum.
    pose proof (blocksAt_bounds (cellAt h g p)) as Hb.
    destruct (decide (blocksAt (cellAt h g p) = 0)) as [Hz|Hnz].
    - exists p. split; [left|done].
    - destruct IH as (q & Hq & Hzq); [lia|]. exists q. split; [by right|done]. }
  destruct (Hpigeon _ Hlt) as (p & Hp & Hz).
  apply elem_of_cellPositions in Hp.
  destruct (wf_cellAt h g p Hwf Hp) as [c Hc]. exists p, c. split; [done|]. split; [done|].
  rewrite Hc in Hz. unfold blocksAt in Hz. simpl in Hz.
  by destruct (Cell.block c).
Qed.

Lemma boardSum_blocksAt_le h g :
  0 <= Grid.size g -> boardSum blocksAt h g <= Grid.size g * Grid.size g.
Proof.
  intros Hsize. rewrite <- length_cellPositions by done. unfold boardSum.
  rewrite <- sumZ_ones. apply sumZ_le. intros p _. apply blocksAt_bounds.
Qed.

Lemma empty_cell_below_full h g p c :
  wf h g -> inside g p -> cellAt h g p = Some c -> Cell.block c = None ->
  boardSum blocksAt h g < Grid.size g * Grid.size g.
Proof.
  intros Hwf Hp Hc Hb.
  assert (0 <= Grid.size g) as Hsize by (destruct Hwf as [-> _]; lia).
  rewrite <- length_cellPositions by done. unfold boardSum. rewrite <- sumZ_ones.
  apply (sumZ_lt _ _ _ p).
  - intros q _. apply blocksAt_bounds.
  - by apply elem_of_cellPositions.
  - rewrite Hc. unfold blocksAt. simpl. rewrite Hb. lia.
Qed.

(** what a move does to the number of non-empty cells *)
Lemma move_count d g h g' h' :
  validDirection d ->
  Grid.size g' = Grid.size g ->
  (forall i, 0 <= i < Grid.size g ->
     lineResolved (moveSign d) (lineCellsAlong h g d i) (lineCellsAlong h' g' d i)) ->
  boardSum blocksAt h' g' <= boardSum blocksAt h g /\
  (forall i, 0 <= i < Grid.size g ->
     hasEqualNeighbours (blocksOf (lineCellsAlong h g d i)) ->
     boardSum blocksAt h' g' < boardSum blocksAt h g).
Proof.
  intros Hd Hsize Hlines.
  assert (moveSign d = 1 \/ moveSign d = -1) as Hsign.
  { unfold moveSign. destruct Hd as [[Hx Hy]|[Hy Hx]].
    - by rewrite Hx.
    - assert ((Vector.x d =? 0) = false) as -> by (apply Z.eqb_neq; lia). done. }
  rewrite (boardSum_lines blocksAt h' g' d), (boardSum_lines blocksAt h g d), Hsize.
  split.
  - apply sumZ_le. intros i Hi. apply elem_of_seqZ in Hi.
    apply (lineResolved_count (moveSign d)); [done|]. apply Hlines. lia.
  - intros i Hi Heq. apply (sumZ_lt _ _ _ i).
    + intros j Hj. apply elem_of_seqZ in Hj.
      apply (lineResolved_count (moveSign d)); [done|]. apply Hlines. lia.
    + apply elem_of_seqZ. lia.
    + apply (lineResolved_count (moveSign d)); [done| |done]. by apply Hlines.
Qed.

(** X26 ([hasLost] and [resolveCellsInDirection]): on a well-formed grid
    whose lines hold distinct block objects, when [hasLost] returns false
    there is an arrow key whose move returns a grid with an empty cell: a
    board that is not lost can always be moved so that a new block fits. *)
Theorem board_not_lost_has_a_freeing_move h g :
  wf h g ->
  (forall d i, validDirection d -> 0 <= i < Grid.size g ->
               NoDup (Block.ref <$> blocksOf (lineCellsAlong h g d i))) ->
  hasLost g h = (Ok false, h) ->
  exists key d g' h' p c,
    KEY_DIRECTION_MAP key = Some d /\
    resolveCellsInDirection d g h = (Ok g', h') /\
    inside g' p /\ cellAt h' g' p = Some c /\ Cell.block c = None.
Proof.
  intros Hwf Hdistinct Hlost.
  assert (0 <= Grid.size g) as Hsize by (destruct Hwf as [-> _]; lia).
  assert (forall key d,
            KEY_DIRECTION_MAP key = Some d ->
            (boardSum blocksAt h g < Grid.size g * Grid.size g \/
             exists i, 0 <= i < Grid.size g /\
                       hasEqualNeighbours (blocksOf (lineCellsAlong h g d i))) ->
            exists key d g' h' p c,
              KEY_DIRECTION_MAP key = Some d /\
              resolveCellsInDirection d g h = (Ok g', h') /\
              inside g' p /\ cellAt h' g' p = Some c /\ Cell.block c = None) as Hmove.
  { intros key d Hkey Hcase.
    pose proof (KEY_DIRECTION_MAP_valid key d Hkey) as Hd.
    destruct (resolveCellsInDirection_lines d g h Hd Hwf) as
      (g' & h' & Hres & Hwf' & Hsize' & Hlines); [intros i Hi; by apply Hdistinct|].
    destruct (move_count d g h g' h' Hd Hsize' Hlines) as [Hle Hstrict].
    pose proof (boardSum_blocksAt_le h g Hsize) as Hmax.
    destruct (below_full_has_empty h' g' Hwf') as (p & c & Hp & Hc & Hb).
    { rewrite Hsize'. destruct Hcase as [Hlt|(i & Hi & Heq)]; [lia|].
      specialize (Hstrict i Hi Heq). lia. }
    by exists key, d, g', h', p, c. }
  rewrite hasLost_eq in Hlost by done. injection Hlost as Hlost.
  apply andb_false_iff in Hlost as [Hlost|Hrows].
  apply andb_false_iff in Hlost as [Hempty|Hcols].
  - apply (Hmove "ArrowUp" up); [done|]. left.
    destruct (List.filter (emptyAt h g) (cellPositions (Grid.size g))) as [|p ps] eqn:Hps;
      [done|].
    assert (In p (List.filter (emptyAt h g) (cellPositions (Grid.size g)))) as Hin
      by (rewrite Hps; left; done).
    apply filter_In in Hin as [Hin He].
    apply list_elem_of_In, elem_of_cellPositions in Hin.
    unfold emptyAt, isEmpty in He. destruct (cellAt h g p) as [c|] eqn:Hc; [|done].
    apply (empty_cell_below_full h g p c); try done. by destruct (Cell.block c).
  - apply (Hmove "ArrowUp" up); [done|]. right.
    apply negb_false_iff, existsb_exists in Hcols as (x & Hx & Hpair).
    apply list_elem_of_In, elem_of_seqZ in Hx. exists x. split; [lia|].
    rewrite hasBlockPairs_adjacentEqual in Hpair by auto.
    unfold scanOrder in Hpair. simpl in Hpair. rewrite adjacentEqual_reverse in Hpair.
    apply adjacentEqual_closed in Hpair.
    by rewrite <- linesAlong_cells.
  - apply (Hmove "ArrowLeft" {| Vector.x := -1; Vector.y := 0 |}); [done|]. right.
    apply negb_false_iff, existsb_exists in Hrows as (y & Hy & Hpair).
    apply list_elem_of_In, elem_of_seqZ in Hy. exists y. split; [lia|].
    rewrite hasBlockPairs_adjacentEqual in Hpair by auto.
    unfold scanOrder in Hpair. simpl in Hpair. rewrite adjacentEqual_reverse in Hpair.
    apply adjacentEqual_closed in Hpair.
    by rewrite <- linesAlong_cells.
Qed.

Lemma board_not_lost_has_a_freeing_move_witness :
  exists key d g' h' p c,
    KEY_DIRECTION_MAP key = Some d /\
    resolveCellsInDirection d grid_2x2 heap_full2 = (Ok g', h') /\
    inside g' p /\ cellAt h' g' p = Some c /\ Cell.block c = None.
Proof.
  apply (board_not_lost_has_a_freeing_move heap_full2 grid_2x2 full2_wf).
  - intros d i _ Hi. by apply full2_lines_distinct.
  - vm_compute. reflexivity.
Defined.

(** ** From TEST_WON to the end of the turn *)

Lemma sumZ_one_differs {A} (f g : A -> Z) (l : list A) (p : A) :
  NoDup l -> p ∈ l ->
  (forall q, q ∈ l -> q <> p -> f q = g q) ->
  sumZ (f <$> l) = sumZ (g <$> l) + (f p - g p).
Proof.
  induction l as [|a l IH]; intros Hnd Hin Hsame; [by apply elem_of_nil in Hin|].
  apply NoDup_cons in Hnd as [Ha Hnd]. rewrite !fmap_cons, !sumZ_cons.
  apply elem_of_cons in Hin as [->|Hin].
  - assert (sumZ (f <$> l) = sumZ (g <$> l)) as ->; [|lia].
    apply sumZ_ext. intros q Hq. apply Hsame; [by right|]. by intros ->.
  - rewrite IH; [|done|done|intros q Hq; apply Hsame; by right].
    rewrite (Hsame a); [lia|left|by intros ->].
Qed.

Lemma position_eq_or_not (p q : Vector.t) : p = q \/ p <> q.
Proof.
  destruct p as [x y], q as [x' y'].
  destruct (decide (x = x')) as [->|Hx]; [|right; congruence].
  destruct (decide (y = y')) as [->|Hy]; [by left|right; congruence].
Qed.

Lemma cleared_blocksAt c c' : cleared c c' -> blocksAt (Some c') = blocksAt (Some c).
Proof.
  intros [_ Hb]. unfold blocksAt. simpl. destruct (Cell.block c) as [b|].
  - by destruct Hb as (b' & -> & _).
  - by rewrite Hb.
Qed.

Lemma cleared_mergedHasBlock c c' : cleared c c' -> mergedHasBlock c'.
Proof. intros [Hm _] Hne. by rewrite Hm in Hne. Qed.

(** X27 (the phase machine from TEST_WON to the end of the turn): on a
    well-formed grid of distinct cell objects, without merged blocks, new
    blocks or a block of value 2048 and with at least one empty cell, for a
    draw in [0, 1), the game goes from TEST_WON through SPAWN to
    TEST_GAME_OVER with the counter at 0: one completion signal is enough in
    SPAWN.  The grid then has the same size, one empty cell of before holds
    a block of value 2 with the id drawn, every other cell holds what it
    held, no block is new and no cell has a merged block; the board holds
    one block more and its sum of values is 2 higher.  From there the game
    steps to GAME_OVER on that grid when [hasLost] is true of it, and
    otherwise to INPUT on a grid with the same cells cleared once more. *)
Theorem turn_ends_with_one_more_block rnd g h :
  wf h g -> distinctCells g ->
  (forall p c, inside g p -> cellAt h g p = Some c ->
     Cell.mergedBlock c = None /\
     forall bl, Cell.block c = Some bl -> Block.isNew bl = false) ->
  (exists p c, inside g p /\ cellAt h g p = Some c /\ Cell.block c = None) ->
  hasWon g h = (Ok false, h) ->
  (0 <= Random.r1 rnd)%Q -> (Random.r1 rnd < 1)%Q ->
  exists p g' h',
    inside g p /\ blockAt h g p = None /\
    rtc step (game_in TEST_WON g 0 h) (game_in TEST_GAME_OVER g' 0 h') /\
    wf h' g' /\ Grid.size g' = Grid.size g /\
    (exists c' b, cellAt h' g' p = Some c' /\ Cell.mergedBlock c' = None /\
                  Cell.block c' = Some b /\ Block.id b = Random.uuid rnd /\
                  Block.value b = 2 /\ Block.isNew b = false) /\
    (forall q, inside g q -> q <> p ->
       exists c c', cellAt h g q = Some c /\ cellAt h' g' q = Some c' /\ cleared c c') /\
    boardSum blocksAt h' g' = boardSum blocksAt h g + 1 /\
    boardSum valueOf h' g' = boardSum valueOf h g + 2 /\
    exists lost, hasLost g' h' = (Ok lost, h') /\
      if lost : bool
      then step (game_in TEST_GAME_OVER g' 0 h') (game_in GAME_OVER g' 0 h')
      else exists g'' h'',
             step (game_in TEST_GAME_OVER g' 0 h') (game_in INPUT g'' 0 h'') /\
             wf h'' g'' /\ Grid.size g'' = Grid.size g' /\
             (forall q, inside g' q ->
                exists c c', cellAt h' g' q = Some c /\ cellAt h'' g'' q = Some c' /\
                             cleared c c').
Proof.
  intros Hwf Hnd Hquiet Hempty Hwon Hr0 Hr1.
  destruct (spawn_spec rnd h g Hwf Hnd) as
    (p & c & block & h1 & h2 & Hph & Hp & Hc & Hb & Hblock & Hred & Hwf2 & Hnew & Hother);
    try done.
  { intros q cq bl Hq Hcq Hbl. by apply (Hquiet q cq Hq Hcq). }
  assert (Cell.mergedBlock c = None) as Hmc by (by apply (Hquiet p c)).
  rewrite Hmc in Hnew.
  (* the completion signal of the new box clears the transient state *)
  destruct (clear_transient_spec rnd {| State.phase := SPAWN; State.grid := g |}
              TEST_GAME_OVER h2 Hwf2)
    as (g3 & h3 & Hclear & Hwf3 & Hsize3 & Hcells).
  { cbn [State.grid]. intros q cq Hq Hcq. destruct (position_eq_or_not q p) as [->|Hqp].
    - rewrite Hnew in Hcq. injection Hcq as <-. by intros _.
    - rewrite Hother in Hcq by done. intros Hne. by destruct (Hquiet q cq Hq Hcq). }
  cbn [State.grid] in *.
  assert (exists c' b, cellAt h3 g3 p = Some c' /\ Cell.mergedBlock c' = None /\
                       Cell.block c' = Some b /\ Block.id b = Random.uuid rnd /\
                       Block.value b = 2 /\ Block.isNew b = false) as Hatp.
  { destruct (Hcells p Hp) as (c2 & c3 & Hc2 & Hc3 & Hm3 & Hb3).
    rewrite Hnew in Hc2. injection Hc2 as <-. cbn [Cell.block] in Hb3.
    destruct Hb3 as (b' & Hb' & Hid & Hval & Hisnew). exists c3, b'.
    rewrite Hid, Hval, Hblock. done. }
  assert (forall q, inside g q -> q <> p ->
            exists c c', cellAt h g q = Some c /\ cellAt h3 g3 q = Some c' /\ cleared c c')
    as Hrest.
  { intros q Hq Hqp. destruct (Hcells q Hq) as (c2 & c3 & Hc2 & Hc3 & Hcl).
    rewrite Hother in Hc2 by done. by exists c2, c3. }
  assert (forall m : option Cell.t -> Z,
            (forall c c', cleared c c' -> m (Some c') = m (Some c)) ->
            boardSum m h3 g3 =
            boardSum m h g + (m (cellAt h3 g3 p) - m (cellAt h g p))) as Hsum.
  { intros m Hm. unfold boardSum. rewrite Hsize3.
    apply (sumZ_one_differs (fun q => m (cellAt h3 g3 q)) (fun q => m (cellAt h g q)));
      [apply NoDup_cellPositions|by apply elem_of_cellPositions|].
    intros q Hq Hqp. apply elem_of_cellPositions in Hq.
    destruct (Hrest q Hq Hqp) as (c2 & c3 & -> & -> & Hcl). by apply Hm. }
  exists p, g3, h3. split; [done|]. split; [unfold blockAt; by rewrite Hc|].
  split.
  { eapply rtc_l.
    { apply (step_effect (game_in TEST_WON g 0 h) rnd (SET_PHASE SPAWN) h
               {| State.phase := SPAWN; State.grid := g |} h); [|done].
      cbn [game_in Game.state Game.heap State.phase State.grid phaseHandler].
      by rewrite (bind_ok _ _ _ _ _ Hwon). }
    eapply rtc_l.
    { apply (step_effect (game_in SPAWN g 0 h) rnd (ADD_NEW_BLOCK (Some p) block) h1
               {| State.phase := SPAWN; State.grid := g |} h2); [exact Hph|exact Hred]. }
    eapply rtc_l; [|apply rtc_refl].
    apply (step_advance (game_in SPAWN g 0 h2) rnd (boardSum boxesAt h2 g) 0
             (CLEAR_TRANSIENT_STATE TEST_GAME_OVER)
             {| State.phase := TEST_GAME_OVER; State.grid := g3 |} h3).
    - by apply boxCount_boardSum.
    - done.
    - exact Hclear. }
  split; [done|]. split; [done|]. split; [exact Hatp|]. split; [exact Hrest|].
  destruct Hatp as (c3 & b3 & Hc3 & Hm3 & Hb3 & _ & Hval & _).
  split.
  { rewrite (Hsum blocksAt cleared_blocksAt), Hc3, Hc. unfold blocksAt. simpl.
    by rewrite Hb3, Hb. }
  split.
  { rewrite (Hsum valueOf); [|intros c1 c2 Hcl; simpl; by apply cleared_value].
    rewrite Hc3, Hc. unfold valueOf, cellValue. rewrite Hb3, Hb, Hval. done. }
  (* the test for the end of the game *)
  eexists. split; [by apply hasLost_eq|].
  match goal with |- if ?b then _ else _ => destruct b eqn:Hlost end.
  - apply (step_effect (game_in TEST_GAME_OVER g3 0 h3) rnd (SET_PHASE GAME_OVER) h3
             {| State.phase := GAME_OVER; State.grid := g3 |} h3); [|done].
    cbn [game_in Game.state Game.heap State.phase State.grid phaseHandler].
    erewrite bind_ok; [|by apply hasLost_eq]. by rewrite Hlost.
  - destruct (clear_transient_spec rnd {| State.phase := TEST_GAME_OVER; State.grid := g3 |}
                INPUT h3 Hwf3)
      as (g4 & h4 & Hclear4 & Hwf4 & Hsize4 & Hcells4).
    { cbn [State.grid]. intros q cq Hq Hcq.
      assert (inside g q) as Hq0 by (unfold inside in *; by rewrite <- Hsize3).
      destruct (Hcells q Hq0) as (c2 & c3' & _ & Hc3' & Hcl).
      rewrite Hc3' in Hcq. injection Hcq as <-. by eapply cleared_mergedHasBlock. }
    cbn [State.grid] in *. exists g4, h4. split; [|done].
    apply (step_effect (game_in TEST_GAME_OVER g3 0 h3) rnd (CLEAR_TRANSIENT_STATE INPUT) h3
             {| State.phase := INPUT; State.grid := g4 |} h4); [|exact Hclear4].
    cbn [game_in Game.state Game.heap State.phase State.grid phaseHandler].
    erewrite bind_ok; [|by apply hasLost_eq]. by rewrite Hlost.
Qed.

Lemma turn_ends_with_one_more_block_witness :
  exists p g' h',
    inside grid_2x2 p /\ blockAt heap_empty2 grid_2x2 p = None /\
    rtc step (game_in TEST_WON grid_2x2 0 heap_empty2) (game_in TEST_GAME_OVER g' 0 h') /\
    wf h' g' /\ Grid.size g' = Grid.size grid_2x2 /\
    (exists c' b, cellAt h' g' p = Some c' /\ Cell.mergedBlock c' = None /\
                  Cell.block c' = Some b /\ Block.id b = Random.uuid random0 /\
                  Block.value b = 2 /\ Block.isNew b = false) /\
    (forall q, inside grid_2x2 q -> q <> p ->
       exists c c', cellAt heap_empty2 grid_2x2 q = Some c /\ cellAt h' g' q = Some c' /\
                    cleared c c') /\
    boardSum blocksAt h' g' = boardSum blocksAt heap_empty2 grid_2x2 + 1 /\
    boardSum valueOf h' g' = boardSum valueOf heap_empty2 grid_2x2 + 2 /\
    exists lost, hasLost g' h' = (Ok lost, h') /\
      if lost : bool
      then step (game_in TEST_GAME_OVER g' 0 h') (game_in GAME_OVER g' 0 h')
      else exists g'' h'',
             step (game_in TEST_GAME_OVER g' 0 h') (game_in INPUT g'' 0 h'') /\
             wf h'' g'' /\ Grid.size g'' = Grid.size g' /\
             (forall q, inside g' q ->
                exists c c', cellAt h' g' q = Some c /\ cellAt h'' g'' q = Some c' /\
                             cleared c c').
Proof.
  apply (turn_ends_with_one_more_block random0 grid_2x2 heap_empty2 empty2_wf
           grid_2x2_distinct empty2_quiet).
  - exists origin, makeEmptyCell. split; [unfold inside; simpl; lia|]. split; reflexivity.
  - reflexivity.
  - unfold Qle. simpl. lia.
  - unfold Qlt. simpl. lia.
Defined.
